(** * Alumni-Portal job scrapers: a shallow embedding of the extraction pipeline

    The development follows the three scraper scripts of the repository:

    - [scrape_actuarial_jobs.py]   (module [Actuarial]),
    - [scrape_company_boards.py]   (module [Boards]),
    - [scripts/python/job_scraper.py], class [ActuarialJobScraper]
      (module [JobScraper]).

    Python strings are sequences of Unicode code points; they are modelled as
    lists of code points ([list N]).  String literals of the scripts are
    written as Rocq strings and decoded from UTF-8 by [u]. *)

From Stdlib Require Import ZArith NArith Strings.String Strings.Ascii List Lia.
From Stdlib Require Import DecimalString.
From stdpp Require Import base list gmap sets sorting.

Local Open Scope N_scope.

(** ** Python strings *)

Abbreviation text := (list N).

(** UTF-8 decoding of a Rocq string literal into code points. *)
Fixpoint utf8_decode (bs : list N) : text :=
  match bs with
  | [] => []
  | b0 :: r0 =>
    if b0 <? 0x80 then b0 :: utf8_decode r0
    else match r0 with
    | [] => [b0]
    | b1 :: r1 =>
      if b0 <? 0xE0 then (N.land b0 0x1F * 64 + N.land b1 0x3F) :: utf8_decode r1
      else match r1 with
      | [] => [b0; b1]
      | b2 :: r2 =>
        if b0 <? 0xF0 then
          (N.land b0 0x0F * 4096 + N.land b1 0x3F * 64 + N.land b2 0x3F)
            :: utf8_decode r2
        else match r2 with
        | [] => [b0; b1; b2]
        | b3 :: r3 =>
          (N.land b0 0x07 * 262144 + N.land b1 0x3F * 4096
           + N.land b2 0x3F * 64 + N.land b3 0x3F) :: utf8_decode r3
        end
      end
    end
  end.

Definition u (s : string) : text :=
  utf8_decode (map N_of_ascii (list_ascii_of_string s)).


(** *** Character classes of the interpreter

    [str.isspace], used by [str.strip] and by [\s] in patterns on [str]. *)
Definition is_space (c : N) : bool :=
  ((0x09 <=? c) && (c <=? 0x0D)) || ((0x1C <=? c) && (c <=? 0x20))
  || (c =? 0x85) || (c =? 0xA0) || (c =? 0x1680)
  || ((0x2000 <=? c) && (c <=? 0x200A))
  || (c =? 0x2028) || (c =? 0x2029) || (c =? 0x202F) || (c =? 0x205F)
  || (c =? 0x3000).

Definition is_ascii (c : N) : bool := c <? 0x80.
Definition in_range (lo hi : string) (c : N) : bool :=
  match u lo, u hi with
  | [a], [b] => (a <=? c) && (c <=? b)
  | _, _ => false
  end.

(** The class [[a-zA-Z0-9]]. *)
Definition is_ascii_alnum (c : N) : bool :=
  in_range "a" "z" c || in_range "A" "Z" c || in_range "0" "9" c.

Definition ascii_lower (c : N) : N :=
  if in_range "A" "Z" c then c + 32 else c.
Definition ascii_upper (c : N) : N :=
  if in_range "a" "z" c then c - 32 else c.

(** What the interpreter takes from the Unicode character database for code
    points outside ASCII is not part of the repository; it is a parameter of
    the development.  On ASCII the behaviour is fixed below. *)
Record unicode_tables := {
  (** [s.lower()] for a string [s] that holds a non-ASCII code point *)
  uni_lower : text -> text;
  (** [s.upper()] for a string [s] that holds a non-ASCII code point *)
  uni_upper : text -> text;
  (** [c.isalnum()] for a non-ASCII code point: the non-ASCII part of [\w] *)
  uni_isalnum : N -> bool;
  (** the decimal digit value of a non-ASCII code point matched by [\d] *)
  uni_decimal : N -> option Z
}.

(** Tables that know ASCII only; used for the concrete runs on ASCII text. *)
Definition ascii_only : unicode_tables :=
  {| uni_lower := fun s => s;
     uni_upper := fun s => s;
     uni_isalnum := fun _ => false;
     uni_decimal := fun _ => None |}.

Section Strings.
Context (U : unicode_tables).

(** [s.lower()] *)
Definition lower (s : text) : text :=
  if forallb is_ascii s then map ascii_lower s else uni_lower U s.

(** [s.upper()] *)
Definition upper (s : text) : text :=
  if forallb is_ascii s then map ascii_upper s else uni_upper U s.

(** [\w] *)
Definition is_word (c : N) : bool :=
  if is_ascii c then is_ascii_alnum c || (c =? 0x5F) else uni_isalnum U c.

(** Digit value of a character matched by [\d]. *)
Definition decimal_value (c : N) : option Z :=
  if is_ascii c then
    (if in_range "0" "9" c then Some (Z.of_N c - 48)%Z else None)
  else uni_decimal U c.

Definition is_digit (c : N) : bool :=
  match decimal_value c with Some _ => true | None => false end.

End Strings.

(** [s.title()] on an ASCII string: the first letter of each run of letters
    in upper case, the others in lower case. *)
Fixpoint ascii_title_from (in_word : bool) (s : text) : text :=
  match s with
  | [] => []
  | c :: s' =>
    if in_range "a" "z" c || in_range "A" "Z" c
    then (if in_word then ascii_lower c else ascii_upper c)
           :: ascii_title_from true s'
    else c :: ascii_title_from false s'
  end.
Definition ascii_title (s : text) : text := ascii_title_from false s.

(** [p in s] for strings, and [s.startswith(p)]. *)
Fixpoint starts_with (p s : text) : bool :=
  match p, s with
  | [], _ => true
  | a :: p', b :: s' => (a =? b) && starts_with p' s'
  | _ :: _, [] => false
  end.

Fixpoint contains (p s : text) : bool :=
  starts_with p s
  || match s with [] => false | _ :: s' => contains p s' end.

(** [any(x in t for x in xs)] *)
Definition any_in (xs : list text) (t : text) : bool :=
  existsb (fun x => contains x t) xs.

(** [s.strip()] *)
Fixpoint lstrip (s : text) : text :=
  match s with
  | c :: s' => if is_space c then lstrip s' else s
  | [] => []
  end.
Fixpoint rstrip (s : text) : text :=
  match s with
  | [] => []
  | c :: s' =>
    match rstrip s' with
    | [] => if is_space c then [] else [c]
    | r => c :: r
    end
  end.
Definition strip (s : text) : text := rstrip (lstrip s).

(** [sep.join(xs)] *)
Fixpoint join (sep : text) (xs : list text) : text :=
  match xs with
  | [] => []
  | [x] => x
  | x :: rest => x ++ sep ++ join sep rest
  end.

(** [s.replace(c, '')] for a one-character [c]. *)
Definition remove_char (c : N) (s : text) : text :=
  List.filter (fun x => negb (x =? c)) s.

(** Truthiness of a string and of a list: empty is false. *)
Definition nonempty_list {A} (l : list A) : bool :=
  match l with [] => false | _ => true end.
Definition nonempty (s : text) : bool :=
  match s with [] => false | _ => true end.

(** Comparison of strings: by code point, a proper prefix first. *)
Fixpoint text_compare (a b : text) : comparison :=
  match a, b with
  | [], [] => Eq
  | [], _ :: _ => Lt
  | _ :: _, [] => Gt
  | x :: a', y :: b' =>
    match x ?= y with
    | Eq => text_compare a' b'
    | c => c
    end
  end.

(** [sorted(xs, key=key)] is a stable sort; it is modelled by straight
    insertion, which is stable as well: an element is placed after the
    elements whose key is not larger. *)
Section Sorted.
Context {A K : Type} (cmp : K -> K -> comparison) (key : A -> K).

Definition key_leb (x y : A) : bool :=
  match cmp (key x) (key y) with Gt => false | _ => true end.

Fixpoint insert_sorted (x : A) (l : list A) : list A :=
  match l with
  | [] => [x]
  | y :: l' => if key_leb y x then y :: insert_sorted x l' else x :: l
  end.

Definition sorted (l : list A) : list A :=
  fold_left (fun acc x => insert_sorted x acc) l [].

End Sorted.

(** ** Regular expressions: the fragment of [re] used by the scripts

    Patterns are kept as syntax trees.  A character class is a predicate on
    code points; [Group i r] is the [i]-th capturing group; [Boundary w] is
    [\b] for the word class [w]. *)

Inductive regex :=
| Eps
| Chr (p : N -> bool)
| Seq (r1 r2 : regex)
| Alt (r1 r2 : regex)
| Star (r : regex)
| Group (i : nat) (r : regex)
| Boundary (w : N -> bool).

Definition Plus (r : regex) : regex := Seq r (Star r).
Definition Opt (r : regex) : regex := Alt r Eps.
Definition Cat (rs : list regex) : regex := foldr Seq Eps rs.
(** [r | r1 | ... | rn], tried from left to right. *)
Fixpoint Alts (r : regex) (rs : list regex) : regex :=
  match rs with
  | [] => r
  | r' :: rs' => Alt r (Alts r' rs')
  end.

(** A literal string, and a literal string under [re.IGNORECASE]. *)
Definition lit (s : string) : regex := Cat (map (fun c => Chr (N.eqb c)) (u s)).

(** Under [re.IGNORECASE] a literal ASCII letter matches both of its cases,
    and the interpreter adds the code points that lower-case or case-fold to
    it: U+017F for s, U+212A for k, U+0130 and U+0131 for i. *)
Definition ci (c x : N) : bool :=
  (ascii_lower x =? ascii_lower c)
  || ((ascii_lower c =? 0x73) && (x =? 0x17F))
  || ((ascii_lower c =? 0x6B) && (x =? 0x212A))
  || ((ascii_lower c =? 0x69) && ((x =? 0x130) || (x =? 0x131))).

Definition lit_i (s : string) : regex := Cat (map (fun c => Chr (ci c)) (u s)).

(** The class [[...]] listing the characters of [s], plain and under
    [re.IGNORECASE]. *)
Definition one_of (s : string) (x : N) : bool := existsb (N.eqb x) (u s).
Definition one_of_i (s : string) (x : N) : bool := existsb (fun c => ci c x) (u s).

(** Groups captured so far, the most recent binding of an index first. *)
Abbreviation captures := (list (nat * text)).

Fixpoint group (i : nat) (caps : captures) : option text :=
  match caps with
  | [] => None
  | (k, t) :: caps' => if Nat.eqb k i then Some t else group i caps'
  end.

Definition word_at (w : N -> bool) (c : option N) : bool :=
  match c with Some x => w x | None => false end.

(** The loop of a greedy [Star] over the matcher [m] of its body: as many
    rounds as possible first, then the continuation [k]; a round that
    consumes nothing is not repeated, so [length s] rounds suffice. *)
Fixpoint star_loop {R : Type}
    (m : option N -> text -> captures
         -> (option N -> text -> captures -> option R) -> option R)
    (k : option N -> text -> captures -> option R)
    (fuel : nat) (prev : option N) (s : text) (caps : captures) : option R :=
  match fuel with
  | O => k prev s caps
  | S fuel' =>
    match m prev s caps
            (fun prev' s' caps' =>
               if (length s' <? length s)%nat
               then star_loop m k fuel' prev' s' caps' else None) with
    | Some x => Some x
    | None => k prev s caps
    end
  end.

(** The backtracking matcher, in continuation-passing style: [rmatch r prev s
    caps k] matches [r] at the head of [s], where [prev] is the character
    before [s], and hands what is left to [k]; when [k] fails the next
    alternative is tried.  Alternation is ordered and [Star] is greedy. *)
Fixpoint rmatch {R : Type} (r : regex) (prev : option N) (s : text)
    (caps : captures) (k : option N -> text -> captures -> option R)
    {struct r} : option R :=
  match r with
  | Eps => k prev s caps
  | Chr p =>
    match s with
    | c :: s' => if p c then k (Some c) s' caps else None
    | [] => None
    end
  | Seq r1 r2 =>
    rmatch r1 prev s caps (fun prev' s' caps' => rmatch r2 prev' s' caps' k)
  | Alt r1 r2 =>
    match rmatch r1 prev s caps k with
    | Some x => Some x
    | None => rmatch r2 prev s caps k
    end
  | Star r1 => star_loop (rmatch r1) k (length s) prev s caps
  | Group i r1 =>
    rmatch r1 prev s caps
      (fun prev' s' caps' =>
         k prev' s' ((i, take (length s - length s') s) :: caps'))
  | Boundary w =>
    if xorb (word_at w prev) (word_at w (head s)) then k prev s caps else None
  end.

(** [re.search(r, s)]: the leftmost match; the result holds the captured
    groups and the text after the match. *)
Fixpoint search_from (r : regex) (prev : option N) (s : text)
  : option (captures * text) :=
  match rmatch r prev s [] (fun _ s' caps => Some (caps, s')) with
  | Some m => Some m
  | None =>
    match s with
    | [] => None
    | c :: s' => search_from r (Some c) s'
    end
  end.

Definition search (r : regex) (s : text) : option (captures * text) :=
  search_from r None s.

Definition re_found (r : regex) (s : text) : bool :=
  match search r s with Some _ => true | None => false end.

(** [re.sub(r, repl, s)] for a pattern [r] that matches no empty string (all
    patterns substituted by the scripts are a character class or a repeated
    one): every leftmost non-overlapping match is replaced by [repl]. *)
Fixpoint sub_loop (fuel : nat) (r : regex) (repl : text) (prev : option N)
    (s : text) : text :=
  match fuel with
  | O => s
  | S fuel' =>
    match s with
    | [] => []
    | c :: s' =>
      match rmatch r prev s []
              (fun prev' rest _ =>
                 if (length rest <? length s)%nat
                 then Some (prev', rest) else None) with
      | Some (prev', rest) => repl ++ sub_loop fuel' r repl prev' rest
      | None => c :: sub_loop fuel' r repl (Some c) s'
      end
    end
  end.

Definition sub (r : regex) (repl : text) (s : text) : text :=
  sub_loop (length s) r repl None s.

(** ** Integers and floats of the interpreter *)

(** A string of decimal digits read as a number; [None] for the empty
    string and for a string with a character that is no digit. *)
Section Numbers.
Context (U : unicode_tables).

Fixpoint digits_value (acc : Z) (s : text) : option Z :=
  match s with
  | [] => Some acc
  | c :: s' =>
    match decimal_value U c with
    | Some d => digits_value (10 * acc + d) s'
    | None => None
    end
  end.

Definition decimal_number (s : text) : option Z :=
  match s with
  | [] => None
  | _ => digits_value 0 s
  end.

(** [sys.int_info.default_max_str_digits]: the interpreter refuses to
    convert a string of more digits to an [int]. *)
Definition int_max_str_digits : Z := 4300.

(** [int(s)] on a string of decimal digits; [None] stands for [ValueError]:
    the empty string, a character that is no digit, or more digits than
    [int_max_str_digits]. *)
Definition py_int (s : text) : option Z :=
  if (Z.of_nat (length s) <=? int_max_str_digits)%Z then decimal_number s
  else None.

End Numbers.

(** ** Exceptions and local state

    A loop body of the scripts appends to a local list (and, in
    [job_scraper.py], to the set of seen ids) and may raise.  [M S A] is a
    computation over the state [S] that returns an [A] or raises; the state
    reached when the exception is raised is kept, as it is in Python. *)

Definition M (S A : Type) : Type := S -> option A * S.

Definition ret {S A} (a : A) : M S A := fun s => (Some a, s).
Definition bind {S A B} (m : M S A) (f : A -> M S B) : M S B :=
  fun s => match m s with
           | (Some a, s') => f a s'
           | (None, s') => (None, s')
           end.
Definition raise {S A} : M S A := fun s => (None, s).
Definition modify {S} (f : S -> S) : M S unit := fun s => (Some tt, f s).
Definition get {S} : M S S := fun s => (Some s, s).

(** [o] when it is a value, an exception otherwise. *)
Definition or_raise {S A} (o : option A) : M S A :=
  match o with Some a => ret a | None => raise end.

(** [try: m  except Exception: pass] (or [continue] as the last statement of
    a loop body). *)
Definition try_ {S} (m : M S unit) : M S unit :=
  fun s => (Some tt, snd (m s)).

Notation "x <- m ;; k" := (bind m (fun x => k))
  (at level 100, m at next level, right associativity).
Notation "m ;;; k" := (bind m (fun _ => k))
  (at level 100, right associativity).

(** [try: m  except Exception: handler] *)
Definition catch {S A} (m : M S A) (handler : M S A) : M S A :=
  fun s => match m s with
           | (None, s') => handler s'
           | r => r
           end.

(** A loop body ends by falling through to the next round or by [break]. *)
Inductive flow := Next | Break.

Fixpoint for_each_flow {S A} (xs : list A) (body : A -> M S flow) : M S unit :=
  match xs with
  | [] => ret tt
  | x :: rest =>
    bind (body x) (fun f => match f with
                            | Break => ret tt
                            | Next => for_each_flow rest body
                            end)
  end.

(** [for x in xs: body(x)] *)
Fixpoint for_each {S A} (xs : list A) (body : A -> M S unit) : M S unit :=
  match xs with
  | [] => ret tt
  | x :: rest => body x ;;; for_each rest body
  end.

(** ** Pages and elements

    The HTML parser (BeautifulSoup) and the network are outside the
    repository.  A parsed page answers [select]; an element answers
    [select_one] and [get_text]; a node has a text and possibly an [href]. *)

Record node := { node_text : text; node_href : option text }.
Record element := {
  el_text : text;                        (* el.get_text() *)
  el_select_one : string -> option node  (* el.select_one(selector) *)
}.
Record soup := { select : string -> list element }.

(** A tag as [job_scraper.py] uses it: [get_text()], [get('href')] and
    [find(name, attrs)]. *)
Inductive tag := Tag {
  get_text : text;
  get_href : option text;
  find : string -> string -> option tag
}.
(** A parsed page there answers [find_all(name, class_)]. *)
Definition page := string -> string -> list tag.

Inductive param := PText (t : text) | PInt (z : Z).
Record request := { req_url : text; req_params : list (string * param) }.

(** [str(n)] for a natural number. *)
Definition decimal (n : nat) : text :=
  u (NilZero.string_of_uint (Nat.to_uint n)).

(** ** Records of [scrape_actuarial_jobs.py] and [scrape_company_boards.py]

    Both scripts declare the same two dataclasses. *)

Record Salary := mkSalary {
  sal_min : option Z;
  sal_max : option Z;
  sal_currency : text
}.

Inductive JobType := FullTime | PartTime | Contract | Internship.
Inductive Level := Entry | Mid | Senior | Executive.

Record Job := mkJob {
  j_id : text;
  j_title : text;
  j_company : text;
  j_location : text;
  j_description : text;
  j_salary : option Salary;
  j_job_type : option JobType;
  j_experience_level : option Level;
  j_skills : list text;
  j_certifications : list text;
  j_posted_date : option text;
  j_url : text;
  j_apply_url : option text;
  j_source : text;
  j_featured : bool
}.

(** The key [(j.source, j.company, j.title)] and the comparison of such
    tuples: component by component, the first difference decides. *)
Definition sort_key (j : Job) : text * text * text :=
  (j_source j, j_company j, j_title j).

Definition key_compare (a b : text * text * text) : comparison :=
  let '(a1, a2, a3) := a in
  let '(b1, b2, b3) := b in
  match text_compare a1 b1 with
  | Eq => match text_compare a2 b2 with
          | Eq => text_compare a3 b3
          | c => c
          end
  | c => c
  end.

(** * [scrape_actuarial_jobs.py] *)
Module Actuarial.

Definition COMMON_SKILLS : list text :=
  map u ["Excel"; "SQL"; "Python"; "R"; "SAS"; "Tableau"; "Power BI"; "VBA"]%string.
Definition CERTS : list text :=
  map u ["FSA"; "ASA"; "EA"; "MAAA"; "CERA"; "CAS"]%string.

(** [re.sub(r"\s+", " ", text or '').strip()] *)
Definition normalize_whitespace (t : option text) : text :=
  strip (sub (Plus (Chr is_space)) (u " ") (default [] t)).

(** [seed = f"{title}|{company}|{location}|{url}"];
    [re.sub(r"[^a-zA-Z0-9]", '', seed)[:64]] *)
Definition gen_id (title company location url : text) : text :=
  let seed := title ++ u "|" ++ company ++ u "|" ++ location ++ u "|" ++ url in
  take 64 (sub (Chr (fun c => negb (is_ascii_alnum c))) [] seed).

Section Inference.
Context (U : unicode_tables).

(** The pattern of [parse_salary], compiled with [re.I]; its tokens, spaced
    out: ( \$ | USD \s* )?  ( [\d,]+ )  \s*  (?: - | to )  \s*
    ( \$ | USD \s* )?  ( [\d,]+ ) *)
Definition salary_pattern : regex :=
  let amount := Plus (Chr (fun c => is_digit U c || (c =? 0x2C))) in
  let marker i := Opt (Group i (Alt (lit "$") (Cat [lit_i "USD"; Star (Chr is_space)]))) in
  Cat [ marker 1%nat; Group 2 amount; Star (Chr is_space);
        Alt (lit "-") (lit_i "to"); Star (Chr is_space);
        marker 3%nat; Group 4 amount ].

Definition parse_salary (t : text) : option Salary :=
  if negb (nonempty t) then None else
  match search salary_pattern t with
  | Some (m, _) =>
    (* try: ... except Exception: return None *)
    match py_int U (remove_char 0x2C (default [] (group 2 m))),
          py_int U (remove_char 0x2C (default [] (group 4 m))) with
    | Some mn, Some mx => Some (mkSalary (Some mn) (Some mx) (u "USD"))
    | _, _ => None
    end
  | None => None
  end.

(** The pattern ( \b10\+ | \b8\+ | \b7\+ ) \s* years and its two siblings. *)
Definition years_pattern (a : string) (alts : list string) : regex :=
  let alt a := Cat [Boundary (is_word U); lit a] in
  Cat [ Alts (alt a) (map alt alts); Star (Chr is_space); lit "years" ].

Definition executive_terms : list text :=
  map u ["executive"; "manager"; "lead"; "director"]%string.

Definition infer_experience (txt : text) : option Level :=
  let t := lower U txt in
  if any_in executive_terms t
  then Some Executive
  else if contains (u "senior") t
          || re_found (years_pattern "10+" ["8+"; "7+"]%string) t
  then Some Senior
  else if re_found (years_pattern "3-5" ["4-6"; "3+"; "5+"]%string) t
          || contains (u "mid") t
  then Some Mid
  else if contains (u "entry") t
          || re_found (years_pattern "0-2" ["1-2"; "0-1"]%string) t
          || contains (u "junior") t
  then Some Entry
  else None.

(** [found] is a Python set; [sorted(found)] lists it in increasing order. *)
Definition extract_skills (txt : text) : list text :=
  let t := lower U txt in
  let found : gset (list N) :=
    foldl (fun found s => if contains (lower U s) t then {[ s ]} ∪ found else found)
          ∅ COMMON_SKILLS in
  sorted text_compare (fun s => s) (elements found).

(** [re.search(rf"\b{re.escape(c)}\b", text)] *)
Definition cert_pattern (c : text) : regex :=
  Cat [ Boundary (is_word U); Cat (map (fun x => Chr (N.eqb x)) c);
        Boundary (is_word U) ].

Definition extract_certs (txt : text) : list text :=
  let found : gset (list N) :=
    foldl (fun found c => if re_found (cert_pattern c) txt then {[ c ]} ∪ found else found)
          ∅ CERTS in
  sorted text_compare (fun s => s) (elements found).


(** [f"{job.title} {job.company} {job.description}".lower()] and the three
    filters. *)
Definition matches_filters (job : Job) (keywords locations : list text)
    (remote_only : bool) : bool :=
  let t := lower U (j_title job ++ u " " ++ j_company job ++ u " "
                    ++ j_description job) in
  if nonempty_list keywords
     && negb (existsb (fun k => contains (lower U k) t) keywords)
  then false
  else if nonempty_list locations
          && negb (existsb (fun loc_sub =>
                              contains (lower U loc_sub)
                                       (lower U (j_location job)))
                           locations)
  then false
  else if remote_only
          && negb (contains (u "remote") (lower U (j_location job)))
  then false
  else true.

Definition text_of (el : element) (selector : string) : text :=
  match el_select_one el selector with
  | Some node => normalize_whitespace (Some (node_text node))
  | None => []
  end.

Definition href_of (el : element) (selector : string) : option text :=
  match el_select_one el selector with
  | Some node => node_href node
  | None => None
  end.

End Inference.

(** *** Scrapers

    [fetch] answers a request with a parsed page or raises (after its
    retries); [urljoin] is [urllib.parse.urljoin], which raises on some
    malformed input.  Both are outside the repository. *)
Section Scrapers.
Context (U : unicode_tables).
Context (fetch : request -> option soup).
Context (urljoin : text -> text -> option text).
Context (keywords locations : list text) (remote_only : bool).

Definition fetch_page {S} (url : text) (params : list (string * param))
  : M S soup :=
  or_raise (fetch {| req_url := url; req_params := params |}).

Definition safe_urljoin {S} (base : text) (href : option text) : M S text :=
  match href with
  | Some h => if nonempty h then or_raise (urljoin base h) else ret base
  | None => ret base
  end.

(** The part shared by the three loops: build the record from the texts that
    were extracted and append it when it passes the filters. *)
Definition emit (title company location desc : text) (sal : option Salary)
    (exp : option Level) (job_url : text) (source : string) (featured : bool)
  : M (list Job) unit :=
  let job :=
    {| j_id := gen_id title company location job_url;
       j_title := title;
       j_company := company;
       j_location := location;
       j_description := desc;
       j_salary := sal;
       j_job_type := None;
       j_experience_level := exp;
       j_skills := extract_skills U desc;
       j_certifications := extract_certs U desc;
       j_posted_date := None;
       j_url := job_url;
       j_apply_url := Some job_url;
       j_source := u source;
       j_featured := featured |} in
  if matches_filters U job keywords locations remote_only
  then modify (fun jobs => jobs ++ [job])
  else ret tt.

Definition soa_base : text := u "https://jobs.soa.org/jobs/".

Definition soa_listing (el : element) : M (list Job) unit :=
  let title := text_of el ".job-title, .media-heading, a" in
  let company := text_of el ".company-name, .text-muted, .company" in
  let location := text_of el ".job-location, .location" in
  job_url <- safe_urljoin soa_base (href_of el "a[href]") ;;
  let desc := normalize_whitespace (Some (el_text el)) in
  let sal := parse_salary U desc in
  let exp := infer_experience U desc in
  if negb (nonempty title) || negb (nonempty company) then ret tt
  else emit title company location desc sal exp job_url "SOA" true.

Definition scrape_soa (max_pages : Z) : list Job :=
  let page_body (page : nat) : M (list Job) unit :=
    let url := if Nat.eqb page 1 then soa_base
               else soa_base ++ u "?page=" ++ decimal page in
    try_ (page_soup <- fetch_page url [] ;;
          for_each (select page_soup ".job-listing, .list-group-item, .media")
                   soa_listing) in
  snd (for_each (seq 1 (Z.to_nat max_pages)) page_body []).

Definition cas_base : text := u "https://www.casact.org/career-center/job-board".

Definition cas_item (el : element) : M (list Job) unit :=
  let title := text_of el ".job-title, h3, a" in
  let location := text_of el ".location" in
  let company := let c := text_of el ".employer-name" in
                 if nonempty c then c else u "Company" in
  job_url <- safe_urljoin cas_base (href_of el "a[href]") ;;
  let desc := normalize_whitespace (Some (el_text el)) in
  let sal := parse_salary U desc in
  let exp := infer_experience U desc in
  if negb (nonempty title) then ret tt
  else emit title company location desc sal exp job_url "CAS" true.

Definition scrape_cas (max_pages : Z) : list Job :=
  snd (try_ (page_soup <- fetch_page cas_base [] ;;
             for_each (select page_soup ".job-item, article, li a") cas_item)
         []).


Definition indeed_card (c : element) : M (list Job) unit :=
  let title_el := el_select_one c "h2 a, a[data-jk]" in
  let title := match title_el with
               | Some n => normalize_whitespace (Some (node_text n))
               | None => []
               end in
  let company := text_of c ".companyName, .company" in
  let location := text_of c ".companyLocation, .location" in
  job_url <- safe_urljoin (u "https://www.indeed.com")
                          (match title_el with
                           | Some n => node_href n
                           | None => None
                           end) ;;
  let snippet := text_of c ".job-snippet, .summary" in
  let sal := parse_salary U (el_text c) in
  let exp := infer_experience U snippet in
  if negb (nonempty title) || negb (nonempty company) then ret tt
  else emit title company location snippet sal exp job_url "Indeed" false.

Definition scrape_indeed (max_pages : Z) : list Job :=
  let kw_q := if nonempty_list keywords then join (u " ") keywords
              else u "actuarial" in
  let base := u "https://www.indeed.com/jobs" in
  let locs := if nonempty_list locations then locations else [ [] ] in
  let loc_body (loc : text) : M (list Job) unit :=
    let params :=
      [("q", PText kw_q)]%string
      ++ (if nonempty loc then [("l", PText loc)]%string else [])
      ++ (if remote_only then [("sc", PText (u "0kf%3Aattr(DSQF7)%3B"))]%string
          else []) in
    for_each (seq 0 (Z.to_nat max_pages))
      (fun page =>
         let params := params ++ [("start", PInt (Z.of_nat page * 10))]%string in
         try_ (page_soup <- fetch_page base params ;;
               for_each (select page_soup
                           ".job_seen_beacon, .resultContent, .jobsearch-SerpJobCard")
                        indeed_card)) in
  snd (for_each locs loc_body []).

End Scrapers.

(** *** Aggregation *)

(** [dedupe]: the loop threads the set [seen] and the list [unique]. *)
Fixpoint dedupe_loop (seen : gset (list N)) (unique : list Job)
    (jobs : list Job) : list Job :=
  match jobs with
  | [] => unique
  | j :: rest =>
    if decide (j_id j ∈ seen) then dedupe_loop seen unique rest
    else dedupe_loop ({[ j_id j ]} ∪ seen) (unique ++ [j]) rest
  end.

Definition dedupe (jobs : list Job) : list Job := dedupe_loop ∅ [] jobs.

(** [sorted(jobs, key=lambda j: (j.source, j.company, j.title))] *)
Definition sort_jobs (jobs : list Job) : list Job :=
  sorted key_compare sort_key jobs.

(** The loop of [run_scrape] over its list of sources.  A source is run in a
    [try]; [None] stands for a source that raises, which contributes
    nothing. *)
Definition run_sources (sources : list (Z -> option (list Job)))
    (max_pages : Z) : list Job :=
  let all_jobs :=
    snd (for_each sources
           (fun fn => try_ (jobs <- or_raise (fn max_pages) ;;
                            modify (fun all_jobs => all_jobs ++ jobs)))
           []) in
  let all_jobs := dedupe all_jobs in
  let all_jobs := sort_jobs all_jobs in
  all_jobs.

Definition run_scrape (U : unicode_tables) (fetch : request -> option soup)
    (urljoin : text -> text -> option text)
    (keywords locations : list text) (remote_only : bool) (max_pages : Z)
  : list Job :=
  let source fn := fun max_pages =>
    Some (fn U fetch urljoin keywords locations remote_only max_pages) in
  run_sources [source scrape_soa; source scrape_cas; source scrape_indeed]
              max_pages.

End Actuarial.

(** * [scrape_company_boards.py] *)
Module Boards.

(** [re.sub(r"\s+", " ", (text or '')).strip()] *)
Definition normalize (t : option text) : text :=
  strip (sub (Plus (Chr is_space)) (u " ") (default [] t)).

Definition gen_id (title company location url : text) : text :=
  let seed := title ++ u "|" ++ company ++ u "|" ++ location ++ u "|" ++ url in
  take 64 (sub (Chr (fun c => negb (is_ascii_alnum c))) [] seed).

Fixpoint dedupe_loop (seen : gset (list N)) (uniq : list Job)
    (jobs : list Job) : list Job :=
  match jobs with
  | [] => uniq
  | j :: rest =>
    if decide (j_id j ∈ seen) then dedupe_loop seen uniq rest
    else dedupe_loop ({[ j_id j ]} ∪ seen) (uniq ++ [j]) rest
  end.

Definition dedupe (jobs : list Job) : list Job := dedupe_loop ∅ [] jobs.

Definition sort_jobs (jobs : list Job) : list Job :=
  sorted key_compare sort_key jobs.

End Boards.

(** ** Floating point

    [float] is IEEE 754 binary64.  The scraper only forms non-negative
    values: a finite one is [m * 2^e] with [m] below [2^53] (or equal to it
    right after a carry); [Infinity] arises from overflow and [NaN] from
    [inf * 0]. *)
Inductive float := Finite (m e : Z) | Infinity | NaN.

Local Open Scope Z_scope.

(** [n / d] rounded to the nearest integer, ties to even ([0 <= n], [0 < d]). *)
Definition round_half_even (n d : Z) : Z :=
  let q := n / d in
  match 2 * (n mod d) ?= d with
  | Lt => q
  | Gt => q + 1
  | Eq => if Z.even q then q else q + 1
  end.

(** The binary64 value nearest to [n / d], ties to even. *)
Definition float_of_ratio (n d : Z) : float :=
  if n =? 0 then Finite 0 0 else
  let l := Z.log2 n - Z.log2 d in
  (* the exponent of the leading bit of n/d is l or l - 1 *)
  let lead := if (if 0 <=? l then d * 2 ^ l <=? n else d <=? n * 2 ^ (- l))
              then l else l - 1 in
  let e := Z.max (lead - 52) (-1074) in
  let m := if 0 <=? e then round_half_even n (d * 2 ^ e)
           else round_half_even (n * 2 ^ (- e)) d in
  if (0 <=? e) && (2 ^ 1024 <=? m * 2 ^ e) then Infinity else Finite m e.

Definition is_zero (x : float) : bool :=
  match x with Finite m _ => m =? 0 | _ => false end.

Definition fmul (x y : float) : float :=
  match x, y with
  | Finite m1 e1, Finite m2 e2 =>
    let e := e1 + e2 in
    if 0 <=? e then float_of_ratio (m1 * m2 * 2 ^ e) 1
    else float_of_ratio (m1 * m2) (2 ^ (- e))
  | NaN, _ | _, NaN => NaN
  | Infinity, z | z, Infinity => if is_zero z then NaN else Infinity
  end.

(** [int(x)]: truncation; [None] stands for the [OverflowError] or
    [ValueError] raised on an infinity or a NaN. *)
Definition int_of_float (x : float) : option Z :=
  match x with
  | Finite m e => Some (if 0 <=? e then m * 2 ^ e else m / 2 ^ (- e))
  | _ => None
  end.

(** [z * x] for an [int] [z] and a [float] [x]: [z] is converted first, which
    raises [OverflowError] when it is too large. *)
Definition int_times_float (z : Z) (x : float) : option float :=
  match float_of_ratio z 1 with
  | Infinity => None
  | fz => Some (fmul fz x)
  end.

Local Close Scope Z_scope.

(** * [scripts/python/job_scraper.py], class [ActuarialJobScraper] *)
Module JobScraper.

(** The [salary] value of a job dictionary. *)
Record salary_dict := mkSal { s_min : Z; s_max : Z; s_currency : text }.

Section Inference.
Context (U : unicode_tables).
(** [hashlib.md5(s.encode()).hexdigest()] *)
Context (md5_hexdigest : text -> text).

Definition generate_job_id (title company location : text) : text :=
  let combined := lower U (title ++ u "|" ++ company ++ u "|" ++ location) in
  take 16 (md5_hexdigest combined).

(** The characters kept by the second substitution of [clean_text]: the
    complement of the class written [^\w\s\-.,/$()&₹]. *)
Definition keeps (c : N) : bool :=
  is_word U c || is_space c || one_of "-.,/$()&₹" c.

Definition clean_text (t : text) : text :=
  if negb (nonempty t) then [] else
  let t := strip (sub (Plus (Chr is_space)) (u " ") t) in
  sub (Chr (fun c => negb (keeps c))) [] t.

(** [\d+(?:\.\d+)?] *)
Definition number : regex :=
  Cat [ Plus (Chr (is_digit U)); Opt (Cat [lit "."; Plus (Chr (is_digit U))]) ].

(** [float(s)] for a string [s] matched by [number]: the digits before and
    after the point give a decimal fraction, which is rounded to binary64
    ([float] has no limit on the number of digits). *)
Fixpoint split_point (s : text) : text * option text :=
  match s with
  | [] => ([], None)
  | c :: s' =>
    if c =? 0x2E then ([], Some s')
    else let '(a, b) := split_point s' in (c :: a, b)
  end.

Definition py_float (s : text) : option float :=
  let '(ip, fp) := split_point s in
  match decimal_number U ip, fp with
  | Some i, None => Some (float_of_ratio i 1)
  | Some i, Some f =>
    match digits_value U i f with
    | Some n => Some (float_of_ratio n (10 ^ Z.of_nat (length f)))
    | None => None
    end
  | None, _ => None
  end.

Definition f100000 : float := float_of_ratio 100000 1.
Definition f1000 : float := float_of_ratio 1000 1.
Definition f10000000 : float := float_of_ratio 10000000 1.

(** [int(x * k)] for the float [x] and the integer constant [k]. *)
Definition scaled (x k : float) : option Z := int_of_float (fmul x k).

(** [int(sal * c)] for the integer [sal] and the float constant [c]. *)
Definition int_scaled (sal : Z) (n d : Z) : option Z :=
  match int_times_float sal (float_of_ratio n d) with
  | Some x => int_of_float x
  | None => None
  end.

Definition currency_class : N -> bool := one_of_i "₹Rs.".
Definition sp : regex := Star (Chr is_space).
Definition unit1 : regex :=
  Alts (lit_i "L") [lit_i "Lakh"; lit_i "Lakhs"; lit_i "LPA"; lit_i "K"].

(** Pattern 1, compiled with [re.IGNORECASE]; its tokens, spaced out:
    [₹Rs\.]+  \s*  ( \d+ (?: \.\d+ )? )  \s*  (?: L|Lakh|Lakhs|LPA|K )?  \s*
    -  \s*  [₹Rs\.]*  \s*  ( \d+ (?: \.\d+ )? )  \s*  ( L|Lakh|Lakhs|LPA|K )? *)
Definition pattern1 : regex :=
  Cat [ Plus (Chr currency_class); sp; Group 1 number; sp; Opt unit1; sp;
        lit "-"; sp; Star (Chr currency_class); sp; Group 2 number; sp;
        Opt (Group 3 unit1) ].

(** Pattern 2:  ( \d+ (?: \.\d+ )? )  \s*  -  \s*  ( \d+ (?: \.\d+ )? )  \s*
    ( Lakhs? | LPA | Crores? ) *)
Definition pattern2 : regex :=
  Cat [ Group 1 number; sp; lit "-"; sp; Group 2 number; sp;
        Group 3 (Alts (Cat [lit_i "Lakh"; Opt (lit_i "s")])
                      [lit_i "LPA"; Cat [lit_i "Crore"; Opt (lit_i "s")]]) ].

(** Pattern 3:  [₹Rs\.]+  \s*  ( \d+ (?: \.\d+ )? )  \s*
    ( L|Lakh|Lakhs|LPA|Crore|Crores ) *)
Definition pattern3 : regex :=
  Cat [ Plus (Chr currency_class); sp; Group 1 number; sp;
        Group 2 (Alts (lit_i "L") [lit_i "Lakh"; lit_i "Lakhs"; lit_i "LPA";
                                   lit_i "Crore"; lit_i "Crores"]) ].

Definition INR (mn mx : Z) : salary_dict := mkSal mn mx (u "INR").

(** The body of the [if match:] of pattern 1.  [None] is an exception. *)
Definition range1 (m : captures) : option salary_dict :=
  min_sal ← py_float (default [] (group 1 m));
  max_sal ← py_float (default [] (group 2 m));
  let unit := default [] (group 3 m) in
  '(min_sal, max_sal) ←
    (if nonempty unit
        && existsb (fun x => bool_decide (upper U unit = u x))
                   ["L"; "LAKH"; "LAKHS"; "LPA"]%string
     then mn ← scaled min_sal f100000; mx ← scaled max_sal f100000;
          Some (mn, mx)
     else if nonempty unit && bool_decide (upper U unit = u "K")
     then mn ← scaled min_sal f1000; mx ← scaled max_sal f1000;
          Some (mn, mx)
     else mn ← int_of_float min_sal; mx ← int_of_float max_sal;
          Some (mn, mx));
  (* Assume monthly if less than 50000 *)
  if (max_sal <? 50000)%Z then Some (INR (min_sal * 12) (max_sal * 12))
  else Some (INR min_sal max_sal).

(** The body of the [if match:] of pattern 2. *)
Definition range2 (m : captures) : option salary_dict :=
  min_sal ← py_float (default [] (group 1 m));
  max_sal ← py_float (default [] (group 2 m));
  let unit := lower U (default [] (group 3 m)) in
  let k := if contains (u "crore") unit then f10000000 else f100000 in
  mn ← scaled min_sal k; mx ← scaled max_sal k;
  Some (INR mn mx).

(** The body of the [if match:] of pattern 3: a single value [sal] gives the
    range from [int(sal * 0.8)] to [int(sal * 1.2)]. *)
Definition single3 (m : captures) : option salary_dict :=
  sal ← py_float (default [] (group 1 m));
  let unit := lower U (default [] (group 2 m)) in
  let k := if contains (u "crore") unit then f10000000 else f100000 in
  sal ← scaled sal k;
  mn ← int_scaled sal 8 10; mx ← int_scaled sal 12 10;
  Some (INR mn mx).

(** [extract_salary]: the outer [option] is [None] when an exception is
    raised, the inner one is the returned dictionary or Python's [None]. *)
Definition extract_salary (t : text) : option (option salary_dict) :=
  let t := remove_char 0x2C t in
  match search pattern1 t with
  | Some (m, _) => Some <$> range1 m
  | None =>
    match search pattern2 t with
    | Some (m, _) => Some <$> range2 m
    | None =>
      match search pattern3 t with
      | Some (m, _) => Some <$> single3 m
      | None => Some None
      end
    end
  end.

Definition senior_terms : list text :=
  map u ["senior"; "lead"; "principal"; "10+ years"; "8+ years"; "sr."]%string.
Definition executive_terms : list text :=
  map u ["manager"; "director"; "vp"; "chief"; "head"]%string.

Definition determine_experience_level (title description : text) : Level :=
  let t := lower U (title ++ u " " ++ description) in
  if any_in senior_terms t
  then Senior
  else if any_in executive_terms t
  then Executive
  else if any_in (map u ["mid-level"; "3-5 years"; "4-7 years"; "experienced";
                         "2-4 years"]%string) t
  then Mid
  else if any_in (map u ["entry"; "junior"; "associate"; "0-2 years";
                         "graduate"; "fresher"; "trainee"]%string) t
  then Entry
  else Mid.

Definition determine_job_type (title description : text) : JobType :=
  let t := lower U (title ++ u " " ++ description) in
  if contains (u "intern") t then Internship
  else if any_in (map u ["contract"; "contractor"; "temp"; "temporary";
                         "freelance"]%string) t
  then Contract
  else if any_in (map u ["part-time"; "part time"; "parttime"]%string) t
  then PartTime
  else FullTime.

Definition skills_keywords : list text :=
  map u [ "excel"; "vba"; "sql"; "python"; "r"; "sas"; "stata";
          "tableau"; "power bi"; "powerbi"; "access"; "matlab";
          "c++"; "java"; "javascript"; "hadoop"; "spark";
          "azure"; "aws"; "gcp"; "machine learning"; "ai";
          "prophet"; "moses"; "emblem"; "axis"; "igloo" ]%string.

(** [list(dict.fromkeys(xs))]: duplicates removed, first occurrences kept. *)
Definition fromkeys (xs : list text) : list text :=
  foldl (fun keys x =>
           if existsb (fun y => bool_decide (y = x)) keys then keys
           else keys ++ [x])
        [] xs.

Definition extract_skills (description : text) : list text :=
  let description_lower := lower U description in
  let found_skills :=
    foldl (fun found_skills skill =>
             if contains skill description_lower then
               if existsb (fun x => bool_decide (skill = u x))
                          ["sql"; "vba"; "sas"; "aws"; "gcp"; "ai"]%string
               then found_skills ++ [map ascii_upper skill]
               else if bool_decide (skill = u "r")
               then found_skills ++ [u "R"]
               else found_skills ++ [ascii_title skill]
             else found_skills)
          [] skills_keywords in
  fromkeys found_skills.

Definition cert_keywords : list text :=
  map u [ "FSA"; "ASA"; "FCAS"; "ACAS"; "EA"; "MAAA"; "CERA";
          "FIA"; "CIA"; "FIAI"; "AIAI"; "ACII"; "FCII" ]%string.

Definition extract_certifications (description : text) : list text :=
  foldl (fun found_certs cert =>
           if contains cert description then found_certs ++ [cert]
           else found_certs)
        [] cert_keywords.

End Inference.

(** The dictionary built for a posting. *)
Record job_dict := mkDict {
  d_id : text;
  d_title : text;
  d_company : text;
  d_location : text;
  d_description : text;
  d_url : text;
  d_source : text;
  d_jobType : JobType;
  d_experienceLevel : Level;
  d_skills : list text;
  d_qualifications : list text;
  d_certifications : list text;
  d_posted_date : text;
  d_featured : bool;
  d_salary : option salary_dict
}.

(** The state touched by a scraping method: its local list [jobs] and the
    attribute [self.seen_ids]. *)
Record state := mkState { jobs : list job_dict; seen_ids : gset (list N) }.

Section Scrapers.
Context (U : unicode_tables) (md5_hexdigest : text -> text).
(** [urllib.parse.urlencode], and [self.session.get(url)] followed by
    [raise_for_status] and the parser ([None] when one of them raises). *)
Context (urlencode : list (string * param) -> text).
Context (session_get : text -> option page).
(** [datetime.now().strftime('%Y-%m-%d')].  The clock is outside the
    program; it is read once for every posting that is recorded, right
    after the id of the posting has been added to [self.seen_ids].
    [today st] is the date read in the state [st].  The set of seen ids is
    larger at every reading than at the one before, so the readings of a run
    are made in different states and may all differ. *)
Context (today : state -> text).
(** [self.location] and [self.keywords] *)
Context (location : text) (keywords : list text).

Definition text_or (elem : option tag) (dflt : text) : text :=
  match elem with
  | Some e => clean_text U (get_text e)
  | None => dflt
  end.

(** [elem['href']] when [elem and elem.get('href')] holds. *)
Definition href_of (elem : option tag) : option text :=
  match elem with
  | Some e => match get_href e with
              | Some h => if nonempty h then Some h else None
              | None => None
              end
  | None => None
  end.

(** The tail shared by the three card loops, from [if not title: continue]
    on; [salary_source] is the text given to [extract_salary], if any. *)
Definition record_job (title : option text) (company loc description : text)
    (job_link source : text) (full_text skills_text : text)
    (certs : list text) (salary_source : option text) (featured : bool)
  : M state unit :=
  match title with
  | None => ret tt
  | Some title =>
    if negb (nonempty title) then ret tt else
    let job_id := generate_job_id U md5_hexdigest title company loc in
    st <- get ;;
    if decide (job_id ∈ seen_ids st) then ret tt else
    modify (fun st => mkState (jobs st) ({[ job_id ]} ∪ seen_ids st)) ;;;
    reading <- get ;;
    let job salary :=
      {| d_id := job_id;
         d_title := title;
         d_company := company;
         d_location := loc;
         d_description := description;
         d_url := job_link;
         d_source := source;
         d_jobType := determine_job_type U title full_text;
         d_experienceLevel := determine_experience_level U title full_text;
         d_skills := extract_skills U skills_text;
         d_qualifications := [];
         d_certifications := certs;
         d_posted_date := today reading;
         d_featured := featured;
         d_salary := salary |} in
    salary <- match salary_source with
              | Some t => or_raise (extract_salary U t)
              | None => ret None
              end ;;
    modify (fun st => mkState (jobs st ++ [job salary]) (seen_ids st))
  end.

Definition str_of (title : option text) : text := default (u "None") title.

Definition naukri_card (url : text) (card : tag) : M state unit :=
  let title_elem := find card "a" "title" in
  let title := (fun e => clean_text U (get_text e)) <$> title_elem in
  let company := text_or (find card "a" "subTitle") (u "Unknown Company") in
  let loc := text_or (find card "li" "location") location in
  let experience := text_or (find card "li" "experience") [] in
  let salary_text := text_or (find card "li" "salary") [] in
  let description := text_or (find card "div" "job-description")
                             (str_of title ++ u " at " ++ company) in
  let job_link := default url (href_of title_elem) in
  let job_link := if starts_with (u "http") job_link then job_link
                  else u "https://www.naukri.com" ++ job_link in
  let full_text := str_of title ++ u " " ++ description ++ u " "
                   ++ experience ++ u " " ++ salary_text in
  record_job title company loc description job_link (u "Naukri") full_text
             description (extract_certifications description)
             (Some (salary_text ++ u " " ++ description)) false.

Definition replace_char (a b : N) (s : text) : text :=
  map (fun c => if c =? a then b else c) s.

Definition scrape_naukri (max_pages : Z) (seen : gset (list N))
  : list job_dict * gset (list N) :=
  let page_body (keyword : text) (page : nat) : M state flow :=
    catch
      (let params := [("k", PText keyword); ("l", PText location);
                      ("page", PInt (Z.of_nat page))]%string in
       let url := u "https://www.naukri.com/" ++ replace_char 0x20 0x2D keyword
                  ++ u "-jobs-in-" ++ lower U location ++ u "?"
                  ++ urlencode params in
       soup <- or_raise (session_get url) ;;
       let job_cards := soup "article"%string "jobTuple"%string in
       if negb (nonempty_list job_cards) then ret Break else
       for_each job_cards (fun card => try_ (naukri_card url card)) ;;;
       ret Next)
      (ret Next) in
  let st := snd (for_each keywords
                   (fun keyword =>
                      for_each_flow (seq 1 (Z.to_nat max_pages))
                                    (page_body keyword))
                   (mkState [] seen)) in
  (jobs st, seen_ids st).

Definition indeed_card (url : text) (card : tag) : M state unit :=
  let title_elem := find card "h2" "jobTitle" in
  let title := (fun e => clean_text U (get_text e)) <$> title_elem in
  let company := text_or (find card "span" "data-testid=company-name")
                         (u "Unknown Company") in
  let loc := text_or (find card "div" "data-testid=text-location") location in
  let link_elem := match title_elem with
                   | Some e => find e "a" ""
                   | None => None
                   end in
  let job_link := match href_of link_elem with
                  | Some h => u "https://in.indeed.com" ++ h
                  | None => url
                  end in
  let description := text_or (find card "div" "job-snippet") [] in
  let salary_text := text_or (find card "div" "salary-snippet") [] in
  let full_text := str_of title ++ u " " ++ description ++ u " "
                   ++ salary_text in
  record_job title company loc
             (if nonempty description then description
              else str_of title ++ u " at " ++ company)
             job_link (u "Indeed") full_text description
             (extract_certifications description)
             (Some (salary_text ++ u " " ++ description)) false.

Definition scrape_indeed_india (max_pages : Z) (seen : gset (list N))
  : list job_dict * gset (list N) :=
  let page_body (keyword : text) (page : nat) : M state unit :=
    try_
      (let params := [("q", PText keyword); ("l", PText location);
                      ("start", PInt (Z.of_nat page * 10))]%string in
       let url := u "https://in.indeed.com/jobs?" ++ urlencode params in
       soup <- or_raise (session_get url) ;;
       let job_cards := soup "div"%string "job_seen_beacon"%string in
       for_each job_cards (fun card => try_ (indeed_card url card))) in
  let st := snd (for_each keywords
                   (fun keyword =>
                      for_each (seq 0 (Z.to_nat max_pages)) (page_body keyword))
                   (mkState [] seen)) in
  (jobs st, seen_ids st).

Definition linkedin_card (url : text) (card : tag) : M state unit :=
  let title := (fun e => clean_text U (get_text e))
                 <$> find card "h3" "base-search-card__title" in
  let company := text_or (find card "h4" "base-search-card__subtitle")
                         (u "Unknown Company") in
  let loc := text_or (find card "span" "job-search-card__location") location in
  let job_link := default url (href_of (find card "a" "base-card__full-link")) in
  record_job title company loc
             (str_of title ++ u " position at " ++ company)
             job_link (u "LinkedIn") [] (str_of title) [] None true.

Definition scrape_linkedin_india (max_pages : Z) (seen : gset (list N))
  : list job_dict * gset (list N) :=
  let keyword_body (keyword : text) : M state unit :=
    try_
      (let params := [("keywords", PText keyword); ("location", PText location);
                      ("f_WT", PText (u "2"))]%string in
       let url := u "https://www.linkedin.com/jobs/search?"
                  ++ urlencode params in
       soup <- or_raise (session_get url) ;;
       let job_cards := soup "div"%string "base-card"%string in
       for_each (take 20 job_cards)
                (fun card => try_ (linkedin_card url card))) in
  let st := snd (for_each (take 2 keywords) keyword_body (mkState [] seen)) in
  (jobs st, seen_ids st).

(** [scrape_all]: the three sources one after the other, their lists
    concatenated.  The result is the returned list (also stored in
    [self.jobs]) and the final [self.seen_ids]. *)
Definition scrape_all (seen : gset (list N)) : list job_dict * gset (list N) :=
  let '(naukri_jobs, seen) := scrape_naukri 5 seen in
  let '(indeed_jobs, seen) := scrape_indeed_india 3 seen in
  let '(linkedin_jobs, seen) := scrape_linkedin_india 2 seen in
  let all_jobs := naukri_jobs ++ indeed_jobs ++ linkedin_jobs in
  (all_jobs, seen).

End Scrapers.
End JobScraper.

(** The element kept by [dedupe] for an id: the first of the input that
    bears it. *)
Definition first_with_id (i : text) (jobs : list Job) : option Job :=
  List.find (fun j => bool_decide (j_id j = i)) jobs.

(** ** Definitions used to state and prove the properties *)

(** The loop of [dedupe] without its accumulator: what it appends. *)
Fixpoint kept (seen : gset text) (jobs : list Job) : list Job :=
  match jobs with
  | [] => []
  | j :: rest =>
    if decide (j_id j ∈ seen) then kept seen rest
    else j :: kept ({[ j_id j ]} ∪ seen) rest
  end.


(** An order given by a three-way comparison is well behaved when swapping
    the arguments flips the result, [Eq] is equality, and [Lt] is
    transitive. *)
Record ordered {K} (cmp : K -> K -> comparison) : Prop := {
  cmp_flip : ∀ a b, cmp b a = CompOpp (cmp a b);
  cmp_eq : ∀ a b, cmp a b = Eq → a = b;
  cmp_lt_trans : ∀ a b c, cmp a b = Lt → cmp b c = Lt → cmp a c = Lt
}.

(** [x] does not come after [y] in the order of the sort key. *)
Definition key_le {A K} (cmp : K -> K -> comparison) (key : A -> K)
  : relation A :=
  fun x y => key_leb cmp key x y = true.

(** The order of [sort_jobs] on postings. *)
Definition job_le : relation Job := key_le key_compare sort_key.

(** What [run_scrape] computes from the outputs of its sources, a raising
    source counting as an empty output. *)
Definition merged (outputs : list (option (list Job))) : list Job :=
  concat (default [] <$> outputs).

(** A greedy star over a character class, by recursion on the text: take
    the character when it is in the class, fall back to the continuation. *)
Fixpoint star_class {R : Type} (p : N -> bool)
    (k : option N -> text -> captures -> option R)
    (prev : option N) (s : text) (caps : captures) : option R :=
  match s with
  | c :: s' =>
    if p c then
      match star_class p k (Some c) s' caps with
      | Some x => Some x
      | None => k prev s caps
      end
    else k prev s caps
  | [] => k prev s caps
  end.

(** [s] without its longest prefix of characters of the class [p]. *)
Fixpoint drop_class (p : N -> bool) (s : text) : text :=
  match s with
  | c :: s' => if p c then drop_class p s' else s
  | [] => []
  end.

(** The character before the rest of [run ++ rest], given the one before
    [run]. *)
Definition prev_after (prev : option N) (run : text) : option N :=
  match last run with Some c => Some c | None => prev end.

(** [s] with every maximal run of characters of the class [p] replaced by
    [repl]; [skip] tells that the run at the head was replaced already. *)
Fixpoint squeeze (p : N -> bool) (repl : text) (skip : bool) (s : text) : text :=
  match s with
  | [] => []
  | c :: s' =>
    if p c then (if skip then squeeze p repl true s'
                 else repl ++ squeeze p repl true s')
    else c :: squeeze p repl false s'
  end.

(** The maximal runs of characters of [s] that are no whitespace, from left
    to right (what [s.split()] returns). *)
Definition cons_first (c : N) (ws : list text) : list text :=
  match ws with
  | w :: ws' => (c :: w) :: ws'
  | [] => [[c]]
  end.

Fixpoint words (s : text) : list text :=
  match s with
  | [] => []
  | c :: s' =>
    if is_space c then words s'
    else match s' with
         | d :: _ => if is_space d then [c] :: words s'
                     else cons_first c (words s')
         | [] => [[c]]
         end
  end.

Definition nonspace (c : N) : bool := negb (is_space c).

(** [c] occurs in [txt] as a word of its own: no word character stands
    right before it or right after it. *)
Definition isolated (U : unicode_tables) (c txt : text) : Prop :=
  ∃ pre post, txt = pre ++ c ++ post
              ∧ word_at (is_word U) (last pre) = false
              ∧ word_at (is_word U) (head post) = false.

(** The indices of the capturing groups of a pattern. *)
Fixpoint groups (r : regex) : list nat :=
  match r with
  | Seq r1 r2 | Alt r1 r2 => groups r1 ++ groups r2
  | Star r1 => groups r1
  | Group i r1 => i :: groups r1
  | Eps | Chr _ | Boundary _ => []
  end.

(** A successful match ends in a call of the continuation on a suffix of the
    text, with the captures extended by groups of the pattern. *)
Definition continues {R : Type} (r : regex) : Prop :=
  ∀ prev s caps (k : option N → text → captures → option R) x,
    rmatch r prev s caps k = Some x →
    ∃ prev' s' ext,
      s' `suffix_of` s ∧ Forall (λ e, e.1 ∈ groups r) ext
      ∧ k prev' s' (ext ++ caps) = Some x.

(** The pattern [r] matches at no position of the text [t]. *)
Definition fails_on (t : text) (r : regex) : Prop :=
  ∀ (R : Type) prev s caps (k : option N → text → captures → option R),
    s `suffix_of` t → rmatch r prev s caps k = None.

(** A numeral: a non-empty string of the digits 0 to 9, and the number it
    denotes. *)
Definition ascii_digit (c : N) : bool := in_range "0" "9" c.
Definition numeral (s : text) : Prop :=
  s ≠ [] ∧ Forall (λ c, ascii_digit c = true) s.
Definition num_value (s : text) : Z :=
  fold_left (λ acc c, 10 * acc + (Z.of_N c - 48))%Z s 0%Z.

(** [p] occurs in [s]. *)
Definition substring (p s : text) : Prop := ∃ a b, s = a ++ p ++ b.

(** One of the keywords occurs, without regard to case, in the combined
    title, company and description of a posting. *)
Definition mentions_keyword (U : unicode_tables) (keywords : list text)
    (title company description : text) : Prop :=
  ∃ k, k ∈ keywords
       ∧ substring (lower U k)
                   (lower U (title ++ u " " ++ company ++ u " " ++ description)).

(** [preserved I m]: the computation [m] keeps the state inside [I], whether
    it returns or raises. *)
Definition preserved {S A} (I : S → Prop) (m : M S A) : Prop :=
  ∀ s, I s → I (m s).2.

(** The postings collected since the set of seen ids was [seen0] bear
    pairwise different ids, all new with respect to [seen0] and all recorded
    in the current set. *)
Definition fresh_ids (seen0 : gset (list N)) (st : JobScraper.state) : Prop :=
  NoDup (JobScraper.d_id <$> JobScraper.jobs st)
  ∧ (∀ j, j ∈ JobScraper.jobs st →
          JobScraper.d_id j ∈ JobScraper.seen_ids st ∧ JobScraper.d_id j ∉ seen0)
  ∧ seen0 ⊆ JobScraper.seen_ids st.

(** The sort key of [sort_jobs] read off a dictionary of [job_scraper.py]. *)
Definition dict_key (j : JobScraper.job_dict) : text * text * text :=
  (JobScraper.d_source j, JobScraper.d_company j, JobScraper.d_title j).

(** What the loops of [scrape_actuarial_jobs.py] establish for a record
    before they append it. *)
Definition emitted (U : unicode_tables) (keywords locations : list text)
    (remote_only : bool) (j : Job) : Prop :=
  nonempty (j_title j) = true
  ∧ nonempty (j_company j) = true
  ∧ j_id j = Actuarial.gen_id (j_title j) (j_company j) (j_location j) (j_url j)
  ∧ j_apply_url j = Some (j_url j)
  ∧ j_skills j = Actuarial.extract_skills U (j_description j)
  ∧ j_certifications j = Actuarial.extract_certs U (j_description j)
  ∧ j_source j ∈ [u "SOA"; u "CAS"; u "Indeed"]
  ∧ Actuarial.matches_filters U j keywords locations remote_only = true.

(** A computation over the state of [job_scraper.py] only adds to the set of
    seen ids. *)
Definition records_ids {A} (m : M JobScraper.state A) : Prop :=
  ∀ s, JobScraper.seen_ids s ⊆ JobScraper.seen_ids (m s).2.

(** Started in a state whose seen ids include those left by an earlier run,
    [m] leaves the state as it is. *)
Definition settles {A} (m : M JobScraper.state A) : Prop :=
  ∀ s s2, JobScraper.seen_ids (m s).2 ⊆ JobScraper.seen_ids s2 → (m s2).2 = s2.

(** Whether [m] returns or raises, and what it returns, does not depend on
    the state. *)
Definition same_result {S A} (m : M S A) : Prop :=
  ∀ s s2, (m s).1 = (m s2).1.

Definition rerun {A} (m : M JobScraper.state A) : Prop :=
  records_ids m ∧ settles m ∧ same_result m.

(** [m] appends at most [n] postings to the list. *)
Definition grows {A} (n : nat) (m : M JobScraper.state A) : Prop :=
  ∀ s, (length (JobScraper.jobs (m s).2) ≤ length (JobScraper.jobs s) + n)%nat.

(** What the card loops of [job_scraper.py] establish for a dictionary
    before they append it. *)
Definition recorded (U : unicode_tables) (md5_hexdigest : text → text)
    (j : JobScraper.job_dict) : Prop :=
  JobScraper.d_title j ≠ []
  ∧ JobScraper.d_id j
    = JobScraper.generate_job_id U md5_hexdigest (JobScraper.d_title j)
        (JobScraper.d_company j) (JobScraper.d_location j)
  ∧ JobScraper.d_qualifications j = []
  ∧ (∀ sal, JobScraper.d_salary j = Some sal
            → JobScraper.s_currency sal = u "INR")
  ∧ ((JobScraper.d_source j = u "LinkedIn"
      ∧ JobScraper.d_featured j = true
      ∧ JobScraper.d_salary j = None
      ∧ JobScraper.d_certifications j = []
      ∧ JobScraper.d_description j
        = JobScraper.d_title j ++ u " position at " ++ JobScraper.d_company j
      ∧ JobScraper.d_skills j
        = JobScraper.extract_skills U (JobScraper.d_title j))
     ∨ (JobScraper.d_source j = u "Naukri"
        ∧ JobScraper.d_featured j = false
        ∧ JobScraper.d_skills j
          = JobScraper.extract_skills U (JobScraper.d_description j)
        ∧ JobScraper.d_certifications j
          = JobScraper.extract_certifications (JobScraper.d_description j))
     ∨ (JobScraper.d_source j = u "Indeed"
        ∧ JobScraper.d_featured j = false)).

(** The name under which [extract_skills] of [job_scraper.py] lists a
    keyword. *)
Definition shown (skill : text) : text :=
  if existsb (fun x => bool_decide (skill = u x))
             ["sql"; "vba"; "sas"; "aws"; "gcp"; "ai"]%string
  then map ascii_upper skill
  else if bool_decide (skill = u "r") then u "R"
  else ascii_title skill.

(** ** A concrete site

    One page per site, used to run the scrapers on explicit input. *)
Module Site.

Definition plain (t : string) (href : option string) : node :=
  {| node_text := u t; node_href := u <$> href |}.

(** A listing of the SOA board. *)
Definition soa_listing : element :=
  {| el_text := u "Pricing Actuary  Acme Re  Remote  $90,000 - $120,000  FSA";
     el_select_one := fun selector =>
       if String.eqb selector ".job-title, .media-heading, a"
       then Some (plain "Pricing  Actuary" (Some "/jobs/17"%string))
       else if String.eqb selector ".company-name, .text-muted, .company"
       then Some (plain "Acme Re" None)
       else if String.eqb selector ".job-location, .location"
       then Some (plain "Remote" None)
       else if String.eqb selector "a[href]"
       then Some (plain "Pricing  Actuary" (Some "/jobs/17"%string))
       else None |}.

Definition fetch (r : request) : option soup :=
  if bool_decide (req_url r = Actuarial.soa_base)
  then Some {| select := fun _ => [soa_listing] |}
  else None.

Definition urljoin (base href : text) : option text := Some (base ++ href).

(** Cards of the three sites of [job_scraper.py]: the title and the company
    are found under the names each site uses. *)
Definition leaf (t : string) (href : option string) : tag :=
  Tag (u t) (u <$> href) (fun _ _ => None).

Definition card (title_at company_at : string * string)
    (title company : string) : tag :=
  Tag (u title) None
      (fun name cls =>
         if String.eqb name (fst title_at) && String.eqb cls (snd title_at)
         then Some (leaf title (Some "https://example.org/job"%string))
         else if String.eqb name (fst company_at)
                 && String.eqb cls (snd company_at)
         then Some (leaf company None)
         else None).

Definition naukri_card : tag :=
  card ("a", "title")%string ("a", "subTitle")%string
       "Pastry Chef" "Zeta Foods".
Definition indeed_card : tag :=
  card ("h2", "jobTitle")%string ("span", "data-testid=company-name")%string
       "Senior Manager" "Alpha Life".
Definition linkedin_card : tag :=
  card ("h3", "base-search-card__title")%string
       ("h4", "base-search-card__subtitle")%string "Bus Driver" "City Lines".

Definition session_get (url : text) : option page :=
  if starts_with (u "https://www.naukri.com/") url
  then Some (fun _ _ => [naukri_card])
  else if starts_with (u "https://in.indeed.com/") url
  then Some (fun _ _ => [indeed_card])
  else Some (fun _ _ => [linkedin_card]).

(** Stand-ins for the query encoder and for the digest: the runs below only
    need that different seeds get different digests. *)
Definition urlencode (params : list (string * param)) : text := u "q".
Definition digest (s : text) : text := s.

Definition run_naukri :=
  JobScraper.scrape_naukri ascii_only digest urlencode session_get
    (fun _ => u "2024-01-01") (u "India") [u "actuarial"] 1 ∅.
Definition run_linkedin :=
  JobScraper.scrape_linkedin_india ascii_only digest urlencode session_get
    (fun _ => u "2024-01-01") (u "India") [u "actuarial"] 1 ∅.
Definition run_all :=
  JobScraper.scrape_all ascii_only digest urlencode session_get
    (fun _ => u "2024-01-01") (u "India") [u "actuarial"] ∅.

End Site.

(** * Properties *)

Local Close Scope N_scope.

(** ** Orders and sorting *)

Lemma text_compare_flip a b : text_compare b a = CompOpp (text_compare a b).
Proof.
  revert b. induction a as [|x a IH]; intros [|y b]; simpl; try done.
  rewrite (N.compare_antisym x y). destruct (x ?= y)%N; simpl; auto.
Qed.

Lemma text_compare_eq a b : text_compare a b = Eq → a = b.
Proof.
  revert b. induction a as [|x a IH]; intros [|y b]; simpl; try done.
  destruct (x ?= y)%N eqn:Hxy; try done.
  apply N.compare_eq in Hxy. intros ->%IH. by subst.
Qed.

Lemma text_compare_refl a : text_compare a a = Eq.
Proof. induction a as [|x a IH]; simpl; [done|]. by rewrite N.compare_refl. Qed.

Lemma text_compare_lt_trans a b c :
  text_compare a b = Lt → text_compare b c = Lt → text_compare a c = Lt.
Proof.
  revert b c. induction a as [|x a IH]; intros [|y b] [|z c]; simpl; try done.
  destruct (x ?= y)%N eqn:Hxy, (y ?= z)%N eqn:Hyz; try done.
  - apply N.compare_eq in Hxy, Hyz. subst. rewrite N.compare_refl. apply IH.
  - apply N.compare_eq in Hxy. subst. by rewrite Hyz.
  - apply N.compare_eq in Hyz. subst. by rewrite Hxy.
  - rewrite N.compare_lt_iff in Hxy, Hyz.
    assert (x < z)%N as ->%N.compare_lt_iff by lia. done.
Qed.

Lemma text_compare_ordered : ordered text_compare.
Proof.
  split; [intros; apply text_compare_flip|apply text_compare_eq
         |apply text_compare_lt_trans].
Qed.

Lemma ordered_refl {K} (cmp : K → K → comparison) a :
  ordered cmp → cmp a a = Eq.
Proof.
  intros H. pose proof (cmp_flip _ H a a) as Hf. by destruct (cmp a a).
Qed.

(** The comparison of pairs, the first component deciding first. *)
Lemma lex_ordered {K1 K2} (c1 : K1 → K1 → comparison)
    (c2 : K2 → K2 → comparison) :
  ordered c1 → ordered c2 →
  ordered (λ a b : K1 * K2,
             match c1 a.1 b.1 with Eq => c2 a.2 b.2 | c => c end).
Proof.
  intros H1 H2. split.
  - intros [a1 a2] [b1 b2]. simpl.
    rewrite (cmp_flip _ H1 a1 b1), (cmp_flip _ H2 a2 b2).
    by destruct (c1 a1 b1).
  - intros [a1 a2] [b1 b2]. simpl.
    destruct (c1 a1 b1) eqn:E1; [|done..].
    intros E2. apply (cmp_eq _ H1) in E1. apply (cmp_eq _ H2) in E2.
    by subst.
  - intros [a1 a2] [b1 b2] [c1' c2']. simpl.
    destruct (c1 a1 b1) eqn:E1; [| |done].
    + apply (cmp_eq _ H1) in E1. subst b1.
      destruct (c1 a1 c1'); [|done..]. apply (cmp_lt_trans _ H2).
    + intros _. destruct (c1 b1 c1') eqn:G1; [| |done].
      * apply (cmp_eq _ H1) in G1. subst c1'. by rewrite E1.
      * by rewrite (cmp_lt_trans _ H1 _ _ _ E1 G1).
Qed.

Lemma key_compare_ordered : ordered key_compare.
Proof.
  pose proof (lex_ordered _ _ (lex_ordered _ _ text_compare_ordered
                                 text_compare_ordered)
                text_compare_ordered) as [Hf He Ht].
  split.
  - intros [[a1 a2] a3] [[b1 b2] b3].
    specialize (Hf (a1, a2, a3) (b1, b2, b3)). simpl in *.
    by destruct (text_compare a1 b1), (text_compare b1 a1).
  - intros [[a1 a2] a3] [[b1 b2] b3] H. apply He. simpl in *.
    by destruct (text_compare a1 b1).
  - intros [[a1 a2] a3] [[b1 b2] b3] [[c1 c2] c3] H G.
    specialize (Ht (a1, a2, a3) (b1, b2, b3) (c1, c2, c3)). simpl in *.
    destruct (text_compare a1 b1), (text_compare b1 c1),
      (text_compare a1 c1); auto.
Qed.

Section sorted_facts.
Context {A K : Type} (cmp : K → K → comparison) (key : A → K).
Context (Hcmp : ordered cmp).
Local Notation le := (key_le cmp key).
Local Notation ins := (insert_sorted cmp key).

Lemma key_le_total x y : le x y ∨ le y x.
Proof.
  unfold key_le, key_leb. rewrite (cmp_flip _ Hcmp (key x) (key y)).
  destruct (cmp (key x) (key y)); simpl; auto.
Qed.

Lemma key_le_trans x y z : le x y → le y z → le x z.
Proof.
  unfold key_le, key_leb.
  destruct (cmp (key x) (key y)) eqn:Hxy; [| |done];
    (destruct (cmp (key y) (key z)) eqn:Hyz; [| |done]); intros _ _.
  - apply (cmp_eq _ Hcmp) in Hxy. by rewrite Hxy, Hyz.
  - apply (cmp_eq _ Hcmp) in Hxy. by rewrite Hxy, Hyz.
  - apply (cmp_eq _ Hcmp) in Hyz. by rewrite <- Hyz, Hxy.
  - by rewrite (cmp_lt_trans _ Hcmp _ _ _ Hxy Hyz).
Qed.

Lemma insert_sorted_perm x l : ins x l ≡ₚ x :: l.
Proof.
  induction l as [|y l IH]; simpl; [done|].
  destruct (key_leb cmp key y x); [|done].
  rewrite IH. apply Permutation_swap.
Qed.

Lemma insert_sorted_sorted x l :
  StronglySorted le l → StronglySorted le (ins x l).
Proof.
  induction 1 as [|y l Hl IH Hy]; simpl.
  - repeat constructor.
  - destruct (key_leb cmp key y x) eqn:Hyx.
    + constructor; [done|].
      rewrite insert_sorted_perm. by constructor.
    + assert (le x y) as Hxy by (by destruct (key_le_total x y) as [?|H];
                                   [|unfold key_le in H; congruence]).
      constructor; [by constructor|].
      constructor; [done|].
      eapply Forall_impl; [exact Hy|]. intros z. by apply key_le_trans.
Qed.

Lemma fold_insert_sorted l acc :
  StronglySorted le acc →
  StronglySorted le (fold_left (λ acc x, ins x acc) l acc)
  ∧ fold_left (λ acc x, ins x acc) l acc ≡ₚ acc ++ l.
Proof.
  revert acc. induction l as [|x l IH]; intros acc Hacc; simpl.
  - by rewrite app_nil_r.
  - destruct (IH (ins x acc)) as [Hs Hp]; [by apply insert_sorted_sorted|].
    split; [done|]. rewrite Hp, insert_sorted_perm.
    by rewrite <- Permutation_middle.
Qed.

Lemma sorted_sorted l : StronglySorted le (sorted cmp key l).
Proof. apply fold_insert_sorted. constructor. Qed.

Lemma sorted_perm l : sorted cmp key l ≡ₚ l.
Proof. apply (fold_insert_sorted l []). constructor. Qed.

End sorted_facts.

(** ** Stability of the sort *)

Section sorted_stable.
Context {A K : Type} (cmp : K → K → comparison) (key : A → K).
Context (Hcmp : ordered cmp).
Local Notation le := (key_le cmp key).
Local Notation ins := (insert_sorted cmp key).

Lemma insert_sorted_last x l :
  Forall (λ y, le y x) l → ins x l = l ++ [x].
Proof.
  induction 1 as [|y l Hy _ IH]; simpl; [done|].
  unfold key_le in Hy. by rewrite Hy, IH.
Qed.

Lemma fold_insert_sorted_id l acc :
  StronglySorted le (acc ++ l) →
  fold_left (λ acc x, ins x acc) l acc = acc ++ l.
Proof.
  revert acc. induction l as [|x l IH]; intros acc Hs; simpl.
  - by rewrite app_nil_r.
  - rewrite insert_sorted_last.
    + rewrite IH; rewrite <- app_assoc; done.
    + clear IH. induction acc as [|a acc IHa]; [constructor|].
      simpl in Hs. apply StronglySorted_inv in Hs as [Hs Ha].
      constructor; [|by apply IHa].
      apply (proj1 (Forall_forall _ _) Ha). set_solver.
Qed.

Lemma sorted_idem l : sorted cmp key (sorted cmp key l) = sorted cmp key l.
Proof.
  unfold sorted at 1. rewrite fold_insert_sorted_id; [done|].
  simpl. by apply sorted_sorted.
Qed.

Lemma insert_sorted_filter (P : A → bool) x l :
  (∀ y, P y = true → P x = true → key y = key x) →
  StronglySorted le l →
  List.filter P (ins x l) = List.filter P l ++ List.filter P [x].
Proof.
  intros HP. induction 1 as [|y l Hl IH Hy]; simpl; [done|].
  destruct (key_leb cmp key y x) eqn:Hyx; simpl.
  - rewrite IH. simpl. by destruct (P y).
  - destruct (decide (P x = true)) as [Hx|Hx];
      [|apply not_true_is_false in Hx; rewrite Hx; by rewrite app_nil_r].
    assert (Hnone : ∀ z, le y z → P z = false).
    { intros z Hz. destruct (P z) eqn:HPz; [|done].
      unfold key_le, key_leb in Hz, Hyx. rewrite <- (HP z HPz Hx) in Hyx.
      by rewrite Hyx in Hz. }
    rewrite Hx.
    rewrite (Hnone y) by (unfold key_le, key_leb;
                          by rewrite (ordered_refl cmp (key y) Hcmp)).
    assert (List.filter P l = []) as ->; [|done].
    clear IH Hl. induction Hy as [|z l Hz _ IH]; simpl; [done|].
    by rewrite (Hnone z Hz), IH.
Qed.

Lemma fold_insert_filter (P : A → bool) l acc :
  (∀ x y, P y = true → P x = true → key y = key x) →
  StronglySorted le acc →
  List.filter P (fold_left (λ acc x, ins x acc) l acc)
  = List.filter P acc ++ List.filter P l.
Proof.
  intros HP. revert acc. induction l as [|x l IH]; intros acc Hs; simpl.
  - by rewrite app_nil_r.
  - rewrite IH by (by apply insert_sorted_sorted).
    rewrite insert_sorted_filter by (by auto). simpl.
    destruct (P x); by rewrite <- ?app_assoc, ?app_nil_r.
Qed.

Lemma sorted_stable (P : A → bool) l :
  (∀ x y, P y = true → P x = true → key y = key x) →
  List.filter P (sorted cmp key l) = List.filter P l.
Proof. intros HP. apply (fold_insert_filter P l [] HP). constructor. Qed.

Lemma sorted_strict l :
  NoDup (key <$> l) →
  StronglySorted (λ x y, cmp (key x) (key y) = Lt) (sorted cmp key l).
Proof.
  intros Hnd. rewrite <- (sorted_perm cmp key Hcmp l) in Hnd.
  pose proof (sorted_sorted cmp key Hcmp l) as Hs.
  induction Hs as [|x l' Hs IH Hx]; [constructor|].
  rewrite fmap_cons in Hnd. apply NoDup_cons in Hnd as [Hx' Hnd].
  constructor; [by apply IH|].
  apply Forall_forall. intros y Hy.
  pose proof (proj1 (Forall_forall _ _) Hx y Hy) as Hle.
  unfold key_le, key_leb in Hle.
  destruct (cmp (key x) (key y)) eqn:Hc; [|done|done].
  apply (cmp_eq _ Hcmp) in Hc. destruct Hx'. rewrite Hc.
  by apply list_elem_of_fmap_2.
Qed.

End sorted_stable.

(** ** Deduplication *)

Section dedupe_facts.
Import Actuarial.
Implicit Types (seen : gset (list N)) (jobs unique : list Job) (j : Job).

Lemma dedupe_loop_kept seen unique jobs :
  dedupe_loop seen unique jobs = unique ++ kept seen jobs.
Proof.
  revert seen unique. induction jobs as [|j rest IH]; intros seen unique; simpl.
  - by rewrite app_nil_r.
  - case_decide; [apply IH|]. rewrite IH. by rewrite <- app_assoc.
Qed.

Lemma dedupe_kept jobs : dedupe jobs = kept ∅ jobs.
Proof. unfold dedupe. by rewrite dedupe_loop_kept. Qed.

Lemma kept_fresh seen jobs j : j ∈ kept seen jobs → j_id j ∉ seen.
Proof.
  revert seen. induction jobs as [|j' rest IH]; intros seen; simpl.
  - by intros ?%elem_of_nil.
  - case_decide as Hin; [apply IH|].
    intros [->|Hj]%elem_of_cons; [done|].
    apply IH in Hj. set_solver.
Qed.

Lemma kept_NoDup seen jobs : NoDup (j_id <$> kept seen jobs).
Proof.
  revert seen. induction jobs as [|j rest IH]; intros seen; simpl.
  - constructor.
  - case_decide; [apply IH|].
    rewrite fmap_cons. constructor; [|apply IH].
    intros (j' & Heq & Hj')%list_elem_of_fmap.
    apply kept_fresh in Hj'. set_solver.
Qed.

Lemma kept_sublist seen jobs : sublist (kept seen jobs) jobs.
Proof.
  revert seen. induction jobs as [|j rest IH]; intros seen; simpl.
  - constructor.
  - case_decide; [apply sublist_cons|apply sublist_skip]; apply IH.
Qed.

(** With nothing seen yet that bears the id [i], the element kept for [i]
    is the first one of the input bearing it. *)
Lemma kept_first seen jobs i j :
  i ∉ seen →
  (j ∈ kept seen jobs ∧ j_id j = i) ↔ first_with_id i jobs = Some j.
Proof.
  revert seen. induction jobs as [|j' rest IH]; intros seen Hi; simpl.
  - split; [by intros [?%elem_of_nil _]|done].
  - unfold first_with_id in *. simpl.
    case_bool_decide as Hid.
    + subst i. rewrite decide_False by done. split.
      * intros [[->|Hj]%elem_of_cons Heq]; [done|].
        apply kept_fresh in Hj. set_solver.
      * intros [= ->]. split; [apply elem_of_cons; by left|done].
    + case_decide as Hin.
      * by apply IH.
      * rewrite <- (IH ({[ j_id j' ]} ∪ seen)) by set_solver.
        split.
        -- intros [[->|Hj]%elem_of_cons Heq]; [done|done].
        -- intros [Hj Heq]. split; [apply elem_of_cons; by right|done].
Qed.

Lemma kept_represents seen jobs i :
  i ∉ seen → i ∈ (j_id <$> jobs) → ∃ j, j ∈ kept seen jobs ∧ j_id j = i.
Proof.
  intros Hseen Hi.
  destruct (first_with_id i jobs) as [j|] eqn:Hfirst.
  - exists j. by apply (kept_first seen).
  - apply list_elem_of_fmap in Hi as (j & -> & Hj).
    unfold first_with_id in Hfirst.
    apply list_elem_of_In in Hj.
    eapply List.find_none in Hfirst; [|exact Hj].
    by rewrite bool_decide_eq_false in Hfirst.
Qed.

Lemma kept_id seen jobs :
  NoDup (j_id <$> jobs) → (∀ j, j ∈ jobs → j_id j ∉ seen) →
  kept seen jobs = jobs.
Proof.
  revert seen. induction jobs as [|j rest IH]; intros seen Hnd Hfresh; simpl.
  - done.
  - rewrite fmap_cons in Hnd. apply NoDup_cons in Hnd as [Hj Hnd].
    rewrite decide_False by (apply Hfresh; apply elem_of_cons; by left).
    f_equal. apply IH; [done|].
    intros j' Hj'. 
    assert (j_id j' ≠ j_id j).
    { intros Heq. apply Hj. rewrite <- Heq. by apply list_elem_of_fmap_2. }
    assert (j_id j' ∉ seen) by (apply Hfresh; apply elem_of_cons; by right).
    set_solver.
Qed.

Lemma boards_dedupe jobs : Boards.dedupe jobs = dedupe jobs.
Proof.
  unfold Boards.dedupe, dedupe. generalize (∅ : gset (list N)) ([] : list Job).
  induction jobs as [|j rest IH]; intros seen unique; simpl; [done|].
  case_decide; apply IH.
Qed.

End dedupe_facts.

Section dedupe_order.
Implicit Types (seen : gset (list N)) (jobs : list Job) (j : Job).

Lemma find_skip j jobs (i : text) p x :
  j_id j ≠ i →
  list_find (λ y, j_id y = i) jobs = Some (p, x) →
  list_find (λ y, j_id y = i) (j :: jobs) = Some (S p, x).
Proof.
  intros Hne Hf. cbn. rewrite decide_False by done. by rewrite Hf.
Qed.

(** An element of the output is the first element of the input that bears
    its id. *)
Lemma kept_find seen jobs b jb :
  kept seen jobs !! b = Some jb →
  ∃ q, list_find (λ y, j_id y = j_id jb) jobs = Some (q, jb).
Proof.
  revert seen b. induction jobs as [|j rest IH]; intros seen b; simpl.
  - by rewrite lookup_nil.
  - case_decide as Hin.
    + intros Hb. destruct (IH _ _ Hb) as (q & Hq). exists (S q).
      apply find_skip; [|done].
      apply list_elem_of_lookup_2, kept_fresh in Hb. congruence.
    + destruct b as [|b]; simpl.
      * intros [= ->]. exists 0. cbn. by rewrite decide_True.
      * intros Hb. destruct (IH _ _ Hb) as (q & Hq). exists (S q).
        apply find_skip; [|done].
        apply list_elem_of_lookup_2, kept_fresh in Hb. set_solver.
Qed.

(** The output lists its elements in the order of their first occurrences
    in the input. *)
Lemma kept_order seen jobs a b ja jb :
  kept seen jobs !! a = Some ja → kept seen jobs !! b = Some jb → a < b →
  ∃ p q, list_find (λ y, j_id y = j_id ja) jobs = Some (p, ja)
         ∧ list_find (λ y, j_id y = j_id jb) jobs = Some (q, jb)
         ∧ p < q.
Proof.
  revert seen a b. induction jobs as [|j rest IH]; intros seen a b; simpl.
  - by rewrite lookup_nil.
  - case_decide as Hin.
    + intros Ha Hb Hab. destruct (IH _ _ _ Ha Hb Hab) as (p & q & Hp & Hq & Hpq).
      exists (S p), (S q).
      apply list_elem_of_lookup_2, kept_fresh in Ha, Hb.
      split; [apply find_skip; [congruence|done]|].
      split; [apply find_skip; [congruence|done]|lia].
    + destruct a as [|a], b as [|b]; simpl; try lia.
      * intros [= ->] Hb _. destruct (kept_find _ _ _ _ Hb) as (q & Hq).
        exists 0, (S q). split; [cbn; by rewrite decide_True|].
        split; [|lia]. apply find_skip; [|done].
        apply list_elem_of_lookup_2, kept_fresh in Hb. set_solver.
      * intros Ha Hb Hab.
        destruct (IH _ _ _ Ha Hb ltac:(lia)) as (p & q & Hp & Hq & Hpq).
        exists (S p), (S q).
        apply list_elem_of_lookup_2, kept_fresh in Ha, Hb.
        split; [apply find_skip; [set_solver|done]|].
        split; [apply find_skip; [set_solver|done]|lia].
Qed.

End dedupe_order.

(** C3.  For every list of postings, [dedupe] returns a list with no two
    elements sharing an id; for every id, the output element bearing it is
    exactly the first input element bearing it (the record itself, so every
    field value is unchanged), and every id of the input is represented; the
    output is a sublist of the input, and its elements stand in the order of
    their first occurrences: of two output elements, the earlier one is
    found in the input, as the first bearer of its id, at a smaller position
    than the later one.  [scrape_company_boards.py] has the same
    function. *)
Theorem dedupe_first_seen (jobs : list Job) :
  NoDup (j_id <$> Actuarial.dedupe jobs)
  ∧ (∀ i j, (j ∈ Actuarial.dedupe jobs ∧ j_id j = i)
            ↔ first_with_id i jobs = Some j)
  ∧ (∀ i, i ∈ (j_id <$> jobs) → ∃ j, j ∈ Actuarial.dedupe jobs ∧ j_id j = i)
  ∧ sublist (Actuarial.dedupe jobs) jobs
  ∧ (∀ a b ja jb,
       Actuarial.dedupe jobs !! a = Some ja →
       Actuarial.dedupe jobs !! b = Some jb →
       a < b →
       ∃ p q, list_find (λ y, j_id y = j_id ja) jobs = Some (p, ja)
              ∧ list_find (λ y, j_id y = j_id jb) jobs = Some (q, jb)
              ∧ p < q)
  ∧ Boards.dedupe jobs = Actuarial.dedupe jobs.
Proof.
  split; [|split; [|split; [|split; [|split; [|apply boards_dedupe]]]]];
    rewrite dedupe_kept.
  { apply kept_NoDup. }
  { intros i j. apply kept_first. set_solver. }
  { intros i Hi. apply kept_represents; [set_solver|done]. }
  { apply kept_sublist. }
  intros a b ja jb. apply kept_order.
Qed.

(** C10.  [dedupe] is idempotent, and a list without duplicate ids is
    returned unchanged. *)
Theorem dedupe_idempotent (jobs : list Job) :
  Actuarial.dedupe (Actuarial.dedupe jobs) = Actuarial.dedupe jobs
  ∧ Boards.dedupe (Boards.dedupe jobs) = Boards.dedupe jobs
  ∧ (NoDup (j_id <$> jobs) →
     Actuarial.dedupe jobs = jobs ∧ Boards.dedupe jobs = jobs).
Proof.
  assert (Hid : ∀ l, NoDup (j_id <$> l) → Actuarial.dedupe l = l).
  { intros l Hl. rewrite dedupe_kept. apply kept_id; [done|set_solver]. }
  assert (Hnd : NoDup (j_id <$> Actuarial.dedupe jobs)).
  { rewrite dedupe_kept. apply kept_NoDup. }
  split; [|split].
  - by apply Hid.
  - rewrite (boards_dedupe (Boards.dedupe jobs)), (boards_dedupe jobs).
    by apply Hid.
  - intros Hjobs. rewrite (boards_dedupe jobs). by rewrite Hid.
Qed.

(** ** Invariants of loops *)


Section preserved_rules.
Context {S : Type} (I : S → Prop).

Lemma preserved_ret {A} (a : A) : preserved I (ret a).
Proof. by intros s. Qed.

Lemma preserved_raise {A} : preserved I (@raise S A).
Proof. by intros s. Qed.

Lemma preserved_get : preserved I get.
Proof. by intros s. Qed.

Lemma preserved_or_raise {A} (o : option A) : preserved I (or_raise o).
Proof. by destruct o; intros s. Qed.

Lemma preserved_modify (f : S → S) :
  (∀ s, I s → I (f s)) → preserved I (modify f).
Proof. intros Hf s. apply Hf. Qed.

Lemma preserved_bind {A B} (m : M S A) (f : A → M S B) :
  preserved I m → (∀ a, preserved I (f a)) → preserved I (bind m f).
Proof.
  intros Hm Hf s Hs. unfold bind. specialize (Hm s Hs).
  destruct (m s) as [[a|] s']; simpl in *; [by apply Hf|done].
Qed.

Lemma preserved_try (m : M S unit) : preserved I m → preserved I (try_ m).
Proof. intros Hm s Hs. by apply Hm. Qed.

Lemma preserved_catch {A} (m h : M S A) :
  preserved I m → preserved I h → preserved I (catch m h).
Proof.
  intros Hm Hh s Hs. unfold catch. specialize (Hm s Hs).
  destruct (m s) as [[a|] s']; simpl in *; [done|by apply Hh].
Qed.

Lemma preserved_for_each {A} (xs : list A) (body : A → M S unit) :
  (∀ x, preserved I (body x)) → preserved I (for_each xs body).
Proof.
  intros Hb. induction xs as [|x xs IH]; simpl.
  - apply preserved_ret.
  - apply preserved_bind; [apply Hb|by intros _].
Qed.

Lemma preserved_for_each_flow {A} (xs : list A) (body : A → M S flow) :
  (∀ x, preserved I (body x)) → preserved I (for_each_flow xs body).
Proof.
  intros Hb. induction xs as [|x xs IH]; simpl.
  - apply preserved_ret.
  - apply preserved_bind; [apply Hb|]. intros []; [done|apply preserved_ret].
Qed.

End preserved_rules.

(** ** The pipeline of [scrape_actuarial_jobs.py] *)

Lemma run_sources_loop (sources : list (Z → option (list Job))) max_pages acc :
  snd (for_each sources
         (λ fn, try_ (bind (or_raise (fn max_pages))
                        (λ jobs, modify (λ all_jobs, all_jobs ++ jobs))))
         acc)
  = acc ++ merged ((λ fn, fn max_pages) <$> sources).
Proof.
  revert acc. induction sources as [|fn sources IH]; intros acc; simpl.
  - by rewrite app_nil_r.
  - unfold bind at 1, try_ at 1. simpl. rewrite IH.
    unfold merged. rewrite !fmap_cons. simpl. rewrite app_assoc.
    f_equal. unfold bind, or_raise.
    by destruct (fn max_pages); simpl; rewrite ?app_nil_r.
Qed.

Lemma NoDup_ids_perm (l1 l2 : list Job) :
  l1 ≡ₚ l2 → NoDup (j_id <$> l2) → NoDup (j_id <$> l1).
Proof. intros Hp. by rewrite Hp. Qed.

(** C6 (the part that holds).  See [pipeline_sorted_unique] below for the
    statement that also covers [scrape_all]. *)
Lemma run_scrape_pipeline (sources : list (Z → option (list Job)))
    (max_pages : Z) :
  let outputs := (λ fn, fn max_pages) <$> sources in
  let result := Actuarial.run_sources sources max_pages in
  result = Actuarial.sort_jobs (Actuarial.dedupe (merged outputs))
  ∧ StronglySorted job_le result
  ∧ NoDup (j_id <$> result)
  ∧ result ≡ₚ Actuarial.dedupe (merged outputs).
Proof.
  intros outputs result.
  assert (Hres : result
                 = Actuarial.sort_jobs (Actuarial.dedupe (merged outputs))).
  { unfold result, Actuarial.run_sources. by rewrite run_sources_loop. }
  assert (Hperm : result ≡ₚ Actuarial.dedupe (merged outputs)).
  { rewrite Hres. apply sorted_perm, key_compare_ordered. }
  split; [done|]. split; [|split; [|done]].
  - rewrite Hres. apply sorted_sorted, key_compare_ordered.
  - eapply NoDup_ids_perm; [exact Hperm|].
    rewrite dedupe_kept. apply kept_NoDup.
Qed.

(** ** Substrings *)

Lemma starts_with_spec p s : starts_with p s = true ↔ ∃ b, s = p ++ b.
Proof.
  revert s. induction p as [|x p IH]; intros s; simpl.
  - split; [by exists s|done].
  - destruct s as [|y s]; [split; [done|by intros [? ?]]|].
    rewrite andb_true_iff, N.eqb_eq, IH. split.
    + intros [-> [b ->]]. by exists b.
    + intros [b [= -> ->]]. eauto.
Qed.

Lemma contains_spec p s : contains p s = true ↔ substring p s.
Proof.
  induction s as [|y s IH]; simpl.
  - rewrite orb_false_r, starts_with_spec. split.
    + intros [b Hb]. by exists [], b.
    + intros (a & b & Hab). destruct a; [by exists b|done].
  - rewrite orb_true_iff, starts_with_spec, IH. split.
    + intros [[b Hb]|(a & b & ->)]; [by exists [], b|by exists (y :: a), b].
    + intros (a & b & Hab). destruct a as [|x a]; [left; by exists b|].
      right. injection Hab as -> ->. by exists a, b.
Qed.

Lemma any_in_spec xs t :
  any_in xs t = true ↔ ∃ x, x ∈ xs ∧ substring x t.
Proof.
  unfold any_in. rewrite existsb_exists.
  by setoid_rewrite contains_spec; setoid_rewrite list_elem_of_In.
Qed.

(** ** The keyword filter of the adapters of [scrape_actuarial_jobs.py] *)

Section actuarial_filter.
Import Actuarial.
Context (U : unicode_tables).
Context (fetch : request → option soup) (urljoin : text → text → option text).
Context (keywords locations : list text) (remote_only : bool).

Lemma matches_filters_keyword job :
  matches_filters U job keywords locations remote_only = true →
  keywords ≠ [] →
  mentions_keyword U keywords (j_title job) (j_company job) (j_description job).
Proof.
  unfold matches_filters, mentions_keyword. intros Hm Hk.
  destruct keywords as [|k0 ks]; [done|]. simpl nonempty_list in Hm.
  rewrite andb_true_l in Hm.
  destruct (existsb _ (k0 :: ks)) eqn:Hex; [|done].
  apply existsb_exists in Hex as (k & Hin & Hc).
  exists k. split; [by apply list_elem_of_In|by apply contains_spec].
Qed.

Local Notation passing :=
  (Forall (λ j, matches_filters U j keywords locations remote_only = true)).

Lemma emit_passing title company location desc sal exp job_url source featured :
  preserved passing
    (emit U keywords locations remote_only title company location desc sal exp
          job_url source featured).
Proof.
  unfold emit. destruct (matches_filters _ _ _ _ _) eqn:Hm.
  - apply preserved_modify. intros jobs Hjobs.
    apply Forall_app. split; [done|]. by repeat constructor.
  - apply preserved_ret.
Qed.

Lemma safe_urljoin_passing base href :
  preserved passing (safe_urljoin urljoin base href).
Proof.
  unfold safe_urljoin. destruct href as [h|]; [|apply preserved_ret].
  destruct (nonempty h); [apply preserved_or_raise|apply preserved_ret].
Qed.

Lemma scrape_soa_passing max_pages :
  passing (scrape_soa U fetch urljoin keywords locations remote_only max_pages).
Proof.
  unfold scrape_soa. apply preserved_for_each; [|constructor].
  intros page. apply preserved_try, preserved_bind; [apply preserved_or_raise|].
  intros page_soup. apply preserved_for_each. intros el.
  unfold soa_listing. apply preserved_bind; [apply safe_urljoin_passing|].
  intros job_url. destruct (_ || _); [apply preserved_ret|apply emit_passing].
Qed.

Lemma scrape_cas_passing max_pages :
  passing (scrape_cas U fetch urljoin keywords locations remote_only max_pages).
Proof.
  unfold scrape_cas. apply preserved_try; [|constructor].
  apply preserved_bind; [apply preserved_or_raise|].
  intros page_soup. apply preserved_for_each. intros el.
  unfold cas_item. apply preserved_bind; [apply safe_urljoin_passing|].
  intros job_url. destruct (negb _); [apply preserved_ret|apply emit_passing].
Qed.

Lemma scrape_indeed_passing max_pages :
  passing (scrape_indeed U fetch urljoin keywords locations remote_only
                         max_pages).
Proof.
  unfold scrape_indeed. apply preserved_for_each; [|constructor].
  intros loc. apply preserved_for_each. intros page.
  apply preserved_try, preserved_bind; [apply preserved_or_raise|].
  intros page_soup. apply preserved_for_each. intros el.
  unfold indeed_card. apply preserved_bind; [apply safe_urljoin_passing|].
  intros job_url. destruct (_ || _); [apply preserved_ret|apply emit_passing].
Qed.

End actuarial_filter.

(** ** The scrapers of [job_scraper.py] skip the ids seen so far *)

Section jobscraper_ids.
Import JobScraper.
Context (U : unicode_tables) (md5_hexdigest : text → text).
Context (urlencode : list (string * param) → text).
Context (session_get : text → option page).
Context (today : JobScraper.state → text) (location : text).
Context (keywords : list text).

Lemma fresh_ids_init seen0 : fresh_ids seen0 (mkState [] seen0).
Proof.
  split; [constructor|]. split; [by intros j ?%elem_of_nil|done].
Qed.

Lemma record_job_fresh seen0 title company loc description job_link source
    full_text skills_text certs salary_source featured :
  preserved (fresh_ids seen0)
    (record_job U md5_hexdigest today title company loc description job_link
                source full_text skills_text certs salary_source featured).
Proof.
  intros st (Hnd & Hin & Hsub). unfold record_job.
  destruct title as [title|]; [|done].
  destruct (negb (nonempty title)); [done|].
  unfold bind at 1, get. simpl.
  case_decide as Hseen; [done|].
  set (job_id := generate_job_id U md5_hexdigest title company loc) in *.
  unfold bind at 1, modify at 1. simpl.
  assert (Hst : fresh_ids seen0 (mkState (jobs st) ({[job_id]} ∪ seen_ids st))).
  { split; [done|]. simpl. split; [|set_solver].
    intros j Hj. destruct (Hin j Hj). set_solver. }
  unfold bind. destruct salary_source as [t|]; simpl.
  - destruct (extract_salary U t) as [salary|]; simpl; [|done].
    split; simpl.
    + rewrite fmap_app. apply NoDup_app. split; [done|]. split.
      * intros i (j & -> & Hj)%list_elem_of_fmap [Heq|[]%elem_of_nil]%elem_of_cons.
        simpl in Heq. destruct (Hin j Hj) as [Hj' _]. apply Hseen.
        by rewrite <- Heq.
      * simpl. apply NoDup_singleton.
    + split; [|set_solver].
      intros j [Hj|[->|[]%elem_of_nil]%elem_of_cons]%elem_of_app.
      * destruct (Hin j Hj). set_solver.
      * simpl. split; [set_solver|]. intros ?. apply Hseen. set_solver.
  - split; simpl.
    + rewrite fmap_app. apply NoDup_app. split; [done|]. split.
      * intros i (j & -> & Hj)%list_elem_of_fmap [Heq|[]%elem_of_nil]%elem_of_cons.
        simpl in Heq. destruct (Hin j Hj) as [Hj' _]. apply Hseen.
        by rewrite <- Heq.
      * simpl. apply NoDup_singleton.
    + split; [|set_solver].
      intros j [Hj|[->|[]%elem_of_nil]%elem_of_cons]%elem_of_app.
      * destruct (Hin j Hj). set_solver.
      * simpl. split; [set_solver|]. intros ?. apply Hseen. set_solver.
Qed.

Local Notation naukri := (scrape_naukri U md5_hexdigest urlencode session_get
                            today location keywords).
Local Notation indeed := (scrape_indeed_india U md5_hexdigest urlencode
                            session_get today location keywords).
Local Notation linkedin := (scrape_linkedin_india U md5_hexdigest urlencode
                              session_get today location keywords).

Lemma scrape_naukri_fresh max_pages seen0 :
  fresh_ids seen0 (mkState (naukri max_pages seen0).1 (naukri max_pages seen0).2).
Proof.
  unfold scrape_naukri. simpl.
  match goal with |- fresh_ids _ (mkState (jobs ?s) (seen_ids ?s)) =>
    cut (fresh_ids seen0 s); [by destruct s|] end.
  apply preserved_for_each; [|apply fresh_ids_init].
  intros keyword. apply preserved_for_each_flow. intros page_no.
  apply preserved_catch; [|apply preserved_ret].
  apply preserved_bind; [apply preserved_or_raise|]. intros soup.
  destruct (negb _); [apply preserved_ret|].
  apply preserved_bind; [|intros; apply preserved_ret].
  apply preserved_for_each. intros card.
  apply preserved_try, record_job_fresh.
Qed.

Lemma scrape_indeed_india_fresh max_pages seen0 :
  fresh_ids seen0 (mkState (indeed max_pages seen0).1 (indeed max_pages seen0).2).
Proof.
  unfold scrape_indeed_india. simpl.
  match goal with |- fresh_ids _ (mkState (jobs ?s) (seen_ids ?s)) =>
    cut (fresh_ids seen0 s); [by destruct s|] end.
  apply preserved_for_each; [|apply fresh_ids_init].
  intros keyword. apply preserved_for_each. intros page_no.
  apply preserved_try.
  apply preserved_bind; [apply preserved_or_raise|]. intros soup.
  apply preserved_for_each. intros card.
  apply preserved_try, record_job_fresh.
Qed.

Lemma scrape_linkedin_india_fresh max_pages seen0 :
  fresh_ids seen0 (mkState (linkedin max_pages seen0).1
                           (linkedin max_pages seen0).2).
Proof.
  unfold scrape_linkedin_india. simpl.
  match goal with |- fresh_ids _ (mkState (jobs ?s) (seen_ids ?s)) =>
    cut (fresh_ids seen0 s); [by destruct s|] end.
  apply preserved_for_each; [|apply fresh_ids_init].
  intros keyword. apply preserved_try.
  apply preserved_bind; [apply preserved_or_raise|]. intros soup.
  apply preserved_for_each. intros card.
  apply preserved_try, record_job_fresh.
Qed.

(** [scrape_all] returns the three lists one after the other, and no id
    occurs twice in the result. *)
Lemma scrape_all_concat seen0 :
  let all := scrape_all U md5_hexdigest urlencode session_get today location
                        keywords seen0 in
  let r1 := naukri 5 seen0 in
  let r2 := indeed 3 r1.2 in
  let r3 := linkedin 2 r2.2 in
  all = (r1.1 ++ r2.1 ++ r3.1, r3.2)
  ∧ NoDup (d_id <$> all.1)
  ∧ (∀ j, j ∈ all.1 → d_id j ∉ seen0).
Proof.
  intros all r1 r2 r3.
  assert (Hall : all = (r1.1 ++ r2.1 ++ r3.1, r3.2)).
  { unfold all, scrape_all. fold r1. destruct r1 as [j1 s1]. simpl in *.
    fold r2. destruct r2 as [j2 s2]. simpl in *. fold r3. by destruct r3. }
  split; [done|]. rewrite Hall. simpl.
  destruct (scrape_naukri_fresh 5 seen0) as (N1 & I1 & S1).
  destruct (scrape_indeed_india_fresh 3 r1.2) as (N2 & I2 & S2).
  destruct (scrape_linkedin_india_fresh 2 r2.2) as (N3 & I3 & S3).
  fold r1 in N1, I1, S1. fold r1 r2 in N2, I2, S2. fold r2 r3 in N3, I3, S3.
  simpl in *. split.
  - rewrite !fmap_app. apply NoDup_app. split; [done|]. split.
    + intros i (j & -> & Hj)%list_elem_of_fmap Hi.
      destruct (I1 j Hj) as [Hj1 _].
      apply elem_of_app in Hi as [(j' & Heq & Hj')%list_elem_of_fmap
                                 |(j' & Heq & Hj')%list_elem_of_fmap].
      * destruct (I2 j' Hj') as [_ Hn]. apply Hn. by rewrite <- Heq.
      * destruct (I3 j' Hj') as [_ Hn]. apply Hn. rewrite <- Heq.
        by apply S2.
    + apply NoDup_app. split; [done|]. split; [|done].
      intros i (j & -> & Hj)%list_elem_of_fmap (j' & Heq & Hj')%list_elem_of_fmap.
      destruct (I2 j Hj) as [Hj2 _]. destruct (I3 j' Hj') as [_ Hn].
      apply Hn. by rewrite <- Heq.
  - intros j [Hj|[Hj|Hj]%elem_of_app]%elem_of_app.
    + by destruct (I1 j Hj).
    + destruct (I2 j Hj) as [_ Hn]. intros Hs. by apply Hn, S1.
    + destruct (I3 j Hj) as [_ Hn]. intros Hs. by apply Hn, S2, S1.
Qed.

End jobscraper_ids.

(** ** C6: the pipeline *)

(** On the concrete site [scrape_all] returns the Naukri posting before the
    Indeed one: the list is not sorted by (source, company, title). *)
Lemma scrape_all_not_sorted :
  ¬ StronglySorted (key_le key_compare dict_key) Site.run_all.1.
Proof.
  assert (∃ j1 j2 rest, Site.run_all.1 = j1 :: j2 :: rest
                        ∧ key_compare (dict_key j1) (dict_key j2) = Gt)
    as (j1 & j2 & rest & Heq & Hgt).
  { eexists _, _, _. split; vm_compute; reflexivity. }
  intros H. rewrite Heq in H. apply StronglySorted_inv in H as [_ H].
  apply Forall_inv in H. unfold key_le, key_leb in H. by rewrite Hgt in H.
Qed.

(** C6 (amended).  [run_scrape] of [scrape_actuarial_jobs.py] concatenates
    the outputs of its sources in source order (a raising source counts as
    empty), deduplicates by id and then sorts by (source, company, title):
    the result is a function of the outputs; it holds, for every id of the
    outputs, exactly the first record bearing it, so no id occurs twice; it
    is a rearrangement of the deduplicated list, sorted by that key, with
    the records of equal key left in their order.  [scrape_all] of
    [job_scraper.py] returns the lists of its three sources one after the
    other, in source order and unsorted; no id occurs twice in it because
    every source skips the ids seen so far. *)
Theorem pipeline_sorted_unique :
  (∀ (sources : list (Z → option (list Job))) (max_pages : Z),
     let outputs := (λ fn, fn max_pages) <$> sources in
     let result := Actuarial.run_sources sources max_pages in
     result = Actuarial.sort_jobs (Actuarial.dedupe (merged outputs))
     ∧ StronglySorted job_le result
     ∧ NoDup (j_id <$> result)
     ∧ result ≡ₚ Actuarial.dedupe (merged outputs)
     ∧ (∀ i j, (j ∈ result ∧ j_id j = i)
               ↔ first_with_id i (merged outputs) = Some j)
     ∧ (∀ k, List.filter (λ j, bool_decide (sort_key j = k)) result
             = List.filter (λ j, bool_decide (sort_key j = k))
                           (Actuarial.dedupe (merged outputs))))
  ∧ (∀ jobs, Actuarial.sort_jobs jobs ≡ₚ jobs
             ∧ StronglySorted job_le (Actuarial.sort_jobs jobs))
  ∧ (∀ U fetch urljoin keywords locations remote_only max_pages,
       Actuarial.run_scrape U fetch urljoin keywords locations remote_only
                            max_pages
       = Actuarial.sort_jobs
           (Actuarial.dedupe
              (Actuarial.scrape_soa U fetch urljoin keywords locations
                                    remote_only max_pages
               ++ Actuarial.scrape_cas U fetch urljoin keywords locations
                                       remote_only max_pages
               ++ Actuarial.scrape_indeed U fetch urljoin keywords locations
                                          remote_only max_pages)))
  ∧ (∀ U md5_hexdigest urlencode session_get today location keywords seen0,
       let all := JobScraper.scrape_all U md5_hexdigest urlencode session_get
                    today location keywords seen0 in
       let r1 := JobScraper.scrape_naukri U md5_hexdigest urlencode
                   session_get today location keywords 5 seen0 in
       let r2 := JobScraper.scrape_indeed_india U md5_hexdigest urlencode
                   session_get today location keywords 3 r1.2 in
       let r3 := JobScraper.scrape_linkedin_india U md5_hexdigest urlencode
                   session_get today location keywords 2 r2.2 in
       all.1 = r1.1 ++ r2.1 ++ r3.1
       ∧ NoDup (JobScraper.d_id <$> all.1)).
Proof.
  split; [|split; [|split]].
  - intros sources max_pages.
    destruct (run_scrape_pipeline sources max_pages) as (H1 & H2 & H3 & H4).
    cbv zeta in *. repeat (split; [done|]). split.
    + intros i j. rewrite <- (kept_first ∅) by set_solver.
      rewrite <- dedupe_kept. by rewrite H4.
    + intros k. rewrite H1.
      apply (sorted_stable key_compare sort_key key_compare_ordered).
      intros x y Hy Hx. apply bool_decide_eq_true in Hx, Hy. congruence.
  - intros jobs. split.
    + apply (sorted_perm key_compare sort_key key_compare_ordered).
    + apply (sorted_sorted key_compare sort_key key_compare_ordered).
  - intros. unfold Actuarial.run_scrape.
    destruct (run_scrape_pipeline
                [ (λ mp, Some (Actuarial.scrape_soa U fetch urljoin keywords
                                 locations remote_only mp));
                  (λ mp, Some (Actuarial.scrape_cas U fetch urljoin keywords
                                 locations remote_only mp));
                  (λ mp, Some (Actuarial.scrape_indeed U fetch urljoin keywords
                                 locations remote_only mp)) ] max_pages)
      as (H1 & _).
    rewrite H1. unfold merged. simpl. by rewrite app_nil_r.
  - intros.
    destruct (scrape_all_concat U md5_hexdigest urlencode session_get today
                location keywords seen0) as (H1 & H2 & _).
    fold all r1 r2 r3 in H1, H2. split; [by rewrite H1|done].
Qed.

(** ** C2: the keyword filter *)

(** On the concrete site, with the keyword [actuarial], [scrape_naukri] and
    [scrape_linkedin_india] each emit a posting whose title, company and
    description mention no keyword. *)
Lemma scrapers_ignore_keywords :
  (∃ j, j ∈ Site.run_naukri.1
        ∧ ¬ mentions_keyword ascii_only [u "actuarial"]
              (JobScraper.d_title j) (JobScraper.d_company j)
              (JobScraper.d_description j))
  ∧ (∃ j, j ∈ Site.run_linkedin.1
          ∧ ¬ mentions_keyword ascii_only [u "actuarial"]
                (JobScraper.d_title j) (JobScraper.d_company j)
                (JobScraper.d_description j)).
Proof.
  split.
  - assert (∃ j, Site.run_naukri.1 = [j]) as [j Hj]
      by (eexists; vm_compute; reflexivity).
    vm_compute in Hj. injection Hj as <-.
    eexists. split; [vm_compute; apply list_elem_of_here|].
    intros (k & ->%list_elem_of_singleton & Hk%contains_spec).
    vm_compute in Hk. done.
  - assert (∃ j, Site.run_linkedin.1 = [j]) as [j Hj]
      by (eexists; vm_compute; reflexivity).
    vm_compute in Hj. injection Hj as <-.
    eexists. split; [vm_compute; apply list_elem_of_here|].
    intros (k & ->%list_elem_of_singleton & Hk%contains_spec).
    vm_compute in Hk. done.
Qed.

(** C2 (amended).  For every non-empty keyword list, every posting emitted by
    [scrape_soa], [scrape_cas] or [scrape_indeed] mentions at least one
    keyword, without regard to case, in its combined title, company and
    description. *)
Theorem actuarial_adapters_filter_keywords
    (U : unicode_tables) (fetch : request → option soup)
    (urljoin : text → text → option text) (keywords locations : list text)
    (remote_only : bool) (max_pages : Z) (j : Job) :
  keywords ≠ [] →
  j ∈ Actuarial.scrape_soa U fetch urljoin keywords locations remote_only
        max_pages
      ++ Actuarial.scrape_cas U fetch urljoin keywords locations remote_only
           max_pages
      ++ Actuarial.scrape_indeed U fetch urljoin keywords locations remote_only
           max_pages →
  mentions_keyword U keywords (j_title j) (j_company j) (j_description j).
Proof.
  intros Hk Hj.
  apply (matches_filters_keyword U keywords locations remote_only); [|done].
  revert j Hj. apply (proj1 (Forall_forall _ _)). rewrite !Forall_app.
  split; [apply scrape_soa_passing|].
  split; [apply scrape_cas_passing|apply scrape_indeed_passing].
Qed.

Lemma actuarial_adapters_filter_keywords_witness :
  ∃ j, Actuarial.scrape_soa ascii_only Site.fetch Site.urljoin [u "actuary"]
         [] false 1 = [j]
       ∧ mentions_keyword ascii_only [u "actuary"]
           (j_title j) (j_company j) (j_description j).
Proof.
  eexists. split; [vm_compute; reflexivity|].
  eapply (actuarial_adapters_filter_keywords ascii_only Site.fetch Site.urljoin
            [u "actuary"] [] false 1); [done|].
  vm_compute. apply list_elem_of_here.
Defined.

(** ** The matcher on character classes *)

Section class_facts.
Context {R : Type} (p : N → bool).
Implicit Types (k : option N → text → captures → option R).

Lemma star_loop_class k fuel prev s caps :
  length s ≤ fuel →
  star_loop (rmatch (Chr p)) k fuel prev s caps = star_class p k prev s caps.
Proof.
  revert prev s. induction fuel as [|fuel IH]; intros prev s Hlen.
  - destruct s; [done|simpl in Hlen; lia].
  - destruct s as [|c s]; simpl; [done|].
    destruct (p c); [|done].
    destruct (Nat.ltb_spec (length s) (S (length s))) as [_|?]; [|lia].
    rewrite IH by (simpl in Hlen; lia). done.
Qed.

Lemma rmatch_star_class k prev s caps :
  rmatch (Star (Chr p)) prev s caps k = star_class p k prev s caps.
Proof. simpl. by apply star_loop_class. Qed.

Lemma rmatch_plus_class k prev s caps :
  rmatch (Plus (Chr p)) prev s caps k
  = match s with
    | c :: s' => if p c then star_class p k (Some c) s' caps else None
    | [] => None
    end.
Proof.
  unfold Plus. simpl. destruct s as [|c s]; [done|].
  destruct (p c); [|done]. by apply star_loop_class.
Qed.

(** Greedy: when the continuation accepts what follows a run of the class,
    the star takes the whole run. *)
Lemma star_class_run k prev run rest caps x :
  Forall (λ c, p c = true) run →
  star_class p k (prev_after prev run) rest caps = Some x →
  star_class p k prev (run ++ rest) caps = Some x.
Proof.
  revert prev. induction run as [|c run IH]; intros prev Hrun Hk; [done|].
  apply Forall_cons in Hrun as [Hc Hrun]. simpl. rewrite Hc.
  rewrite (IH (Some c)); [done|done|].
  unfold prev_after in *. simpl in Hk. rewrite last_cons in Hk.
  by destruct (last run).
Qed.

Lemma star_class_stop k prev s caps :
  match s with c :: _ => p c = false | [] => True end →
  star_class p k prev s caps = k prev s caps.
Proof. destruct s as [|c s]; simpl; [done|]. by intros ->. Qed.

Lemma drop_class_length s : length (drop_class p s) ≤ length s.
Proof. induction s as [|c s IH]; simpl; [done|]. destruct (p c); simpl; lia. Qed.

Lemma squeeze_drop_class repl s :
  squeeze p repl true s = squeeze p repl false (drop_class p s).
Proof.
  induction s as [|c s IH]; simpl; [done|].
  destruct (p c) eqn:Hc; [done|]. simpl. by rewrite Hc.
Qed.

End class_facts.

(** When the continuation accepts every rest, the star over a class stops
    after the longest run. *)
Lemma star_class_accept (p : N → bool) (n : nat) prev s caps :
  length s < n →
  ∃ prev',
    star_class p (λ prev' rest _,
                    if (length rest <? n)%nat then Some (prev', rest) else None)
               prev s caps
    = Some (prev', drop_class p s).
Proof.
  revert prev. induction s as [|c s IH]; intros prev Hlen; simpl.
  - exists prev. by destruct (Nat.ltb_spec 0 n); [|lia].
  - destruct (p c).
    + destruct (IH (Some c)) as [prev' ->]; [simpl in Hlen; lia|]. by exists prev'.
    + exists prev.
      by destruct (Nat.ltb_spec (S (length s)) n); [|simpl in *; lia].
Qed.

(** [re.sub] of a repeated class and of a class. *)
Lemma sub_loop_plus_class (p : N → bool) repl fuel prev s :
  length s ≤ fuel →
  sub_loop fuel (Plus (Chr p)) repl prev s = squeeze p repl false s.
Proof.
  revert prev s. induction fuel as [|fuel IH]; intros prev s Hlen.
  - destruct s; [done|simpl in Hlen; lia].
  - destruct s as [|c s]; [done|]. simpl in Hlen.
    cbn [sub_loop]. rewrite rmatch_plus_class.
    destruct (p c) eqn:Hc; cbn [squeeze]; rewrite Hc.
    + destruct (star_class_accept p (length (c :: s)) (Some c) s [])
        as [prev' ->]; [simpl; lia|].
      rewrite IH by (pose proof (drop_class_length p s); lia).
      by rewrite squeeze_drop_class.
    + f_equal. apply IH. lia.
Qed.

Lemma sub_plus_class (p : N → bool) repl s :
  sub (Plus (Chr p)) repl s = squeeze p repl false s.
Proof. by apply sub_loop_plus_class. Qed.

Lemma sub_loop_class (p : N → bool) fuel prev s :
  length s ≤ fuel →
  sub_loop fuel (Chr p) [] prev s = List.filter (λ c, negb (p c)) s.
Proof.
  revert prev s. induction fuel as [|fuel IH]; intros prev s Hlen.
  - destruct s; [done|simpl in Hlen; lia].
  - destruct s as [|c s]; [done|]. simpl in Hlen. simpl.
    destruct (p c); simpl.
    + destruct (Nat.ltb_spec (length s) (S (length s))); [|lia].
      apply IH. lia.
    + f_equal. apply IH. lia.
Qed.

Lemma sub_class (p : N → bool) s :
  sub (Chr p) [] s = List.filter (λ c, negb (p c)) s.
Proof. by apply sub_loop_class. Qed.

(** ** Whitespace normalization *)

Local Notation sq := (squeeze is_space (u " ")).

Lemma lstrip_squeeze s : lstrip (sq false s) = sq true s.
Proof.
  destruct s as [|c s]; [done|]. simpl.
  destruct (is_space c) eqn:Hc; simpl; [|by rewrite Hc].
  induction s as [|d s IH]; [done|]. simpl.
  destruct (is_space d) eqn:Hd; [done|]. simpl. by rewrite Hd.
Qed.

Lemma rstrip_snoc_space x c : is_space c = true → rstrip (x ++ [c]) = rstrip x.
Proof.
  intros Hc. induction x as [|d x IH]; simpl; [by rewrite Hc|]. by rewrite IH.
Qed.

Lemma rstrip_cons x c : rstrip x = x → x ≠ [] → rstrip (c :: x) = c :: x.
Proof. intros Hx Hne. simpl. rewrite Hx. by destruct x. Qed.

Lemma rstrip_cons_nonspace c x :
  is_space c = false → rstrip x = x → rstrip (c :: x) = c :: x.
Proof. intros Hc Hx. simpl. rewrite Hx, Hc. by destruct x. Qed.

Lemma join_cons_first c ws :
  ws ≠ [] → join (u " ") (cons_first c ws) = c :: join (u " ") ws.
Proof. destruct ws as [|w [|w' ws]]; done. Qed.

Lemma words_all_nonempty s : Forall (λ w, w ≠ []) (words s).
Proof.
  induction s as [|c s IH]; simpl; [constructor|].
  destruct (is_space c); [done|]. destruct s as [|d s]; [by repeat constructor|].
  destruct (is_space d); [by constructor|].
  destruct (words (d :: s)) as [|w ws]; [by repeat constructor|].
  apply Forall_cons in IH as [_ IH]. by constructor.
Qed.

Lemma words_nonempty c s : is_space c = false → words (c :: s) ≠ [].
Proof.
  intros Hc. simpl. rewrite Hc. destruct s as [|d s]; [done|].
  destruct (is_space d); [done|]. by destruct (words (d :: s)).
Qed.

Lemma join_nonempty s : words s ≠ [] → join (u " ") (words s) ≠ [].
Proof.
  pose proof (words_all_nonempty s) as Hall.
  destruct (words s) as [|w ws]; [done|]. intros _.
  apply Forall_cons in Hall as [Hw _].
  destruct w; [done|]. by destruct ws.
Qed.

Lemma squeeze_false_nonspace d s :
  is_space d = false → sq false (d :: s) = sq true (d :: s).
Proof. intros Hd. simpl. by rewrite Hd. Qed.

(** What [squeeze] leaves after the leading whitespace is the words joined
    by single spaces, followed by one space when the text ends in
    whitespace. *)
Lemma squeeze_words s :
  ∃ trail, sq true s = join (u " ") (words s) ++ trail
           ∧ (trail = [] ∨ (trail = u " " ∧ words s ≠ []))
           ∧ rstrip (join (u " ") (words s)) = join (u " ") (words s).
Proof.
  induction s as [|c s' IH]; [by exists []; auto|].
  destruct IH as (trail & Hsq & Htrail & Hrs).
  destruct (is_space c) eqn:Hc.
  { exists trail. cbn [squeeze words]. by rewrite Hc. }
  assert (Hcs : sq true (c :: s') = c :: sq false s')
    by (cbn [squeeze]; by rewrite Hc).
  rewrite Hcs. clear Hcs.
  destruct s' as [|d s].
  { exists []. cbn [words]. rewrite Hc.
    split; [done|]. split; [by left|]. cbn. by rewrite Hc. }
  destruct (is_space d) eqn:Hd.
  - assert (Hf : sq false (d :: s) = 32%N :: sq true (d :: s))
      by (cbn [squeeze]; by rewrite Hd).
    assert (Hw : words (c :: d :: s) = [c] :: words (d :: s))
      by (cbn [words]; by rewrite Hc, Hd).
    rewrite Hf, Hw, Hsq. clear Hf Hw.
    destruct (words (d :: s)) as [|w ws] eqn:Hws.
    + destruct Htrail as [->|[_ ?]]; [|done].
      exists (u " "). split; [done|]. split; [by right|].
      simpl. by rewrite Hc.
    + exists trail. split; [done|]. split.
      * destruct Htrail as [?|[? _]]; [by left|by right].
      * change (join (u " ") ([c] :: w :: ws))
          with (c :: 32%N :: join (u " ") (w :: ws)).
        pose proof (join_nonempty (d :: s)) as Hne. rewrite Hws in Hne.
        apply rstrip_cons; [|done]. apply rstrip_cons; [done|by apply Hne].
  - pose proof (words_nonempty d s Hd) as Hne.
    assert (Hw : words (c :: d :: s) = cons_first c (words (d :: s)))
      by (cbn [words]; by rewrite Hc, Hd).
    rewrite Hw, join_cons_first, squeeze_false_nonspace, Hsq by done.
    exists trail. split; [done|]. split.
    + destruct Htrail as [?|[? _]]; [by left|right]. split; [done|].
      by destruct (words (d :: s)).
    + by apply rstrip_cons_nonspace.
Qed.

Lemma strip_squeeze s : strip (sq false s) = join (u " ") (words s).
Proof.
  unfold strip. rewrite lstrip_squeeze.
  destruct (squeeze_words s) as (trail & -> & [->|[-> _]] & Hrs).
  - by rewrite app_nil_r.
  - change (u " ") with [32%N]. by rewrite rstrip_snoc_space.
Qed.

Lemma filter_nonspace_cons c x :
  List.filter nonspace (c :: x)
  = if is_space c then List.filter nonspace x else c :: List.filter nonspace x.
Proof. simpl. unfold nonspace at 1. by destruct (is_space c). Qed.

Lemma filter_nonspace_join s :
  List.filter nonspace (join (u " ") (words s)) = List.filter nonspace s.
Proof.
  induction s as [|c s IH]; [done|].
  rewrite (filter_nonspace_cons c s), <- IH. clear IH. cbn [words].
  destruct (is_space c) eqn:Hc; [done|].
  destruct s as [|d s].
  { change (join (u " ") [[c]]) with [c].
    by rewrite (filter_nonspace_cons c []), Hc. }
  destruct (is_space d) eqn:Hd.
  - destruct (words (d :: s)) as [|w ws].
    + change (join (u " ") [[c]]) with [c].
      by rewrite (filter_nonspace_cons c []), Hc.
    + change (join (u " ") ([c] :: w :: ws))
        with (c :: 32%N :: join (u " ") (w :: ws)).
      by rewrite !filter_nonspace_cons, Hc.
  - rewrite join_cons_first by (by apply words_nonempty).
    by rewrite filter_nonspace_cons, Hc.
Qed.

(** ** C9: [normalize] *)

Lemma normalize_whitespace_words t :
  Actuarial.normalize_whitespace t = join (u " ") (words (default [] t)).
Proof.
  unfold Actuarial.normalize_whitespace. by rewrite sub_plus_class, strip_squeeze.
Qed.

(** [clean_text] deletes the plus sign of "8+ years", a character that is no
    whitespace. *)
Lemma clean_text_drops_plus :
  JobScraper.clean_text ascii_only (u "8+ years") = u "8 years"
  ∧ List.filter nonspace (JobScraper.clean_text ascii_only (u "8+ years"))
    ≠ List.filter nonspace (u "8+ years").
Proof. split; [by vm_compute|]. vm_compute. discriminate. Qed.

(** C9 (amended).  [normalize_whitespace] and [normalize] return, for every
    input ([None] and the empty string included, which give the empty
    string), the maximal runs of non-whitespace characters of the input
    joined by single spaces: every run of whitespace has become one space,
    leading and trailing whitespace is gone, and the characters that are no
    whitespace are unchanged.  [clean_text] returns the same string with
    every character deleted that is neither a word character, nor
    whitespace, nor one of [-.,/$()&₹]; these punctuation and currency signs
    are kept. *)
Theorem normalize_collapses_whitespace (U : unicode_tables) (t : option text) :
  let n := Actuarial.normalize_whitespace t in
  Boards.normalize t = n
  ∧ n = join (u " ") (words (default [] t))
  ∧ List.filter nonspace n = List.filter nonspace (default [] t)
  ∧ Actuarial.normalize_whitespace None = []
  ∧ Actuarial.normalize_whitespace (Some []) = []
  ∧ (∀ s, JobScraper.clean_text U s
          = List.filter (JobScraper.keeps U)
                        (Actuarial.normalize_whitespace (Some s)))
  ∧ Forall (λ c, JobScraper.keeps U c = true) (u "-.,/$()&₹").
Proof.
  intros n. split; [done|]. split; [apply normalize_whitespace_words|].
  split; [unfold n; rewrite normalize_whitespace_words;
          apply filter_nonspace_join|].
  split; [done|]. split; [done|]. split.
  - intros s. unfold JobScraper.clean_text.
    destruct s as [|c s]; [done|]. cbn [nonempty negb].
    rewrite sub_class. unfold Actuarial.normalize_whitespace.
    apply List.filter_ext. intros x. apply negb_involutive.
  - repeat constructor; unfold JobScraper.keeps; apply orb_true_iff; by right.
Qed.

(** ** C4: [gen_id] *)

Lemma filter_alnum_bar s t :
  List.filter is_ascii_alnum (s ++ u "|" ++ t)
  = List.filter is_ascii_alnum (s ++ t).
Proof. by rewrite !List.filter_app. Qed.

Lemma gen_id_filter title company location url :
  Actuarial.gen_id title company location url
  = take 64 (List.filter is_ascii_alnum (title ++ company ++ location ++ url)).
Proof.
  unfold Actuarial.gen_id. rewrite sub_class. f_equal.
  rewrite (List.filter_ext _ is_ascii_alnum) by (intros; apply negb_involutive).
  rewrite !List.filter_app. done.
Qed.

(** Two titles that differ in punctuation get the same id. *)
Lemma gen_id_collision :
  u "Actuary" ≠ u "Actuary!"
  ∧ Actuarial.gen_id (u "Actuary") (u "Acme") (u "Mumbai") (u "https://x/1")
    = Actuarial.gen_id (u "Actuary!") (u "Acme") (u "Mumbai") (u "https://x/1").
Proof. split; [vm_compute; discriminate|by vm_compute]. Qed.

Lemma filter_id_unique (jobs : list Job) i :
  NoDup (j_id <$> jobs) → i ∈ (j_id <$> jobs) →
  ∃ j, List.filter (λ x, bool_decide (j_id x = i)) jobs = [j].
Proof.
  induction jobs as [|j jobs IH]; [by intros _ ?%elem_of_nil|].
  rewrite fmap_cons. intros [Hj Hnd]%NoDup_cons Hi. cbn [List.filter].
  case_bool_decide as Heq.
  - exists j. f_equal. subst i. clear IH Hi.
    induction jobs as [|j' jobs IH]; [done|].
    rewrite fmap_cons in Hj, Hnd. apply not_elem_of_cons in Hj as [Hne Hj].
    apply NoDup_cons in Hnd as [_ Hnd]. cbn [List.filter].
    rewrite bool_decide_eq_false_2 by done. by apply IH.
  - apply elem_of_cons in Hi as [->|Hi]; [done|]. by apply IH.
Qed.

(** C4 (amended).  [gen_id] is a function of (title, company, location, url):
    it is the first 64 ASCII letters and digits of the four fields written
    one after the other, so equal tuples get equal ids, and so do tuples that
    agree on these characters.  Under [dedupe] the postings that share an id
    collapse to exactly one.  [generate_job_id] is the first 16 characters
    of the digest of the lower-cased title|company|location; the url is no
    argument of it. *)
Theorem gen_id_sanitized_prefix (title company location url : text) :
  Actuarial.gen_id title company location url
  = take 64 (List.filter is_ascii_alnum (title ++ company ++ location ++ url))
  ∧ Boards.gen_id title company location url
    = Actuarial.gen_id title company location url
  ∧ (∀ jobs i, i ∈ (j_id <$> jobs) →
       ∃ j, List.filter (λ x, bool_decide (j_id x = i)) (Actuarial.dedupe jobs)
            = [j])
  ∧ (∀ U md5_hexdigest,
       JobScraper.generate_job_id U md5_hexdigest title company location
       = take 16 (md5_hexdigest
                    (lower U (title ++ u "|" ++ company ++ u "|" ++ location)))).
Proof.
  split; [apply gen_id_filter|]. split; [done|]. split; [|done].
  intros jobs i Hi. rewrite dedupe_kept.
  apply filter_id_unique; [apply kept_NoDup|].
  destruct (kept_represents ∅ jobs i) as (j & Hj & <-); [set_solver|done|].
  by apply list_elem_of_fmap_2.
Qed.

(** ** C5: experience levels *)

(** [determine_experience_level] gives [Senior] for a text that contains the
    executive term "manager", and [infer_experience] gives no level for a
    text that contains "chief". *)
Lemma executive_terms_overridden :
  (substring (u "manager")
             (lower ascii_only (u "Senior Manager" ++ u " " ++ u ""))
   ∧ JobScraper.determine_experience_level ascii_only (u "Senior Manager")
       (u "") = Senior)
  ∧ (substring (u "chief") (lower ascii_only (u "Chief Actuary"))
     ∧ Actuarial.infer_experience ascii_only (u "Chief Actuary") = None).
Proof.
  split; (split; [apply contains_spec; by vm_compute|by vm_compute]).
Qed.

(** C5 (amended).  [infer_experience] checks its executive terms (executive,
    manager, lead, director) first: a text whose lower-case form contains one
    of them is [Executive], whatever senior, mid or entry terms it also
    contains.  [determine_experience_level] checks the senior terms (senior,
    lead, principal, 10+ years, 8+ years, sr.) first: a text that contains
    one of them is [Senior], and a text that contains one of manager,
    director, vp, chief, head is [Executive] when it contains no senior
    term. *)
Theorem executive_terms_priority (U : unicode_tables)
    (txt title description : text) :
  let t := lower U (title ++ u " " ++ description) in
  ((∃ x, x ∈ Actuarial.executive_terms ∧ substring x (lower U txt)) →
   Actuarial.infer_experience U txt = Some Executive)
  ∧ ((∃ x, x ∈ JobScraper.senior_terms ∧ substring x t) →
     JobScraper.determine_experience_level U title description = Senior)
  ∧ ((∃ x, x ∈ JobScraper.executive_terms ∧ substring x t) →
     (∀ x, x ∈ JobScraper.senior_terms → ¬ substring x t) →
     JobScraper.determine_experience_level U title description = Executive).
Proof.
  intros t. split; [|split].
  - intros H%any_in_spec. unfold Actuarial.infer_experience. by rewrite H.
  - intros H%any_in_spec. unfold JobScraper.determine_experience_level.
    fold t. by rewrite H.
  - intros H%any_in_spec Hno. unfold JobScraper.determine_experience_level.
    fold t. rewrite H.
    destruct (any_in JobScraper.senior_terms t) eqn:Hs; [|done].
    apply any_in_spec in Hs as (x & Hx & Hsub). by destruct (Hno x Hx).
Qed.

Example executive_terms_priority_run :
  Actuarial.infer_experience ascii_only
    (u "Senior Manager, Pricing, 8+ years") = Some Executive
  ∧ JobScraper.determine_experience_level ascii_only (u "Pricing Director")
      (u "3-5 years, graduate") = Executive
  ∧ Actuarial.infer_experience ascii_only
      (u "Senior Actuarial Analyst, 8+ years") = Some Senior
  ∧ Actuarial.infer_experience ascii_only (u "Graduate trainee, 0-2 years")
    = Some Entry.
Proof. by vm_compute. Qed.

(** ** The matcher on literals, and [re.search] *)

Lemma prev_after_cons prev c run :
  prev_after prev (c :: run) = prev_after (Some c) run.
Proof. unfold prev_after. rewrite last_cons. by destruct (last run). Qed.

Lemma prev_after_app prev a b :
  prev_after prev (a ++ b) = prev_after (prev_after prev a) b.
Proof.
  revert prev. induction a as [|c a IH]; intros prev; [done|].
  simpl. by rewrite !prev_after_cons, IH.
Qed.

Lemma rmatch_literal {R} (c : text) prev s caps
    (k : option N → text → captures → option R) :
  rmatch (Cat (map (λ x, Chr (N.eqb x)) c)) prev s caps k
  = if starts_with c s then k (prev_after prev c) (drop (length c) s) caps
    else None.
Proof.
  revert prev s. induction c as [|x c IH]; intros prev s; [done|].
  cbn [map Cat foldr rmatch]. destruct s as [|y s]; [done|].
  cbn [starts_with length drop]. destruct (x =? y)%N eqn:Hxy; [|done].
  apply N.eqb_eq in Hxy. subst y.
  fold (Cat (map (λ x, Chr (N.eqb x)) c)).
  rewrite IH, prev_after_cons. done.
Qed.

(** [re.search] finds a match exactly when the pattern matches at some
    position. *)
Lemma search_from_spec r prev s :
  search_from r prev s ≠ None
  ↔ ∃ pre post, s = pre ++ post
                ∧ rmatch r (prev_after prev pre) post []
                    (λ _ s' caps, Some (caps, s')) ≠ None.
Proof.
  revert prev. induction s as [|c s IH]; intros prev; simpl.
  - destruct (rmatch r prev [] [] _) eqn:Hm.
    + split; [|done]. intros _. exists [], [].
      change (prev_after prev []) with prev. by rewrite Hm.
    + split; [done|]. intros (pre & post & Heq & Hp).
      symmetry in Heq. apply app_eq_nil in Heq as [-> ->].
      change (prev_after prev []) with prev in Hp. by rewrite Hm in Hp.
  - destruct (rmatch r prev (c :: s) [] _) eqn:Hm.
    + split; [|done]. intros _. exists [], (c :: s).
      change (prev_after prev []) with prev. by rewrite Hm.
    + rewrite IH. split.
      * intros (pre & post & -> & Hp). exists (c :: pre), post.
        by rewrite prev_after_cons.
      * intros (pre & post & Heq & Hp). destruct pre as [|c' pre].
        -- simpl in Heq. subst post.
           change (prev_after prev []) with prev in Hp. by rewrite Hm in Hp.
        -- injection Heq as <- ->. exists pre, post.
           by rewrite prev_after_cons in Hp.
Qed.

Lemma re_found_spec r s :
  re_found r s = true
  ↔ ∃ pre post, s = pre ++ post
                ∧ rmatch r (last pre) post []
                    (λ _ s' caps, Some (caps, s')) ≠ None.
Proof.
  assert (Hprev : ∀ pre, prev_after None pre = last pre)
    by (intros pre; unfold prev_after; by destruct (last pre)).
  transitivity (search_from r None s ≠ None).
  - unfold re_found, search. destruct (search_from r None s); split; done.
  - rewrite search_from_spec.
    split; intros (pre & post & Heq & Hm); exists pre, post;
      [rewrite <- Hprev|rewrite Hprev]; done.
Qed.

(** ** C7: certifications *)

Section certs.
Context (U : unicode_tables).

Lemma cert_pattern_isolated c txt :
  c ≠ [] → Forall (λ x, is_word U x = true) c →
  re_found (Actuarial.cert_pattern U c) txt = true ↔ isolated U c txt.
Proof.
  intros Hne Hword. rewrite re_found_spec. unfold isolated.
  assert (Hhead : ∀ post, word_at (is_word U) (head (c ++ post)) = true).
  { intros post. destruct c as [|x c]; [done|]. simpl.
    by apply Forall_cons in Hword as [-> _]. }
  assert (Hlast : ∀ prev, word_at (is_word U) (prev_after prev c) = true).
  { intros prev. unfold prev_after.
    destruct (last c) as [x|] eqn:Hl; [|by apply last_None in Hl].
    simpl. apply last_Some_elem_of in Hl.
    by apply (proj1 (Forall_forall _ _) Hword). }
  assert (Hm : ∀ pre s,
    rmatch (Actuarial.cert_pattern U c) (last pre) s []
      (λ _ s' caps, Some (caps, s')) ≠ None
    ↔ ∃ post, s = c ++ post
              ∧ word_at (is_word U) (last pre) = false
              ∧ word_at (is_word U) (head post) = false).
  { intros pre s. unfold Actuarial.cert_pattern.
    cbn [Cat foldr rmatch].
    fold (Cat (map (λ x, Chr (N.eqb x)) c)).
    destruct (starts_with c s) eqn:Hs.
    - apply starts_with_spec in Hs as [post ->].
      rewrite Hhead, rmatch_literal.
      rewrite (proj2 (starts_with_spec c (c ++ post))) by eauto.
      cbn [rmatch]. rewrite drop_app_length, Hlast.
      destruct (word_at (is_word U) (last pre)) eqn:Hb,
        (word_at (is_word U) (head post)) eqn:Ha; simpl;
        (split;
         [intros Hn; first [by destruct Hn|by exists post]
         |intros (post' & Heq%app_inv_head & ? & ?); subst; congruence]).
    - split.
      + destruct (xorb _ _); [|done]. by rewrite rmatch_literal, Hs.
      + intros (post & -> & _).
        by rewrite (proj2 (starts_with_spec c (c ++ post))) in Hs by eauto. }
  split.
  - intros (pre & s & -> & (post & -> & ? & ?)%Hm). by exists pre, post.
  - intros (pre & post & -> & ? & ?). exists pre, (c ++ post).
    split; [done|]. apply Hm. by exists post.
Qed.

Lemma foldl_found (P : text → bool) (l : list text) (acc : gset (list N)) c :
  c ∈ foldl (λ found x, if P x then {[x]} ∪ found else found) acc l
  ↔ c ∈ acc ∨ (c ∈ l ∧ P c = true).
Proof.
  revert acc. induction l as [|x l IH]; intros acc; simpl.
  - split; [by left|]. by intros [?|[?%elem_of_nil _]].
  - rewrite IH, elem_of_cons. destruct (P x) eqn:Hx.
    + rewrite elem_of_union, elem_of_singleton.
      split; [intros [[->|?]|[? ?]]; auto|].
      intros [?|[[->|?] ?]]; auto.
    + split; [intros [?|[? ?]]; auto|].
      intros [?|[[->|?] ?]]; [auto|congruence|auto].
Qed.

Lemma CERTS_words c :
  c ∈ Actuarial.CERTS → c ≠ [] ∧ Forall (λ x, is_word U x = true) c.
Proof.
  unfold Actuarial.CERTS. cbn [map].
  rewrite !elem_of_cons, elem_of_nil.
  intros [->|[->|[->|[->|[->|[->|[]]]]]]]; (split; [done|]);
    repeat constructor.
Qed.

Lemma extract_certs_spec txt c :
  c ∈ Actuarial.extract_certs U txt ↔ c ∈ Actuarial.CERTS ∧ isolated U c txt.
Proof.
  unfold Actuarial.extract_certs.
  rewrite (sorted_perm _ _ text_compare_ordered), elem_of_elements.
  rewrite (foldl_found (λ c, re_found (Actuarial.cert_pattern U c) txt)).
  split.
  - intros [?%elem_of_empty|[Hc Hf]]; [done|]. split; [done|].
    destruct (CERTS_words c Hc). by apply cert_pattern_isolated.
  - intros [Hc Hi]. right. split; [done|].
    destruct (CERTS_words c Hc). by apply cert_pattern_isolated.
Qed.

Lemma foldl_append (P : text → bool) (l acc : list text) c :
  c ∈ foldl (λ found x, if P x then found ++ [x] else found) acc l
  ↔ c ∈ acc ∨ (c ∈ l ∧ P c = true).
Proof.
  revert acc. induction l as [|x l IH]; intros acc; simpl.
  - split; [by left|]. by intros [?|[?%elem_of_nil _]].
  - rewrite IH, elem_of_cons. destruct (P x) eqn:Hx.
    + rewrite elem_of_app, list_elem_of_singleton.
      split; [intros [[?| ->]|[? ?]]; auto|].
      intros [?|[[->|?] ?]]; auto.
    + split; [intros [?|[? ?]]; auto|].
      intros [?|[[->|?] ?]]; [auto|congruence|auto].
Qed.

Lemma extract_certifications_spec txt c :
  c ∈ JobScraper.extract_certifications txt
  ↔ c ∈ JobScraper.cert_keywords ∧ substring c txt.
Proof.
  unfold JobScraper.extract_certifications.
  rewrite (foldl_append (λ c, contains c txt)), contains_spec.
  split; [by intros [?%elem_of_nil|?]|by right].
Qed.

End certs.

(** [extract_certifications] returns EA for a text in which EA occurs only
    inside the word YEARS. *)
Lemma extract_certifications_inside_word :
  JobScraper.extract_certifications (u "5 YEARS of experience") = [u "EA"]
  ∧ ¬ isolated ascii_only (u "EA") (u "5 YEARS of experience").
Proof.
  split; [by vm_compute|].
  rewrite <- cert_pattern_isolated by (by repeat constructor).
  by vm_compute.
Qed.

(** C7 (amended).  [extract_certs] returns a certification code exactly when
    the code is in its list and occurs in the text as an exact, case-sensitive
    match with no word character right before or right after it; a code that
    occurs only in another letter case, or only inside a longer word, is not
    returned.  [extract_certifications] returns a code exactly when the code
    is in its list and occurs in the text as a case-sensitive substring: a
    code that occurs only in another letter case is not returned. *)
Theorem certifications_exact_case (U : unicode_tables) (txt c : text) :
  (c ∈ Actuarial.extract_certs U txt
   ↔ c ∈ Actuarial.CERTS ∧ isolated U c txt)
  ∧ (c ∈ JobScraper.extract_certifications txt
     ↔ c ∈ JobScraper.cert_keywords ∧ substring c txt).
Proof.
  split; [apply extract_certs_spec|apply extract_certifications_spec].
Qed.

Example certifications_exact_case_run :
  Actuarial.extract_certs ascii_only (u "5 YEARS, fsa or Asa") = []
  ∧ Actuarial.extract_certs ascii_only (u "FSA/ASA (EA) preferred")
    = [u "ASA"; u "EA"; u "FSA"]
  ∧ JobScraper.extract_certifications (u "fsa or Asa") = [].
Proof. by vm_compute. Qed.

(** ** The matcher on numerals *)

Lemma ascii_digit_cases c :
  ascii_digit c = true →
  c ∈ [48; 49; 50; 51; 52; 53; 54; 55; 56; 57]%N.
Proof.
  unfold ascii_digit, in_range.
  change (u "0") with [48%N]. change (u "9") with [57%N].
  intros [H1%N.leb_le H2%N.leb_le]%andb_true_iff.
  assert (c = 48 ∨ c = 49 ∨ c = 50 ∨ c = 51 ∨ c = 52 ∨ c = 53 ∨ c = 54
          ∨ c = 55 ∨ c = 56 ∨ c = 57)%N as Hc by lia.
  set_solver.
Qed.

(** A property that holds of every digit by computation. *)
Ltac by_digit H :=
  apply ascii_digit_cases in H;
  repeat (apply elem_of_cons in H as [->|H]; [reflexivity|]);
  by apply elem_of_nil in H.

Section numerals.
Context (U : unicode_tables).

Lemma decimal_value_digit c :
  ascii_digit c = true → decimal_value U c = Some (Z.of_N c - 48)%Z.
Proof.
  intros Hc. unfold decimal_value. fold (ascii_digit c). rewrite Hc.
  assert (is_ascii c = true) as -> by (by_digit Hc). done.
Qed.

Lemma is_digit_digit c : ascii_digit c = true → is_digit U c = true.
Proof. intros Hc. unfold is_digit. by rewrite decimal_value_digit. Qed.

Lemma digits_value_number acc s :
  Forall (λ c, ascii_digit c = true) s →
  digits_value U acc s
  = Some (fold_left (λ acc c, 10 * acc + (Z.of_N c - 48))%Z s acc).
Proof.
  revert acc. induction s as [|c s IH]; intros acc Hs; [done|].
  apply Forall_cons in Hs as [Hc Hs]. simpl.
  rewrite decimal_value_digit by done. by apply IH.
Qed.

Lemma decimal_number_numeral s :
  numeral s → decimal_number U s = Some (num_value s).
Proof.
  intros [Hne Hs]. unfold decimal_number. destruct s; [done|].
  by apply digits_value_number.
Qed.

Lemma py_int_numeral s :
  numeral s → (Z.of_nat (length s) ≤ int_max_str_digits)%Z →
  py_int U s = Some (num_value s).
Proof.
  intros Hs Hlen. unfold py_int.
  rewrite (proj2 (Z.leb_le _ _) Hlen). by apply decimal_number_numeral.
Qed.

Lemma py_int_long s :
  (int_max_str_digits < Z.of_nat (length s))%Z → py_int U s = None.
Proof.
  intros Hlen. unfold py_int. by rewrite (proj2 (Z.leb_gt _ _) Hlen).
Qed.

Lemma remove_char_numeral c s :
  ascii_digit c = false → Forall (λ c, ascii_digit c = true) s →
  remove_char c s = s.
Proof.
  intros Hc. induction 1 as [|x s Hx Hs IH]; [done|].
  unfold remove_char in *. simpl. rewrite IH.
  destruct (x =? c)%N eqn:Hxc; [|done].
  apply N.eqb_eq in Hxc. congruence.
Qed.

End numerals.

Section matcher_steps.
Context {R : Type}.
Implicit Types (k : option N → text → captures → option R).

Lemma rmatch_alt_l r1 r2 prev s caps k x :
  rmatch r1 prev s caps k = Some x → rmatch (Alt r1 r2) prev s caps k = Some x.
Proof. simpl. by intros ->. Qed.

Lemma rmatch_alt_r r1 r2 prev s caps k :
  rmatch r1 prev s caps k = None →
  rmatch (Alt r1 r2) prev s caps k = rmatch r2 prev s caps k.
Proof. simpl. by intros ->. Qed.

(** A sequence of character classes fails when the first character is not in
    the first class, or when the text is empty. *)
Lemma rmatch_classes_fail (f : N → N → bool) x l prev s caps k :
  match s with c :: _ => f x c = false | [] => True end →
  rmatch (Cat (map (λ c, Chr (f c)) (x :: l))) prev s caps k = None.
Proof. destruct s as [|c s]; simpl; [done|]. by intros ->. Qed.

(** A greedy repetition of a class takes a whole run of the class when the
    continuation accepts what follows. *)
Lemma rmatch_star_run p k prev run rest caps x :
  Forall (λ c, p c = true) run →
  match rest with c :: _ => p c = false | [] => True end →
  k (prev_after prev run) rest caps = Some x →
  rmatch (Star (Chr p)) prev (run ++ rest) caps k = Some x.
Proof.
  intros Hrun Hrest Hk. rewrite rmatch_star_class.
  apply star_class_run; [done|]. by rewrite star_class_stop.
Qed.

Lemma rmatch_plus_run p k prev run rest caps x :
  run ≠ [] → Forall (λ c, p c = true) run →
  match rest with c :: _ => p c = false | [] => True end →
  k (prev_after prev run) rest caps = Some x →
  rmatch (Plus (Chr p)) prev (run ++ rest) caps k = Some x.
Proof.
  intros Hne Hrun Hrest Hk. rewrite rmatch_plus_class.
  destruct run as [|c run]; [done|]. apply Forall_cons in Hrun as [Hc Hrun].
  cbn [app]. rewrite Hc.
  apply star_class_run; [done|]. rewrite star_class_stop by done.
  by rewrite <- (prev_after_cons prev).
Qed.

End matcher_steps.

Lemma take_app_rest {A} (a rest : list A) :
  take (length (a ++ rest) - length rest) (a ++ rest) = a.
Proof.
  rewrite length_app. replace (length a + length rest - length rest)
    with (length a) by lia. by rewrite take_app_length.
Qed.

Section matcher_steps2.
Context {R : Type}.
Implicit Types (k : option N → text → captures → option R).

Lemma rmatch_seq r1 r2 prev s caps k :
  rmatch (Seq r1 r2) prev s caps k
  = rmatch r1 prev s caps (λ prev' s' caps', rmatch r2 prev' s' caps' k).
Proof. done. Qed.

Lemma rmatch_group i r prev s caps k :
  rmatch (Group i r) prev s caps k
  = rmatch r prev s caps
      (λ prev' s' caps', k prev' s' ((i, take (length s - length s') s) :: caps')).
Proof. done. Qed.

Lemma rmatch_eps prev s caps k : rmatch Eps prev s caps k = k prev s caps.
Proof. done. Qed.

Lemma rmatch_opt_skip r prev s caps k :
  rmatch r prev s caps k = None → rmatch (Opt r) prev s caps k = k prev s caps.
Proof. unfold Opt. simpl. by intros ->. Qed.

Lemma search_from_here r prev s m :
  rmatch r prev s [] (λ _ s' caps, Some (caps, s')) = Some m →
  search_from r prev s = Some m.
Proof. destruct s; simpl; by intros ->. Qed.

Lemma rmatch_plus_end p k prev run caps x :
  run ≠ [] → Forall (λ c, p c = true) run →
  k (prev_after prev run) [] caps = Some x →
  rmatch (Plus (Chr p)) prev run caps k = Some x.
Proof.
  intros Hne Hrun Hk. rewrite <- (app_nil_r run) at 1.
  by apply rmatch_plus_run.
Qed.

End matcher_steps2.

Lemma take_all {A} (l : list A) : take (length l - length (@nil A)) l = l.
Proof. simpl. rewrite Nat.sub_0_r. apply firstn_all. Qed.

(** ** Salaries of [scrape_actuarial_jobs.py] *)

Section parse_salary_facts.
Context (U : unicode_tables).
Import Actuarial.

Lemma marker_skip {R} i prev c s caps
    (k : option N → text → captures → option R) :
  ascii_digit c = true →
  rmatch (Opt (Group i (Alt (lit "$")
                            (Cat [lit_i "USD"; Star (Chr is_space)]))))
         prev (c :: s) caps k
  = k prev (c :: s) caps.
Proof.
  intros Hc. apply rmatch_opt_skip. rewrite rmatch_group, rmatch_alt_r.
  - cbn [Cat foldr]. rewrite rmatch_seq. unfold lit_i.
    change (u "USD") with [85; 83; 68]%N.
    apply rmatch_classes_fail. by_digit Hc.
  - unfold lit. change (u "$") with [36%N].
    apply (rmatch_classes_fail N.eqb). by_digit Hc.
Qed.

Lemma amount_class_digit c :
  ascii_digit c = true → is_digit U c || (c =? 44)%N = true.
Proof. intros Hc. by rewrite is_digit_digit. Qed.

Lemma search_salary_range a b :
  numeral a → numeral b →
  search (salary_pattern U) (a ++ u " - " ++ b)
  = Some ([(4, b); (2, a)], []).
Proof.
  intros [Ha Hda] [Hb Hdb]. unfold search. apply search_from_here.
  destruct a as [|a0 a']; [done|]. destruct b as [|b0 b']; [done|].
  pose proof (Forall_inv Hda) as Ha0. pose proof (Forall_inv Hdb) as Hb0.
  unfold salary_pattern. cbn [Cat foldr].
  rewrite rmatch_seq. cbn [app]. rewrite marker_skip by done.
  rewrite rmatch_seq, rmatch_group.
  change (a0 :: a' ++ u " - " ++ b0 :: b')
    with ((a0 :: a') ++ 32%N :: 45%N :: 32%N :: b0 :: b').
  apply rmatch_plus_run; [done| |done|].
  { eapply Forall_impl; [exact Hda|]. apply amount_class_digit. }
  rewrite take_app_rest, rmatch_seq.
  apply (rmatch_star_run is_space _ _ [32%N]); [by repeat constructor|done|].
  rewrite rmatch_seq. apply rmatch_alt_l.
  unfold lit at 1. change (u "-") with [45%N].
  rewrite rmatch_literal. cbn [starts_with N.eqb Pos.eqb andb length drop].
  rewrite rmatch_seq.
  apply (rmatch_star_run is_space _ _ [32%N]); [by repeat constructor| |].
  { by_digit Hb0. }
  rewrite rmatch_seq, marker_skip by done.
  rewrite rmatch_seq, rmatch_group.
  apply rmatch_plus_end; [done| |].
  { eapply Forall_impl; [exact Hdb|]. apply amount_class_digit. }
  by rewrite take_all, rmatch_eps.
Qed.

Lemma parse_salary_range_eq a b :
  numeral a → numeral b →
  parse_salary U (a ++ u " - " ++ b)
  = if (Z.of_nat (length a) <=? int_max_str_digits)%Z
       && (Z.of_nat (length b) <=? int_max_str_digits)%Z
    then Some (mkSalary (Some (num_value a)) (Some (num_value b)) (u "USD"))
    else None.
Proof.
  intros Ha Hb. unfold parse_salary.
  rewrite search_salary_range by done.
  assert (nonempty (a ++ u " - " ++ b) = true) as ->
    by (destruct Ha as [Ha _]; by destruct a).
  cbn [negb group Nat.eqb default].
  rewrite !remove_char_numeral by (done || apply Ha || apply Hb).
  unfold id.
  destruct (Z.leb_spec (Z.of_nat (length a)) int_max_str_digits) as [Hla|Hla].
  - rewrite (py_int_numeral U a Ha Hla).
    destruct (Z.leb_spec (Z.of_nat (length b)) int_max_str_digits) as [Hlb|Hlb].
    + by rewrite (py_int_numeral U b Hb Hlb).
    + by rewrite (py_int_long U b Hlb).
  - by rewrite (py_int_long U a Hla).
Qed.

End parse_salary_facts.

(** ** Floats that hold an integer *)

Lemma round_half_even_1 n : round_half_even n 1 = n.
Proof.
  unfold round_half_even. rewrite Z.mod_1_r, Z.div_1_r. done.
Qed.

Lemma int_of_float_exact n :
  (0 ≤ n < 2 ^ 53)%Z → int_of_float (float_of_ratio n 1) = Some n.
Proof.
  intros [Hn0 Hn]. unfold float_of_ratio.
  destruct (n =? 0)%Z eqn:Hz.
  { apply Z.eqb_eq in Hz. subst n. done. }
  apply Z.eqb_neq in Hz.
  assert (0 < n)%Z as Hpos by lia.
  pose proof (Z.log2_spec n Hpos) as [Hlo Hhi].
  pose proof (Z.log2_nonneg n) as Hl0.
  assert (Z.log2 n < 53)%Z as Hl by (apply Z.log2_lt_pow2; lia).
  change (Z.log2 1) with 0%Z. rewrite Z.sub_0_r.
  destruct (Z.leb_spec 0 (Z.log2 n)) as [_|?]; [|lia].
  rewrite Z.mul_1_l. destruct (Z.leb_spec (2 ^ Z.log2 n) n) as [_|?]; [|lia].
  rewrite Z.max_l by lia.
  destruct (Z.leb_spec 0 (Z.log2 n - 52)) as [He|He].
  - assert (Z.log2 n = 52)%Z as Hl52 by lia. rewrite Hl52.
    change (52 - 52)%Z with 0%Z. change (1 * 2 ^ 0)%Z with 1%Z.
    rewrite round_half_even_1. cbn [andb].
    destruct (Z.leb_spec (2 ^ 1024) (n * 2 ^ 0)) as [Hbig|_].
    + exfalso. rewrite Z.pow_0_r, Z.mul_1_r in Hbig.
      assert (2 ^ 53 < 2 ^ 1024)%Z by (by apply Z.pow_lt_mono_r). lia.
    + simpl. f_equal. lia.
  - rewrite round_half_even_1. cbn [andb int_of_float].
    destruct (Z.leb_spec 0 (Z.log2 n - 52)) as [?|_]; [lia|].
    f_equal. apply Z.div_mul.
    apply Z.pow_nonzero; lia.
Qed.

(** ** Salaries of [job_scraper.py] *)

Lemma number_nonneg_from acc s :
  Forall (λ c, ascii_digit c = true) s → (0 ≤ acc)%Z →
  (0 ≤ fold_left (λ acc c, 10 * acc + (Z.of_N c - 48)) s acc)%Z.
Proof.
  revert acc. induction s as [|c s IH]; intros acc Hs Hacc; [done|].
  apply Forall_cons in Hs as [Hc Hs]. simpl. apply IH; [done|].
  assert (48 ≤ Z.of_N c)%Z; [|lia].
  apply ascii_digit_cases in Hc.
  repeat (apply elem_of_cons in Hc as [->|Hc]; [done|]).
  by apply elem_of_nil in Hc.
Qed.

Lemma number_nonneg s : numeral s → (0 ≤ num_value s)%Z.
Proof. intros [_ Hs]. by apply number_nonneg_from. Qed.

Section extract_salary_facts.
Context (U : unicode_tables).
Import JobScraper.

Lemma split_point_numeral s :
  Forall (λ c, ascii_digit c = true) s → split_point s = (s, None).
Proof.
  induction 1 as [|c s Hc Hs IH]; [done|]. simpl. rewrite IH.
  assert ((c =? 46)%N = false) as -> by (by_digit Hc). done.
Qed.

Lemma py_float_numeral s :
  numeral s → py_float U s = Some (float_of_ratio (num_value s) 1).
Proof.
  intros Hs. unfold py_float. rewrite split_point_numeral by apply Hs.
  by rewrite decimal_number_numeral.
Qed.

Lemma unit1_fail {R} prev s caps (k : option N → text → captures → option R) :
  match s with
  | c :: _ => ci 76 c = false ∧ ci 75 c = false
  | [] => True
  end →
  rmatch unit1 prev s caps k = None.
Proof.
  intros Hs. unfold unit1. cbn [Alts]. unfold lit_i.
  change (u "L") with [76%N]. change (u "Lakh") with [76; 97; 107; 104]%N.
  change (u "Lakhs") with [76; 97; 107; 104; 115]%N.
  change (u "LPA") with [76; 80; 65]%N. change (u "K") with [75%N].
  rewrite !rmatch_alt_r; try apply rmatch_classes_fail;
    destruct s as [|c s]; by try destruct Hs.
Qed.

Lemma fraction_skip {R} prev s caps
    (k : option N → text → captures → option R) :
  match s with c :: _ => (46 =? c)%N = false | [] => True end →
  rmatch (Opt (Cat [lit "."; Plus (Chr (is_digit U))])) prev s caps k
  = k prev s caps.
Proof.
  intros Hs. apply rmatch_opt_skip. cbn [Cat foldr]. rewrite rmatch_seq.
  unfold lit. change (u ".") with [46%N].
  by apply (rmatch_classes_fail N.eqb).
Qed.

(** [number] takes a whole numeral when the continuation accepts the rest,
    which starts with neither a digit nor a point. *)
Lemma rmatch_number {R} prev a rest caps
    (k : option N → text → captures → option R) x :
  numeral a →
  match rest with
  | c :: _ => is_digit U c = false ∧ (46 =? c)%N = false
  | [] => True
  end →
  k (prev_after prev a) rest caps = Some x →
  rmatch (number U) prev (a ++ rest) caps k = Some x.
Proof.
  intros [Hne Ha] Hrest Hk. unfold number. cbn [Cat foldr].
  rewrite rmatch_seq. apply rmatch_plus_run; [done| | |].
  - eapply Forall_impl; [exact Ha|]. apply is_digit_digit.
  - destruct rest; [done|]. apply Hrest.
  - rewrite rmatch_seq, fraction_skip, rmatch_eps; [done|].
    destruct rest; [done|]. apply Hrest.
Qed.

Lemma search_rupee_range a b :
  numeral a → numeral b →
  search (pattern1 U) (u "₹" ++ a ++ u " - ₹" ++ b)
  = Some ([(2, b); (1, a)], []).
Proof.
  intros Ha Hb. unfold search. apply search_from_here.
  pose proof Ha as [Hane Hda]. pose proof Hb as [Hbne Hdb].
  assert (Ha0 : match a with c :: _ => ascii_digit c = true | [] => True end)
    by (destruct a; [done|by apply Forall_inv in Hda]).
  assert (Hb0 : match b with c :: _ => ascii_digit c = true | [] => True end)
    by (destruct b; [done|by apply Forall_inv in Hdb]).
  set (rest := [32; 45; 32; 8377]%N ++ b).
  change (u "₹" ++ a ++ u " - ₹" ++ b) with ([8377%N] ++ a ++ rest).
  unfold pattern1, sp. cbn [Cat foldr].
  rewrite rmatch_seq.
  apply rmatch_plus_run; [done|by repeat constructor| |].
  { destruct a as [|a0 a']; [done|]. cbn [app]. by_digit Ha0. }
  rewrite rmatch_seq.
  apply (rmatch_star_run is_space _ _ [] (a ++ rest)); [constructor| |].
  { destruct a as [|a0 a']; [done|]. cbn [app]. by_digit Ha0. }
  rewrite rmatch_seq, rmatch_group.
  apply rmatch_number; [done|by vm_compute|].
  rewrite take_app_rest, rmatch_seq.
  apply (rmatch_star_run is_space _ _ [32%N] ([45; 32; 8377]%N ++ b));
    [by repeat constructor|done|].
  rewrite rmatch_seq, rmatch_opt_skip by (by apply unit1_fail).
  rewrite rmatch_seq.
  apply (rmatch_star_run is_space _ _ [] ([45; 32; 8377]%N ++ b));
    [constructor|done|].
  rewrite rmatch_seq.
  unfold lit at 1. change (u "-") with [45%N].
  rewrite rmatch_literal.
  change (starts_with [45%N] ([45; 32; 8377]%N ++ b)) with true.
  change (drop (length [45%N]) ([45; 32; 8377]%N ++ b))
    with ([32%N] ++ [8377%N] ++ b).
  cbv iota. rewrite rmatch_seq.
  apply rmatch_star_run; [by repeat constructor|done|].
  rewrite rmatch_seq.
  apply rmatch_star_run; [by repeat constructor| |].
  { destruct b as [|b0 b']; [done|]. by_digit Hb0. }
  rewrite rmatch_seq.
  apply (rmatch_star_run is_space _ _ [] b); [constructor| |].
  { destruct b as [|b0 b']; [done|]. by_digit Hb0. }
  rewrite rmatch_seq, rmatch_group.
  rewrite <- (app_nil_r b) at 1.
  apply rmatch_number; [done|done|].
  rewrite take_all, rmatch_seq.
  apply (rmatch_star_run is_space _ _ [] []); [constructor|done|].
  rewrite rmatch_seq, rmatch_opt_skip, rmatch_eps; [done|].
  rewrite rmatch_group. by apply unit1_fail.
Qed.

Lemma extract_salary_rupee_range_eq a b :
  numeral a → numeral b →
  (num_value a < 2 ^ 53)%Z → (num_value b < 2 ^ 53)%Z →
  extract_salary U (u "₹" ++ a ++ u " - ₹" ++ b)
  = Some (Some (if (num_value b <? 50000)%Z
                then INR (num_value a * 12) (num_value b * 12)
                else INR (num_value a) (num_value b))).
Proof.
  intros Ha Hb Hna Hnb. unfold extract_salary.
  assert (remove_char 44 (u "₹" ++ a ++ u " - ₹" ++ b)
          = u "₹" ++ a ++ u " - ₹" ++ b) as ->.
  { unfold remove_char. rewrite !List.filter_app.
    fold (remove_char 44 a). fold (remove_char 44 b).
    rewrite !remove_char_numeral by (done || apply Ha || apply Hb). done. }
  rewrite search_rupee_range by done.
  unfold range1. cbn [group Nat.eqb default].
  rewrite !py_float_numeral by done. cbn [mbind option_bind].
  cbn [nonempty andb].
  rewrite !int_of_float_exact
    by (split; [by apply number_nonneg|done]).
  unfold id. cbn -[num_value Z.mul Z.ltb INR].
  by destruct (num_value b <? 50000)%Z.
Qed.

End extract_salary_facts.

(** * Further properties of the scripts *)

(** X1.  [parse_salary] reads a range of two numerals, "A - B", in the order
    of the text: the first number becomes [min] and the second [max], also
    when the first is the larger one.  This holds when neither numeral has
    more than 4300 digits; a longer one makes [int] raise, and the result
    is [None]. *)
Theorem parse_salary_range (U : unicode_tables) (a b : text) :
  numeral a → numeral b →
  Actuarial.parse_salary U (a ++ u " - " ++ b)
  = if (Z.of_nat (length a) <=? int_max_str_digits)%Z
       && (Z.of_nat (length b) <=? int_max_str_digits)%Z
    then Some (mkSalary (Some (num_value a)) (Some (num_value b)) (u "USD"))
    else None.
Proof. apply parse_salary_range_eq. Qed.

Lemma parse_salary_range_witness :
  Actuarial.parse_salary ascii_only (u "120000" ++ u " - " ++ u "90000")
  = Some (mkSalary (Some 120000%Z) (Some 90000%Z) (u "USD")).
Proof.
  apply (parse_salary_range ascii_only (u "120000") (u "90000"));
    (split; [done|by repeat constructor]).
Defined.

(** X2.  [extract_salary] on a range "₹A - ₹B" of two numerals (below 2^53,
    so that the floats hold them exactly) returns the two numbers in INR,
    both multiplied by 12 exactly when B is below 50000. *)
Theorem extract_salary_rupee_range (U : unicode_tables) (a b : text) :
  numeral a → numeral b →
  (num_value a < 2 ^ 53)%Z → (num_value b < 2 ^ 53)%Z →
  JobScraper.extract_salary U (u "₹" ++ a ++ u " - ₹" ++ b)
  = Some (Some (if (num_value b <? 50000)%Z
                then JobScraper.INR (num_value a * 12) (num_value b * 12)
                else JobScraper.INR (num_value a) (num_value b))).
Proof. apply extract_salary_rupee_range_eq. Qed.

Lemma extract_salary_rupee_range_witness :
  JobScraper.extract_salary ascii_only (u "₹" ++ u "20000" ++ u " - ₹" ++ u "40000")
  = Some (Some (JobScraper.INR 240000 480000)).
Proof.
  apply (extract_salary_rupee_range ascii_only (u "20000") (u "40000"));
    try (split; [done|by repeat constructor]); by vm_compute.
Defined.

(** ** What a match hands to its continuation *)

Section continues.
Context {R : Type}.
Implicit Types (k : option N → text → captures → option R).


Lemma star_loop_continues r fuel prev s caps k x :
  continues (R:=R) r →
  star_loop (rmatch r) k fuel prev s caps = Some x →
  ∃ prev' s' ext,
    s' `suffix_of` s ∧ Forall (λ e, e.1 ∈ groups r) ext
    ∧ k prev' s' (ext ++ caps) = Some x.
Proof.
  intros Hr. revert prev s caps.
  induction fuel as [|fuel IH]; intros prev s caps; simpl.
  - intros Hk. by exists prev, s, [].
  - destruct (rmatch r prev s caps _) as [y|] eqn:Hm.
    + intros [= ->]. apply Hr in Hm as (prev1 & s1 & ext1 & Hs1 & He1 & Hk1).
      destruct (length s1 <? length s); [|done].
      apply IH in Hk1 as (prev2 & s2 & ext2 & Hs2 & He2 & Hk2).
      exists prev2, s2, (ext2 ++ ext1). split; [by etrans|].
      split; [by apply Forall_app|]. by rewrite <- app_assoc.
    + intros Hk. by exists prev, s, [].
Qed.

Lemma rmatch_continues r : continues (R:=R) r.
Proof.
  induction r as [|p|r1 IH1 r2 IH2|r1 IH1 r2 IH2|r IH|i r IH|w];
    intros prev s caps k x; simpl.
  - intros Hk. by exists prev, s, [].
  - destruct s as [|c s]; [done|]. destruct (p c); [|done].
    intros Hk. exists (Some c), s, []. split; [by apply suffix_cons_r|done].
  - intros (prev1 & s1 & ext1 & Hs1 & He1 & Hk1)%IH1.
    apply IH2 in Hk1 as (prev2 & s2 & ext2 & Hs2 & He2 & Hk2).
    exists prev2, s2, (ext2 ++ ext1). split; [by etrans|].
    split; [|by rewrite <- app_assoc].
    apply Forall_app. split; (eapply Forall_impl; [done|]);
      intros e He; apply elem_of_app; auto.
  - destruct (rmatch r1 prev s caps k) as [y|] eqn:Hm.
    + intros [= ->]. apply IH1 in Hm as (prev1 & s1 & ext1 & Hs1 & He1 & Hk1).
      exists prev1, s1, ext1. split; [done|]. split; [|done].
      eapply Forall_impl; [done|]. intros e He. apply elem_of_app; auto.
    + intros (prev1 & s1 & ext1 & Hs1 & He1 & Hk1)%IH2.
      exists prev1, s1, ext1. split; [done|]. split; [|done].
      eapply Forall_impl; [done|]. intros e He. apply elem_of_app; auto.
  - by apply star_loop_continues.
  - intros (prev1 & s1 & ext1 & Hs1 & He1 & Hk1)%IH.
    exists prev1, s1, ((i, take (length s - length s1) s) :: ext1).
    split; [done|]. split; [|done].
    constructor; [by apply elem_of_cons; left|].
    eapply Forall_impl; [done|]. intros e He. by apply elem_of_cons; right.
  - destruct (xorb _ _); [|done]. intros Hk. by exists prev, s, [].
Qed.

(** A repeated class consumes a non-empty run of the class. *)
Lemma star_class_continues p k prev s caps x :
  star_class p k prev s caps = Some x →
  ∃ run rest prev', s = run ++ rest ∧ Forall (λ c, p c = true) run
                    ∧ k prev' rest caps = Some x.
Proof.
  revert prev. induction s as [|c s IH]; intros prev; simpl.
  - intros Hk. by exists [], [], prev.
  - destruct (p c) eqn:Hc; [|intros Hk; by exists [], (c :: s), prev].
    destruct (star_class p k (Some c) s caps) as [y|] eqn:Hs.
    + intros [= ->]. apply IH in Hs as (run & rest & prev' & -> & Hrun & Hk).
      exists (c :: run), rest, prev'. split; [done|]. split; [|done].
      by constructor.
    + intros Hk. by exists [], (c :: s), prev.
Qed.

Lemma plus_class_continues p k prev s caps x :
  rmatch (Plus (Chr p)) prev s caps k = Some x →
  ∃ run rest prev', s = run ++ rest ∧ run ≠ []
                    ∧ Forall (λ c, p c = true) run
                    ∧ k prev' rest caps = Some x.
Proof.
  rewrite rmatch_plus_class. destruct s as [|c s]; [done|].
  destruct (p c) eqn:Hc; [|done].
  intros (run & rest & prev' & -> & Hrun & Hk)%star_class_continues.
  exists (c :: run), rest, prev'. split; [done|]. split; [done|].
  split; [by constructor|done].
Qed.

End continues.

(** [re.search] reports a match of the pattern at a suffix of the text. *)
Lemma search_from_suffix r prev s m :
  search_from r prev s = Some m →
  ∃ prev' s', s' `suffix_of` s
              ∧ rmatch r prev' s' [] (λ _ s' caps, Some (caps, s')) = Some m.
Proof.
  revert prev. induction s as [|c s IH]; intros prev; simpl.
  - destruct (rmatch r prev [] [] _) eqn:Hm; [|done].
    intros [= ->]. by exists prev, [].
  - destruct (rmatch r prev (c :: s) [] _) eqn:Hm.
    + intros [= ->]. by exists prev, (c :: s).
    + intros (prev' & s' & Hs & Hm')%IH. exists prev', s'.
      split; [by apply suffix_cons_r|done].
Qed.

Lemma group_skip i ext caps :
  Forall (λ e : nat * text, e.1 ≠ i) ext → group i (ext ++ caps) = group i caps.
Proof.
  induction 1 as [|[j g] ext Hj Hext IH]; [done|]. simpl in *.
  destruct (Nat.eqb_spec j i); [done|]. apply IH.
Qed.

(** ** Patterns that cannot match *)

Lemma fails_seq_l t r1 r2 : fails_on t r1 → fails_on t (Seq r1 r2).
Proof. intros H R prev s caps k Hs. rewrite rmatch_seq. by apply H. Qed.

Lemma fails_seq_r t r1 r2 : fails_on t r2 → fails_on t (Seq r1 r2).
Proof.
  intros H R prev s caps k Hs. rewrite rmatch_seq.
  destruct (rmatch r1 prev s caps _) as [x|] eqn:Hm; [|done].
  apply rmatch_continues in Hm as (prev' & s' & ext & Hs' & _ & Hk).
  rewrite H in Hk; [done|by etrans].
Qed.

Lemma fails_group t i r : fails_on t r → fails_on t (Group i r).
Proof. intros H R prev s caps k Hs. rewrite rmatch_group. by apply H. Qed.

Lemma fails_plus_class t p :
  Forall (λ c, p c = false) t → fails_on t (Plus (Chr p)).
Proof.
  intros Ht R prev s caps k [pre ->]. rewrite rmatch_plus_class.
  destruct s as [|c s]; [done|].
  apply Forall_app in Ht as [_ Ht]. apply Forall_inv in Ht. by rewrite Ht.
Qed.

Lemma fails_search t r : fails_on t r → search r t = None.
Proof.
  intros H. unfold search. destruct (search_from r None t) as [m|] eqn:Hm; [|done].
  apply search_from_suffix in Hm as (prev' & s' & Hs & Hm).
  by rewrite H in Hm.
Qed.

Section no_digit.
Context (U : unicode_tables).

Lemma fails_number t :
  Forall (λ c, is_digit U c = false) t → fails_on t (JobScraper.number U).
Proof.
  intros Ht. unfold JobScraper.number. cbn [Cat foldr].
  by apply fails_seq_l, fails_plus_class.
Qed.

Lemma extract_salary_no_digit t :
  Forall (λ c, is_digit U c = false) t →
  JobScraper.extract_salary U t = Some None.
Proof.
  intros Ht. unfold JobScraper.extract_salary.
  assert (Ht' : Forall (λ c, is_digit U c = false) (remove_char 44 t)).
  { unfold remove_char. apply Forall_forall. intros c Hc%list_elem_of_In.
    apply List.filter_In in Hc as [Hc%list_elem_of_In _].
    by apply (proj1 (Forall_forall _ _) Ht). }
  pose proof (fails_number _ Ht') as Hn.
  rewrite !fails_search; [done| | |].
  - unfold JobScraper.pattern3. cbn [Cat foldr].
    by apply fails_seq_r, fails_seq_r, fails_seq_l, fails_group.
  - unfold JobScraper.pattern2. cbn [Cat foldr].
    by apply fails_seq_l, fails_group.
  - unfold JobScraper.pattern1. cbn [Cat foldr].
    by apply fails_seq_r, fails_seq_r, fails_seq_l, fails_group.
Qed.

(** In [parse_salary] the first amount is a run of digits and commas of the
    text; without digits it is a run of commas, which [int] rejects. *)
Lemma parse_salary_no_digit t :
  Forall (λ c, is_digit U c = false) t → Actuarial.parse_salary U t = None.
Proof.
  intros Ht. unfold Actuarial.parse_salary.
  destruct (negb (nonempty t)); [done|].
  destruct (search (Actuarial.salary_pattern U) t) as [[m rest]|] eqn:Hs;
    [|done].
  unfold search in Hs.
  apply search_from_suffix in Hs as (prev1 & s1 & [pre1 ->] & Hm).
  unfold Actuarial.salary_pattern in Hm. cbn [Cat foldr] in Hm.
  rewrite rmatch_seq in Hm.
  apply rmatch_continues in Hm as (prev2 & s2 & ext2 & [pre2 ->] & _ & Hm).
  rewrite rmatch_seq, rmatch_group in Hm.
  apply plus_class_continues
    in Hm as (run & rest2 & prev3 & -> & Hne & Hrun & Hm).
  rewrite take_app_rest in Hm.
  apply rmatch_continues in Hm as (prev4 & s4 & ext4 & _ & Hext & Hm).
  injection Hm as <- _.
  rewrite group_skip.
  2: { eapply Forall_impl; [exact Hext|]. intros [j g]. simpl.
       match goal with |- j ∈ ?l → _ =>
         let l' := eval vm_compute in l in change l with l' end.
       rewrite !elem_of_cons, elem_of_nil. intros [?|[?|[]]]; lia. }
  cbn [group Nat.eqb default]. unfold id.
  assert (remove_char 44 run = []) as ->; [|done].
  unfold remove_char.
  rewrite !Forall_app in Ht. destruct Ht as (_ & _ & Hrun' & _).
  clear -Hrun Hrun'. induction run as [|c run IH]; [done|].
  apply Forall_cons in Hrun as [Hc Hrun], Hrun' as [Hc' Hrun'].
  simpl. rewrite Hc' in Hc. simpl in Hc. rewrite Hc. simpl. by apply IH.
Qed.

End no_digit.

(** X3.  A text without any digit gives no salary: [extract_salary] returns
    [None] and raises nothing. *)
Theorem extract_salary_needs_digit (U : unicode_tables) (t : text) :
  Forall (λ c, is_digit U c = false) t →
  JobScraper.extract_salary U t = Some None.
Proof. apply extract_salary_no_digit. Qed.

Lemma extract_salary_needs_digit_witness :
  JobScraper.extract_salary ascii_only (u "Rs. best in industry, LPA") = Some None.
Proof.
  apply (extract_salary_needs_digit ascii_only).
  apply Forall_forall. intros c Hc. apply list_elem_of_In in Hc.
  vm_compute in Hc. intuition (subst; reflexivity).
Defined.

(** X4.  [parse_salary] returns [None] for every text without a digit, also
    when the pattern matches on runs of commas ([int] of the empty string
    raises, which is caught). *)
Theorem parse_salary_needs_digit (U : unicode_tables) (t : text) :
  Forall (λ c, is_digit U c = false) t → Actuarial.parse_salary U t = None.
Proof. apply parse_salary_no_digit. Qed.

Lemma parse_salary_needs_digit_witness :
  Actuarial.parse_salary ascii_only (u "pay: , - , negotiable") = None.
Proof.
  apply (parse_salary_needs_digit ascii_only).
  apply Forall_forall. intros c Hc. apply list_elem_of_In in Hc.
  vm_compute in Hc. intuition (subst; reflexivity).
Defined.

(** ** The filters of [matches_filters] *)

Section filters.
Context (U : unicode_tables).
Import Actuarial.

Lemma matches_filters_spec job keywords locations remote_only :
  matches_filters U job keywords locations remote_only = true
  ↔ (keywords = []
     ∨ mentions_keyword U keywords (j_title job) (j_company job)
         (j_description job))
    ∧ (locations = []
       ∨ ∃ l, l ∈ locations
              ∧ substring (lower U l) (lower U (j_location job)))
    ∧ (remote_only = true
       → substring (u "remote") (lower U (j_location job))).
Proof.
  unfold matches_filters, mentions_keyword.
  set (t := lower U (j_title job ++ u " " ++ j_company job ++ u " "
                     ++ j_description job)).
  set (loc := lower U (j_location job)).
  assert (Hk : ∀ ks, existsb (λ k, contains (lower U k) t) ks = true
                     ↔ ∃ k, k ∈ ks ∧ substring (lower U k) t).
  { intros ks. rewrite existsb_exists.
    by setoid_rewrite contains_spec; setoid_rewrite list_elem_of_In. }
  assert (Hl : ∀ ls, existsb (λ l, contains (lower U l) loc) ls = true
                     ↔ ∃ l, l ∈ ls ∧ substring (lower U l) loc).
  { intros ls. rewrite existsb_exists.
    by setoid_rewrite contains_spec; setoid_rewrite list_elem_of_In. }
  rewrite <- Hk, <- Hl, <- contains_spec.
  destruct keywords as [|k ks], locations as [|l ls], remote_only;
    cbn [nonempty_list andb negb];
    repeat match goal with
      | |- context [existsb ?f ?l] => destruct (existsb f l)
      | |- context [contains ?p ?s] => destruct (contains p s)
      end; cbn [negb andb]; naive_solver.
Qed.

End filters.

(** ** The records emitted by the adapters of [scrape_actuarial_jobs.py] *)

Lemma for_each_unchanged {S A} (xs : list A) (body : A → M S unit) :
  (∀ x s, (body x s).2 = s) → ∀ s, (for_each xs body s).2 = s.
Proof.
  intros Hb. induction xs as [|x xs IH]; intros s; [done|].
  simpl. unfold bind. specialize (Hb x s).
  destruct (body x s) as [[[]|] s']; simpl in *; subst; [apply IH|done].
Qed.

Section actuarial_emitted.
Import Actuarial.
Context (U : unicode_tables).
Context (fetch : request → option soup) (urljoin : text → text → option text).
Context (keywords locations : list text) (remote_only : bool).

Local Notation ok := (Forall (emitted U keywords locations remote_only)).

Lemma emit_emitted title company location desc sal exp job_url source featured :
  nonempty title = true → nonempty company = true →
  u source ∈ [u "SOA"; u "CAS"; u "Indeed"] →
  preserved ok
    (emit U keywords locations remote_only title company location desc sal exp
          job_url source featured).
Proof.
  intros Ht Hc Hs. unfold emit. destruct (matches_filters _ _ _ _ _) eqn:Hm.
  - apply preserved_modify. intros jobs Hjobs.
    apply Forall_app. split; [done|]. constructor; [|constructor].
    by repeat split.
  - apply preserved_ret.
Qed.

Lemma safe_urljoin_any {S} (I : S → Prop) base href :
  preserved I (safe_urljoin urljoin base href).
Proof.
  unfold safe_urljoin. destruct href as [h|]; [|apply preserved_ret].
  destruct (nonempty h); [apply preserved_or_raise|apply preserved_ret].
Qed.

Lemma scrape_soa_emitted max_pages :
  ok (scrape_soa U fetch urljoin keywords locations remote_only max_pages).
Proof.
  unfold scrape_soa. apply preserved_for_each; [|constructor].
  intros page. apply preserved_try, preserved_bind; [apply preserved_or_raise|].
  intros page_soup. apply preserved_for_each. intros el.
  unfold soa_listing. apply preserved_bind; [apply safe_urljoin_any|].
  intros job_url.
  destruct (nonempty (text_of el _)) eqn:Ht; [|apply preserved_ret].
  destruct (nonempty (text_of el ".company-name, .text-muted, .company"))
    eqn:Hc; [|apply preserved_ret].
  apply emit_emitted; [done|done|]. apply elem_of_cons. by left.
Qed.

Lemma scrape_cas_emitted max_pages :
  ok (scrape_cas U fetch urljoin keywords locations remote_only max_pages).
Proof.
  unfold scrape_cas. apply preserved_try; [|constructor].
  apply preserved_bind; [apply preserved_or_raise|].
  intros page_soup. apply preserved_for_each. intros el.
  unfold cas_item. apply preserved_bind; [apply safe_urljoin_any|].
  intros job_url.
  destruct (nonempty (text_of el ".job-title, h3, a")) eqn:Ht;
    [|apply preserved_ret].
  apply emit_emitted; [done| |].
  - by destruct (nonempty (text_of el ".employer-name")) eqn:Hc.
  - apply elem_of_cons. right. apply elem_of_cons. by left.
Qed.

Lemma scrape_indeed_emitted max_pages :
  ok (scrape_indeed U fetch urljoin keywords locations remote_only max_pages).
Proof.
  unfold scrape_indeed. apply preserved_for_each; [|constructor].
  intros loc. apply preserved_for_each. intros page.
  apply preserved_try, preserved_bind; [apply preserved_or_raise|].
  intros page_soup. apply preserved_for_each. intros el.
  unfold indeed_card. apply preserved_bind; [apply safe_urljoin_any|].
  intros job_url.
  match goal with |- context [negb (nonempty ?t) || _] =>
    destruct (nonempty t) eqn:Ht; [|apply preserved_ret] end.
  destruct (nonempty (text_of el ".companyName, .company")) eqn:Hc;
    [|apply preserved_ret].
  apply emit_emitted; [done|done|].
  apply elem_of_cons. right. apply elem_of_cons. right.
  apply elem_of_cons. by left.
Qed.

Lemma adapters_emitted max_pages :
  ok (scrape_soa U fetch urljoin keywords locations remote_only max_pages
      ++ scrape_cas U fetch urljoin keywords locations remote_only max_pages
      ++ scrape_indeed U fetch urljoin keywords locations remote_only
           max_pages).
Proof.
  rewrite !Forall_app. split; [apply scrape_soa_emitted|].
  split; [apply scrape_cas_emitted|apply scrape_indeed_emitted].
Qed.

(** When every request fails, every adapter returns the empty list. *)
Lemma adapters_offline max_pages :
  (∀ r, fetch r = None) →
  scrape_soa U fetch urljoin keywords locations remote_only max_pages = []
  ∧ scrape_cas U fetch urljoin keywords locations remote_only max_pages = []
  ∧ scrape_indeed U fetch urljoin keywords locations remote_only max_pages = [].
Proof.
  intros Hf. split; [|split].
  - unfold scrape_soa. apply for_each_unchanged. intros page s.
    unfold try_, bind, fetch_page. simpl. by rewrite Hf.
  - unfold scrape_cas, try_, bind, fetch_page. simpl. by rewrite Hf.
  - unfold scrape_indeed. apply for_each_unchanged. intros loc s.
    apply for_each_unchanged. intros page s'.
    unfold try_, bind, fetch_page. simpl. by rewrite Hf.
Qed.

End actuarial_emitted.

(** X5.  [matches_filters] accepts a record exactly when each of its three
    filters does: the keyword list is empty or one keyword occurs, without
    regard to case, in title, company and description; the location list is
    empty or one of its entries occurs in the location; and, when
    [remote_only] is set, the location contains "remote". *)
Theorem matches_filters_characterized (U : unicode_tables) (job : Job)
    (keywords locations : list text) (remote_only : bool) :
  Actuarial.matches_filters U job keywords locations remote_only = true
  ↔ (keywords = []
     ∨ mentions_keyword U keywords (j_title job) (j_company job)
         (j_description job))
    ∧ (locations = []
       ∨ ∃ l, l ∈ locations
              ∧ substring (lower U l) (lower U (j_location job)))
    ∧ (remote_only = true
       → substring (u "remote") (lower U (j_location job))).
Proof. apply matches_filters_spec. Qed.

(** X6.  Every record emitted by [scrape_soa], [scrape_cas] or
    [scrape_indeed] has a non-empty title and company, bears the id that
    [gen_id] gives to its title, company, location and url, has its url as
    apply link, and lists the skills and certifications found in its
    description. *)
Theorem adapters_records_well_formed
    (U : unicode_tables) (fetch : request → option soup)
    (urljoin : text → text → option text) (keywords locations : list text)
    (remote_only : bool) (max_pages : Z) (j : Job) :
  j ∈ Actuarial.scrape_soa U fetch urljoin keywords locations remote_only
        max_pages
      ++ Actuarial.scrape_cas U fetch urljoin keywords locations remote_only
           max_pages
      ++ Actuarial.scrape_indeed U fetch urljoin keywords locations remote_only
           max_pages →
  j_title j ≠ [] ∧ j_company j ≠ []
  ∧ j_id j = Actuarial.gen_id (j_title j) (j_company j) (j_location j) (j_url j)
  ∧ j_apply_url j = Some (j_url j)
  ∧ j_skills j = Actuarial.extract_skills U (j_description j)
  ∧ j_certifications j = Actuarial.extract_certs U (j_description j)
  ∧ j_source j ∈ [u "SOA"; u "CAS"; u "Indeed"].
Proof.
  intros Hj.
  pose proof (adapters_emitted U fetch urljoin keywords locations remote_only
                max_pages) as Hall.
  apply (proj1 (Forall_forall _ _) Hall) in Hj
    as (Ht & Hc & Hid & Ha & Hs & Hce & Hso & _).
  repeat split; try done.
  - by destruct (j_title j).
  - by destruct (j_company j).
Qed.

Lemma adapters_records_well_formed_witness :
  ∃ j, Actuarial.scrape_soa ascii_only Site.fetch Site.urljoin [u "actuary"]
         [] false 1 = [j]
       ∧ j_title j ≠ [] ∧ j_company j ≠ [].
Proof.
  eexists. split; [vm_compute; reflexivity|].
  match goal with |- j_title ?j ≠ [] ∧ _ =>
    destruct (adapters_records_well_formed ascii_only Site.fetch Site.urljoin
                [u "actuary"] [] false 1 j) as (Ht & Hc & _) end.
  - vm_compute. apply list_elem_of_here.
  - by split.
Defined.

(** X7.  The location filters hold of everything the adapters emit: with a
    non-empty location list the location of every emitted record contains
    one of its entries, and with [remote_only] it contains "remote". *)
Theorem adapters_filter_locations
    (U : unicode_tables) (fetch : request → option soup)
    (urljoin : text → text → option text) (keywords locations : list text)
    (remote_only : bool) (max_pages : Z) (j : Job) :
  j ∈ Actuarial.scrape_soa U fetch urljoin keywords locations remote_only
        max_pages
      ++ Actuarial.scrape_cas U fetch urljoin keywords locations remote_only
           max_pages
      ++ Actuarial.scrape_indeed U fetch urljoin keywords locations remote_only
           max_pages →
  (locations = []
   ∨ ∃ l, l ∈ locations ∧ substring (lower U l) (lower U (j_location j)))
  ∧ (remote_only = true → substring (u "remote") (lower U (j_location j))).
Proof.
  intros Hj.
  pose proof (adapters_emitted U fetch urljoin keywords locations remote_only
                max_pages) as Hall.
  apply (proj1 (Forall_forall _ _) Hall) in Hj as (_ & _ & _ & _ & _ & _ & _ & Hm).
  apply matches_filters_spec in Hm as (_ & Hl & Hr). by split.
Qed.

Lemma adapters_filter_locations_witness :
  ∃ j, Actuarial.scrape_soa ascii_only Site.fetch Site.urljoin [u "actuary"]
         [u "REMOTE"] true 1 = [j]
       ∧ substring (u "remote") (lower ascii_only (j_location j)).
Proof.
  eexists. split; [vm_compute; reflexivity|].
  match goal with |- substring _ (lower _ (j_location ?j)) =>
    destruct (adapters_filter_locations ascii_only Site.fetch Site.urljoin
                [u "actuary"] [u "REMOTE"] true 1 j) as [_ Hr] end.
  - vm_compute. apply list_elem_of_here.
  - by apply Hr.
Defined.

(** X8.  When every request fails, [run_scrape] returns the empty list: the
    failures are caught page by page and nothing is raised. *)
Theorem run_scrape_offline
    (U : unicode_tables) (fetch : request → option soup)
    (urljoin : text → text → option text) (keywords locations : list text)
    (remote_only : bool) (max_pages : Z) :
  (∀ r, fetch r = None) →
  Actuarial.run_scrape U fetch urljoin keywords locations remote_only max_pages
  = [].
Proof.
  intros Hf. unfold Actuarial.run_scrape.
  destruct (run_scrape_pipeline
              [ (λ mp, Some (Actuarial.scrape_soa U fetch urljoin keywords
                               locations remote_only mp));
                (λ mp, Some (Actuarial.scrape_cas U fetch urljoin keywords
                               locations remote_only mp));
                (λ mp, Some (Actuarial.scrape_indeed U fetch urljoin keywords
                               locations remote_only mp)) ] max_pages)
    as (H1 & _).
  rewrite H1. unfold merged. simpl.
  destruct (adapters_offline U fetch urljoin keywords locations remote_only
              max_pages Hf) as (-> & -> & ->).
  done.
Qed.

Lemma run_scrape_offline_witness :
  Actuarial.run_scrape ascii_only (λ _, None) Site.urljoin [u "actuary"] []
    false 2 = [].
Proof. by apply (run_scrape_offline ascii_only (λ _, None)). Defined.


(** ** Words of a normalized text *)

Lemma words_all_nonspace s :
  Forall (Forall (λ c, is_space c = false)) (words s).
Proof.
  induction s as [|c s IH]; simpl; [constructor|].
  destruct (is_space c) eqn:Hc; [done|].
  destruct s as [|d s]; [by repeat constructor|].
  destruct (is_space d); [by repeat constructor|].
  destruct (words (d :: s)) as [|w ws]; [by repeat constructor|].
  apply Forall_cons in IH as [Hw IH]. by repeat constructor.
Qed.

Lemma words_join ws :
  Forall (λ w, w ≠ []) ws →
  Forall (Forall (λ c, is_space c = false)) ws →
  words (join (u " ") ws) = ws.
Proof.
  induction ws as [|w ws IH]; [done|].
  intros [Hw Hne]%Forall_cons [Hcs Hns]%Forall_cons.
  specialize (IH Hne Hns).
  destruct ws as [|w' ws].
  - clear IH Hne Hns. simpl. induction w as [|c w IHw]; [done|].
    apply Forall_cons in Hcs as [Hc Hcs].
    destruct w as [|d w]; [simpl; by rewrite Hc|].
    specialize (IHw ltac:(done) Hcs).
    pose proof Hcs as [Hd _]%Forall_cons.
    change (words (c :: d :: w))
      with (if is_space c then words (d :: w)
            else if is_space d then [c] :: words (d :: w)
                 else cons_first c (words (d :: w))).
    by rewrite Hc, Hd, IHw.
  - change (join (u " ") (w :: w' :: ws))
      with (w ++ 32%N :: join (u " ") (w' :: ws)).
    set (rest := join (u " ") (w' :: ws)) in *. clearbody rest.
    clear Hne Hns. induction w as [|c w IHw]; [done|].
    apply Forall_cons in Hcs as [Hc Hcs].
    destruct w as [|d w].
    + simpl. rewrite Hc. simpl in IH. by rewrite IH.
    + specialize (IHw ltac:(done) Hcs).
      pose proof Hcs as [Hd _]%Forall_cons.
      change (words ((c :: d :: w) ++ 32%N :: rest))
        with (if is_space c then words ((d :: w) ++ 32%N :: rest)
              else if is_space d then [c] :: words ((d :: w) ++ 32%N :: rest)
                   else cons_first c (words ((d :: w) ++ 32%N :: rest))).
      by rewrite Hc, Hd, IHw.
Qed.

Lemma normalize_whitespace_idem t :
  Actuarial.normalize_whitespace (Some (Actuarial.normalize_whitespace t))
  = Actuarial.normalize_whitespace t.
Proof.
  rewrite !normalize_whitespace_words. simpl.
  by rewrite words_join by (apply words_all_nonempty || apply words_all_nonspace).
Qed.

Section actuarial_skills.
Context (U : unicode_tables).

Lemma extract_skills_spec txt s :
  s ∈ Actuarial.extract_skills U txt
  ↔ s ∈ Actuarial.COMMON_SKILLS ∧ substring (lower U s) (lower U txt).
Proof.
  unfold Actuarial.extract_skills.
  rewrite (sorted_perm _ _ text_compare_ordered), elem_of_elements.
  rewrite (foldl_found (λ s, contains (lower U s) (lower U txt))).
  rewrite contains_spec.
  split; [by intros [?%elem_of_empty|?]|by right].
Qed.

Lemma sorted_elements_strict (X : gset (list N)) :
  StronglySorted (λ a b, text_compare a b = Lt)
                 (sorted text_compare (λ s, s) (elements X)).
Proof.
  apply (sorted_strict text_compare (λ s : text, s) text_compare_ordered).
  rewrite list_fmap_id. apply NoDup_elements.
Qed.

End actuarial_skills.

(** X9.  [extract_skills] of [scrape_actuarial_jobs.py] returns a skill
    exactly when it is one of [COMMON_SKILLS] and occurs, without regard to
    case, as a substring of the text; the lists returned by [extract_skills]
    and [extract_certs] are in strictly increasing code-point order, so they
    hold no entry twice. *)
Theorem actuarial_skills_sorted (U : unicode_tables) (txt s : text) :
  (s ∈ Actuarial.extract_skills U txt
   ↔ s ∈ Actuarial.COMMON_SKILLS ∧ substring (lower U s) (lower U txt))
  ∧ StronglySorted (λ a b, text_compare a b = Lt)
                   (Actuarial.extract_skills U txt)
  ∧ StronglySorted (λ a b, text_compare a b = Lt)
                   (Actuarial.extract_certs U txt).
Proof.
  split; [apply extract_skills_spec|].
  split; apply sorted_elements_strict.
Qed.

(** X10.  [normalize_whitespace] (and [normalize], the same function) is
    idempotent: normalizing a normalized text changes nothing. *)
Theorem normalize_whitespace_idempotent (t : option text) :
  Actuarial.normalize_whitespace (Some (Actuarial.normalize_whitespace t))
  = Actuarial.normalize_whitespace t
  ∧ Boards.normalize (Some (Boards.normalize t)) = Boards.normalize t.
Proof. split; apply normalize_whitespace_idem. Qed.

(** X11.  [sort_jobs] is stable: the records that share a key (source,
    company, title) stand in the result in their input order.  Sorting a
    sorted list changes nothing, and so does running [dedupe] and
    [sort_jobs] on their own result. *)
Theorem sort_jobs_stable (jobs : list Job) (k : text * text * text) :
  List.filter (λ j, bool_decide (sort_key j = k)) (Actuarial.sort_jobs jobs)
  = List.filter (λ j, bool_decide (sort_key j = k)) jobs
  ∧ Actuarial.sort_jobs (Actuarial.sort_jobs jobs) = Actuarial.sort_jobs jobs
  ∧ Actuarial.sort_jobs
      (Actuarial.dedupe (Actuarial.sort_jobs (Actuarial.dedupe jobs)))
    = Actuarial.sort_jobs (Actuarial.dedupe jobs).
Proof.
  split; [|split].
  - apply (sorted_stable key_compare sort_key key_compare_ordered).
    intros x y Hy Hx. apply bool_decide_eq_true in Hx, Hy. congruence.
  - apply (sorted_idem key_compare sort_key key_compare_ordered).
  - rewrite (dedupe_kept (Actuarial.sort_jobs _)), kept_id.
    + apply (sorted_idem key_compare sort_key key_compare_ordered).
    + eapply NoDup_ids_perm;
        [apply (sorted_perm key_compare sort_key key_compare_ordered)|].
      rewrite dedupe_kept. apply kept_NoDup.
    + set_solver.
Qed.

(** ** Running the scrapers of [job_scraper.py] again *)

Section rerun_rules.
Import JobScraper.

Lemma rerun_ret {A} (a : A) : rerun (ret a).
Proof.
  split; [intros s; reflexivity|]. split; [by intros s s2 _|done].
Qed.

Lemma rerun_or_raise {A} (o : option A) : rerun (or_raise o).
Proof.
  destruct o; [apply rerun_ret|].
  split; [intros s; reflexivity|]. split; [by intros s s2 _|done].
Qed.

Lemma rerun_bind {A B} (m : M state A) (f : A → M state B) :
  rerun m → (∀ a, rerun (f a)) → rerun (bind m f).
Proof.
  intros (Hr & Hs & Hp) Hf. split; [|split].
  - intros s. unfold bind. specialize (Hr s).
    destruct (m s) as [[a|] s']; [|done].
    destruct (Hf a) as (Hr' & _). specialize (Hr' s'). simpl in *. set_solver.
  - intros s s2. unfold bind. specialize (Hs s s2). specialize (Hp s s2).
    destruct (m s) as [[a|] s'] eqn:Hms; simpl in *.
    + destruct (Hf a) as (Hr' & Hs' & _). intros Hsub.
      specialize (Hr' s'). destruct (m s2) as [r2 s2']. simpl in *.
      subst r2. rewrite Hs in * by set_solver. by apply (Hs' s').
    + intros Hsub. destruct (m s2) as [r2 s2']. simpl in *. subst r2.
      by apply Hs.
  - intros s s2. unfold bind. specialize (Hp s s2).
    destruct (m s) as [[a|] s'], (m s2) as [[a2|] s2']; simpl in *; try done.
    all: injection Hp as ->; destruct (Hf a2) as (_ & _ & Hp'); apply Hp'.
Qed.

Lemma rerun_try (m : M state unit) :
  records_ids m → settles m → rerun (try_ m).
Proof. intros Hr Hs. split; [apply Hr|]. split; [apply Hs|done]. Qed.

Lemma rerun_catch {A} (m h : M state A) :
  rerun m → rerun h → rerun (catch m h).
Proof.
  intros (Hr & Hs & Hp) (Hr' & Hs' & Hp'). split; [|split].
  - intros s. unfold catch. specialize (Hr s).
    destruct (m s) as [[a|] s']; [done|].
    specialize (Hr' s'). simpl in *. set_solver.
  - intros s s2. unfold catch. specialize (Hs s s2). specialize (Hp s s2).
    destruct (m s) as [[a|] s'] eqn:Hms; simpl in *.
    + intros Hsub. destruct (m s2) as [r2 s2']. simpl in *. subst r2.
      by apply Hs.
    + intros Hsub. specialize (Hr' s').
      destruct (m s2) as [r2 s2']. simpl in *. subst r2.
      rewrite Hs in * by set_solver. by apply (Hs' s').
  - intros s s2. unfold catch. specialize (Hp s s2).
    destruct (m s) as [[a|] s'], (m s2) as [[a2|] s2']; simpl in *; try done.
    all: apply Hp'.
Qed.

Lemma rerun_for_each {A} (xs : list A) (body : A → M state unit) :
  (∀ x, rerun (body x)) → rerun (for_each xs body).
Proof.
  intros Hb. induction xs as [|x xs IH]; simpl; [apply rerun_ret|].
  apply rerun_bind; [apply Hb|done].
Qed.

Lemma rerun_for_each_flow {A} (xs : list A) (body : A → M state flow) :
  (∀ x, rerun (body x)) → rerun (for_each_flow xs body).
Proof.
  intros Hb. induction xs as [|x xs IH]; simpl; [apply rerun_ret|].
  apply rerun_bind; [apply Hb|]. intros [|]; [done|apply rerun_ret].
Qed.

(** The same rules for lists that only grow by a bounded number. *)
Lemma grows_ret {A} (a : A) n : grows n (@ret state A a).
Proof. intros s. simpl. lia. Qed.

Lemma grows_or_raise {A} (o : option A) n : grows n (@or_raise state A o).
Proof. intros s. destruct o; simpl; lia. Qed.

Lemma grows_bind {A B} (m : M state A) (f : A → M state B) a b :
  grows a m → (∀ x, grows b (f x)) → grows (a + b) (bind m f).
Proof.
  intros Hm Hf s. unfold bind. specialize (Hm s).
  destruct (m s) as [[x|] s']; simpl in *; [|lia].
  specialize (Hf x s'). lia.
Qed.

Lemma grows_try (m : M state unit) n : grows n m → grows n (try_ m).
Proof. intros Hm s. apply Hm. Qed.

Lemma grows_for_each {A} (xs : list A) (body : A → M state unit) n :
  (∀ x, grows n (body x)) → grows (length xs * n) (for_each xs body).
Proof.
  intros Hb. induction xs as [|x xs IH]; simpl; [apply grows_ret|].
  apply grows_bind; [apply Hb|done].
Qed.

End rerun_rules.

Lemma for_each_flow_unchanged {S A} (xs : list A) (body : A → M S flow) :
  (∀ x s, (body x s).2 = s) → ∀ s, (for_each_flow xs body s).2 = s.
Proof.
  intros Hb. induction xs as [|x xs IH]; intros s; simpl; [done|].
  unfold bind. specialize (Hb x s). destruct (body x s) as [[[|]|] s'];
    simpl in *; subst; [apply IH|done|done].
Qed.

Section jobscraper_runs.
Import JobScraper.
Context (U : unicode_tables) (md5_hexdigest : text → text).
Context (urlencode : list (string * param) → text).
Context (session_get : text → option page).
Context (today : JobScraper.state → text) (location : text).
Context (keywords : list text).

Local Notation record := (record_job U md5_hexdigest today).

Lemma record_job_records title company loc description job_link source
    full_text skills_text certs salary_source featured :
  records_ids (record title company loc description job_link source full_text
                      skills_text certs salary_source featured).
Proof.
  intros st. unfold record_job.
  destruct title as [title|]; [|done].
  destruct (negb (nonempty title)); [done|].
  unfold bind at 1, get. simpl.
  case_decide as Hseen; [done|].
  unfold bind at 1, modify at 1. simpl.
  unfold bind. destruct salary_source as [t|]; simpl.
  - destruct (extract_salary U t) as [salary|]; simpl; set_solver.
  - set_solver.
Qed.

Lemma record_job_settles title company loc description job_link source
    full_text skills_text certs salary_source featured :
  settles (record title company loc description job_link source full_text
                  skills_text certs salary_source featured).
Proof.
  intros st st2. unfold record_job.
  destruct title as [title|]; [|done].
  destruct (negb (nonempty title)); [done|].
  set (job_id := generate_job_id U md5_hexdigest title company loc).
  unfold bind at 1, get. cbn beta iota.
  destruct (decide (job_id ∈ seen_ids st)) as [Hseen|Hseen].
  - cbn [ret snd]. intros Hsub. unfold bind at 1. cbn beta iota.
    by rewrite decide_True by set_solver.
  - intros Hsub. unfold bind at 1. cbn beta iota.
    rewrite decide_True; [done|]. apply Hsub. clear Hsub.
    unfold bind at 1, modify at 1. cbn beta iota.
    unfold bind. destruct salary_source as [t|]; simpl.
    + destruct (extract_salary U t) as [salary|]; simpl; set_solver.
    + set_solver.
Qed.

Lemma record_job_grows title company loc description job_link source
    full_text skills_text certs salary_source featured :
  grows 1 (record title company loc description job_link source full_text
                  skills_text certs salary_source featured).
Proof.
  intros st. unfold record_job.
  destruct title as [title|]; [|unfold ret; simpl; lia].
  destruct (negb (nonempty title)); [unfold ret; simpl; lia|].
  unfold bind at 1, get. simpl.
  case_decide as Hseen; [unfold ret; simpl; lia|].
  unfold bind at 1, modify at 1. simpl.
  unfold bind. destruct salary_source as [t|]; simpl.
  - destruct (extract_salary U t) as [salary|]; simpl;
      rewrite ?length_app; simpl; lia.
  - rewrite length_app. simpl. lia.
Qed.

Local Notation naukri := (scrape_naukri U md5_hexdigest urlencode session_get
                            today location keywords).
Local Notation indeed := (scrape_indeed_india U md5_hexdigest urlencode
                            session_get today location keywords).
Local Notation linkedin := (scrape_linkedin_india U md5_hexdigest urlencode
                              session_get today location keywords).

Local Ltac card_rerun :=
  apply rerun_for_each; intros card;
  apply rerun_try; [apply record_job_records|apply record_job_settles].

Lemma scrape_naukri_rerun max_pages seen seen2 :
  seen ⊆ (naukri max_pages seen).2
  ∧ ((naukri max_pages seen).2 ⊆ seen2 → naukri max_pages seen2 = ([], seen2)).
Proof.
  unfold scrape_naukri. cbv zeta.
  match goal with |- context [for_each ?xs ?body (mkState [] seen)] =>
    set (m := for_each xs body) end.
  assert (rerun m) as (Hr & Hs & _).
  { apply rerun_for_each. intros keyword.
    apply rerun_for_each_flow. intros page_no.
    apply rerun_catch; [|apply rerun_ret].
    apply rerun_bind; [apply rerun_or_raise|]. intros soup.
    destruct (negb _); [apply rerun_ret|].
    apply rerun_bind; [|intros; apply rerun_ret]. card_rerun. }
  clearbody m. cbn [snd]. split; [apply (Hr (mkState [] seen))|].
  intros Hsub. by rewrite (Hs (mkState [] seen) (mkState [] seen2) Hsub).
Qed.

Lemma scrape_indeed_india_rerun max_pages seen seen2 :
  seen ⊆ (indeed max_pages seen).2
  ∧ ((indeed max_pages seen).2 ⊆ seen2 → indeed max_pages seen2 = ([], seen2)).
Proof.
  unfold scrape_indeed_india. cbv zeta.
  match goal with |- context [for_each ?xs ?body (mkState [] seen)] =>
    set (m := for_each xs body) end.
  assert (rerun m) as (Hr & Hs & _).
  { apply rerun_for_each. intros keyword.
    apply rerun_for_each. intros page_no.
    apply rerun_try.
    - apply rerun_bind; [apply rerun_or_raise|]. intros soup. card_rerun.
    - apply rerun_bind; [apply rerun_or_raise|]. intros soup. card_rerun. }
  clearbody m. cbn [snd]. split; [apply (Hr (mkState [] seen))|].
  intros Hsub. by rewrite (Hs (mkState [] seen) (mkState [] seen2) Hsub).
Qed.

Lemma scrape_linkedin_india_rerun max_pages seen seen2 :
  seen ⊆ (linkedin max_pages seen).2
  ∧ ((linkedin max_pages seen).2 ⊆ seen2
     → linkedin max_pages seen2 = ([], seen2)).
Proof.
  unfold scrape_linkedin_india. cbv zeta.
  match goal with |- context [for_each ?xs ?body (mkState [] seen)] =>
    set (m := for_each xs body) end.
  assert (rerun m) as (Hr & Hs & _).
  { apply rerun_for_each. intros keyword.
    apply rerun_try.
    - apply rerun_bind; [apply rerun_or_raise|]. intros soup. card_rerun.
    - apply rerun_bind; [apply rerun_or_raise|]. intros soup. card_rerun. }
  clearbody m. cbn [snd]. split; [apply (Hr (mkState [] seen))|].
  intros Hsub. by rewrite (Hs (mkState [] seen) (mkState [] seen2) Hsub).
Qed.

Local Notation all := (scrape_all U md5_hexdigest urlencode session_get today
                         location keywords).

Lemma scrape_all_rerun seen seen2 :
  seen ⊆ (all seen).2 ∧ ((all seen).2 ⊆ seen2 → all seen2 = ([], seen2)).
Proof.
  unfold scrape_all.
  destruct (scrape_naukri_rerun 5 seen seen2) as [M1 R1].
  destruct (naukri 5 seen) as [j1 s1] eqn:E1.
  destruct (scrape_indeed_india_rerun 3 s1 seen2) as [M2 R2].
  destruct (indeed 3 s1) as [j2 s2] eqn:E2.
  destruct (scrape_linkedin_india_rerun 2 s2 seen2) as [M3 R3].
  destruct (linkedin 2 s2) as [j3 s3] eqn:E3.
  cbn [snd] in *. split; [set_solver|]. intros Hsub.
  rewrite R1 by set_solver. rewrite R2 by set_solver. by rewrite R3.
Qed.

Lemma scrape_linkedin_india_bound max_pages seen :
  length (linkedin max_pages seen).1 ≤ 40.
Proof.
  unfold scrape_linkedin_india. cbv zeta.
  match goal with |- context [for_each ?xs ?body (mkState [] seen)] =>
    assert (grows (length xs * (0 + 20 * 1)) (for_each xs body)) as Hg end.
  { apply grows_for_each. intros keyword. apply grows_try.
    apply grows_bind; [apply grows_or_raise|]. intros soup.
    intros s.
    match goal with |- context [for_each ?xs ?body s] =>
      pose proof (grows_for_each xs body 1) as Hc end.
    etrans; [apply Hc|].
    - intros card. apply grows_try, record_job_grows.
    - rewrite length_take. lia. }
  specialize (Hg (mkState [] seen)). simpl in *.
  rewrite length_take in Hg. lia.
Qed.

Lemma scrapers_offline max_pages seen :
  (∀ url, session_get url = None) →
  naukri max_pages seen = ([], seen)
  ∧ indeed max_pages seen = ([], seen)
  ∧ linkedin max_pages seen = ([], seen)
  ∧ all seen = ([], seen).
Proof.
  intros Hoff.
  assert (H1 : ∀ mp s, naukri mp s = ([], s)).
  { intros mp s. unfold scrape_naukri. cbv zeta.
    rewrite for_each_unchanged; [done|]. intros keyword s0.
    apply for_each_flow_unchanged. intros page_no s1.
    unfold catch, bind. by rewrite Hoff. }
  assert (H2 : ∀ mp s, indeed mp s = ([], s)).
  { intros mp s. unfold scrape_indeed_india. cbv zeta.
    rewrite for_each_unchanged; [done|]. intros keyword s0.
    apply for_each_unchanged. intros page_no s1.
    unfold try_, bind. by rewrite Hoff. }
  assert (H3 : ∀ mp s, linkedin mp s = ([], s)).
  { intros mp s. unfold scrape_linkedin_india. cbv zeta.
    rewrite for_each_unchanged; [done|]. intros keyword s0.
    unfold try_, bind. by rewrite Hoff. }
  split; [apply H1|]. split; [apply H2|]. split; [apply H3|].
  unfold scrape_all. by rewrite H1, H2, H3.
Qed.

End jobscraper_runs.

(** ** What the card loops of [job_scraper.py] record *)

Section jobscraper_records.
Import JobScraper.
Context (U : unicode_tables) (md5_hexdigest : text → text).
Context (urlencode : list (string * param) → text).
Context (session_get : text → option page).
Context (today : JobScraper.state → text) (location : text).
Context (keywords : list text).

Lemma extract_salary_currency t sal :
  extract_salary U t = Some (Some sal) → s_currency sal = u "INR".
Proof.
  unfold extract_salary.
  destruct (search (pattern1 U) _) as [[m ?]|].
  { intros H. apply fmap_Some in H as (x & Hx & [= ->]).
    unfold range1 in Hx.
    apply bind_Some in Hx as (a & _ & Hx).
    apply bind_Some in Hx as (b & _ & Hx).
    apply bind_Some in Hx as ([mn mx] & _ & Hx).
    by destruct (mx <? 50000)%Z; injection Hx as <-. }
  destruct (search (pattern2 U) _) as [[m ?]|].
  { intros H. apply fmap_Some in H as (x & Hx & [= ->]).
    unfold range2 in Hx.
    apply bind_Some in Hx as (a & _ & Hx).
    apply bind_Some in Hx as (b & _ & Hx).
    apply bind_Some in Hx as (mn & _ & Hx).
    apply bind_Some in Hx as (mx & _ & Hx).
    by injection Hx as <-. }
  destruct (search (pattern3 U) _) as [[m ?]|]; [|done].
  intros H. apply fmap_Some in H as (x & Hx & [= ->]).
  unfold single3 in Hx.
  apply bind_Some in Hx as (a & _ & Hx).
  apply bind_Some in Hx as (b & _ & Hx).
  apply bind_Some in Hx as (mn & _ & Hx).
  apply bind_Some in Hx as (mx & _ & Hx).
  by injection Hx as <-.
Qed.

Lemma record_job_Forall (P : job_dict → Prop) title company loc description
    job_link source full_text skills_text certs salary_source featured :
  (∀ t salary date,
     title = Some t → t ≠ [] →
     match salary_source with
     | Some x => extract_salary U x = Some salary
     | None => salary = None
     end →
     P {| d_id := generate_job_id U md5_hexdigest t company loc;
          d_title := t;
          d_company := company;
          d_location := loc;
          d_description := description;
          d_url := job_link;
          d_source := source;
          d_jobType := determine_job_type U t full_text;
          d_experienceLevel := determine_experience_level U t full_text;
          d_skills := extract_skills U skills_text;
          d_qualifications := [];
          d_certifications := certs;
          d_posted_date := date;
          d_featured := featured;
          d_salary := salary |}) →
  preserved (λ st, Forall P (jobs st))
    (record_job U md5_hexdigest today title company loc description job_link
                source full_text skills_text certs salary_source featured).
Proof.
  intros HP st Hst. unfold record_job.
  destruct title as [title|]; [|done].
  destruct title as [|c title]; [done|]. cbn [nonempty negb].
  unfold bind at 1, get. cbn beta iota.
  case_decide as Hseen; [done|].
  unfold bind at 1, modify at 1. cbn beta iota.
  unfold bind at 1. cbn beta iota.
  unfold bind. destruct salary_source as [t|]; cbn beta iota.
  - destruct (extract_salary U t) as [salary|] eqn:Hsal; simpl; [|done].
    apply Forall_app. split; [done|]. constructor; [|constructor].
    by apply HP.
  - simpl. apply Forall_app. split; [done|]. constructor; [|constructor].
    by apply HP.
Qed.

Local Notation ok := (Forall (recorded U md5_hexdigest)).

Local Ltac fields :=
  cbn [d_id d_title d_company d_location d_description d_url d_source
       d_jobType d_experienceLevel d_skills d_qualifications d_certifications
       d_posted_date d_featured d_salary].

Lemma naukri_card_recorded url card :
  preserved (λ st, ok (jobs st))
    (naukri_card U md5_hexdigest today location url card).
Proof.
  unfold naukri_card. apply record_job_Forall.
  intros t salary date Ht Hne Hsal. unfold recorded. fields.
  repeat (split; [done|]). split.
  - intros sal ->. by apply (extract_salary_currency _ _ Hsal).
  - right. left. done.
Qed.

Lemma indeed_card_recorded url card :
  preserved (λ st, ok (jobs st))
    (indeed_card U md5_hexdigest today location url card).
Proof.
  unfold indeed_card. apply record_job_Forall.
  intros t salary date Ht Hne Hsal. unfold recorded. fields.
  repeat (split; [done|]). split.
  - intros sal ->. by apply (extract_salary_currency _ _ Hsal).
  - right. right. done.
Qed.

Lemma linkedin_card_recorded url card :
  preserved (λ st, ok (jobs st))
    (linkedin_card U md5_hexdigest today location url card).
Proof.
  unfold linkedin_card. apply record_job_Forall.
  intros t salary date Ht Hne ->. unfold recorded. fields.
  repeat (split; [done|]). left. rewrite Ht. done.
Qed.

Local Notation naukri := (scrape_naukri U md5_hexdigest urlencode session_get
                            today location keywords).
Local Notation indeed := (scrape_indeed_india U md5_hexdigest urlencode
                            session_get today location keywords).
Local Notation linkedin := (scrape_linkedin_india U md5_hexdigest urlencode
                              session_get today location keywords).

Lemma scrape_naukri_recorded max_pages seen : ok (naukri max_pages seen).1.
Proof.
  unfold scrape_naukri. cbv zeta. cbn [fst].
  match goal with |- ok (jobs (?m ?s).2) =>
    cut (preserved (λ st, ok (jobs st)) m);
      [intros H; apply (H s); constructor|] end.
  apply preserved_for_each. intros keyword.
  apply preserved_for_each_flow. intros page_no.
  apply preserved_catch; [|apply preserved_ret].
  apply preserved_bind; [apply preserved_or_raise|]. intros soup.
  destruct (negb _); [apply preserved_ret|].
  apply preserved_bind; [|intros; apply preserved_ret].
  apply preserved_for_each. intros card.
  apply preserved_try, naukri_card_recorded.
Qed.

Lemma scrape_indeed_india_recorded max_pages seen :
  ok (indeed max_pages seen).1.
Proof.
  unfold scrape_indeed_india. cbv zeta. cbn [fst].
  match goal with |- ok (jobs (?m ?s).2) =>
    cut (preserved (λ st, ok (jobs st)) m);
      [intros H; apply (H s); constructor|] end.
  apply preserved_for_each. intros keyword.
  apply preserved_for_each. intros page_no.
  apply preserved_try.
  apply preserved_bind; [apply preserved_or_raise|]. intros soup.
  apply preserved_for_each. intros card.
  apply preserved_try, indeed_card_recorded.
Qed.

Lemma scrape_linkedin_india_recorded max_pages seen :
  ok (linkedin max_pages seen).1.
Proof.
  unfold scrape_linkedin_india. cbv zeta. cbn [fst].
  match goal with |- ok (jobs (?m ?s).2) =>
    cut (preserved (λ st, ok (jobs st)) m);
      [intros H; apply (H s); constructor|] end.
  apply preserved_for_each. intros keyword.
  apply preserved_try.
  apply preserved_bind; [apply preserved_or_raise|]. intros soup.
  apply preserved_for_each. intros card.
  apply preserved_try, linkedin_card_recorded.
Qed.

Lemma scrape_all_recorded seen :
  ok (scrape_all U md5_hexdigest urlencode session_get today location keywords
                 seen).1.
Proof.
  unfold scrape_all.
  pose proof (scrape_naukri_recorded 5 seen) as H1.
  destruct (naukri 5 seen) as [j1 s1].
  pose proof (scrape_indeed_india_recorded 3 s1) as H2.
  destruct (indeed 3 s1) as [j2 s2].
  pose proof (scrape_linkedin_india_recorded 2 s2) as H3.
  destruct (linkedin 2 s2) as [j3 s3].
  cbn [fst] in *. rewrite !Forall_app. done.
Qed.

End jobscraper_records.

(** ** The skills of [job_scraper.py] *)

Lemma foldl_snoc_map {A} (P : A → bool) (f : A → text) (l : list A)
    (acc : list text) :
  foldl (λ found x, if P x then found ++ [f x] else found) acc l
  = acc ++ map f (List.filter P l).
Proof.
  revert acc. induction l as [|x l IH]; intros acc; simpl.
  - by rewrite app_nil_r.
  - rewrite IH. destruct (P x); [|done]. by rewrite <- app_assoc.
Qed.

Lemma fromkeys_loop (xs keys : list text) :
  NoDup (keys ++ xs) →
  foldl (λ keys x, if existsb (λ y, bool_decide (y = x)) keys then keys
                   else keys ++ [x]) keys xs
  = keys ++ xs.
Proof.
  revert keys. induction xs as [|x xs IH]; intros keys Hnd; simpl.
  - by rewrite app_nil_r.
  - assert (existsb (λ y, bool_decide (y = x)) keys = false) as ->.
    { apply not_true_is_false. intros (y & Hy & Heq)%existsb_exists.
      apply bool_decide_eq_true in Heq. subst y.
      apply list_elem_of_In in Hy.
      apply NoDup_app in Hnd as (_ & Hd & _). apply (Hd x Hy). set_solver. }
    rewrite IH; rewrite <- app_assoc; done.
Qed.

Lemma fromkeys_NoDup xs : NoDup xs → JobScraper.fromkeys xs = xs.
Proof. intros Hnd. unfold JobScraper.fromkeys. by rewrite fromkeys_loop. Qed.

Lemma filter_sublist_map {A} (P : A → bool) (f : A → text) (l : list A) :
  sublist (map f (List.filter P l)) (map f l).
Proof.
  induction l as [|x l IH]; simpl; [constructor|].
  destruct (P x); simpl; by constructor.
Qed.

Lemma shown_keywords_NoDup : NoDup (map shown JobScraper.skills_keywords).
Proof. apply (bool_decide_unpack _). by vm_compute. Qed.

Lemma jobscraper_extract_skills_eq U description :
  JobScraper.extract_skills U description
  = map shown (List.filter (λ k, contains k (lower U description))
                           JobScraper.skills_keywords).
Proof.
  unfold JobScraper.extract_skills.
  match goal with |- JobScraper.fromkeys (foldl ?f _ _) = _ =>
    assert (Hf : ∀ l acc,
              foldl f acc l
              = foldl (λ found x, if contains x (lower U description)
                                  then found ++ [shown x] else found) acc l)
  end.
  { induction l as [|x l IH]; intros acc; [done|]. cbn [foldl].
    rewrite <- IH. f_equal. unfold shown.
    destruct (contains x _); [|done].
    destruct (existsb _ _); [done|]. by destruct (bool_decide _). }
  rewrite Hf, (foldl_snoc_map (λ k, contains k (lower U description)) shown).
  cbn [app]. apply fromkeys_NoDup.
  eapply sublist_NoDup;
    first [apply filter_sublist_map|apply shown_keywords_NoDup].
Qed.

Lemma NoDup_map_inj {A B} (f : A → B) (l : list A) x y :
  NoDup (map f l) → x ∈ l → y ∈ l → f x = f y → x = y.
Proof.
  induction l as [|a l IH]; [by intros _ ?%elem_of_nil|].
  simpl. intros [Ha Hnd]%NoDup_cons.
  assert (Hin : ∀ z, z ∈ l → f z ≠ f a).
  { intros z Hz Heq. apply Ha. rewrite <- Heq.
    apply list_elem_of_In, in_map, list_elem_of_In, Hz. }
  intros [->|Hx]%elem_of_cons [->|Hy]%elem_of_cons Heq; [done| | |by apply IH].
  - by destruct (Hin y Hy).
  - by destruct (Hin x Hx).
Qed.

(** X12.  The set of seen ids of a scraper object is never reset: a second
    [scrape_all] on the same object, the pages being unchanged, finds every
    id already seen and returns an empty list. *)
Theorem scrape_all_second_run (U : unicode_tables)
    (md5_hexdigest : text → text) (urlencode : list (string * param) → text)
    (session_get : text → option page)
    (today : JobScraper.state → text) (location : text)
    (keywords : list text) (seen : gset (list N)) :
  let first := JobScraper.scrape_all U md5_hexdigest urlencode session_get
                 today location keywords seen in
  seen ⊆ first.2
  ∧ JobScraper.scrape_all U md5_hexdigest urlencode session_get today location
      keywords first.2
    = ([], first.2).
Proof.
  intros first.
  destruct (scrape_all_rerun U md5_hexdigest urlencode session_get today
              location keywords seen first.2) as [Hsub Hagain].
  split; [done|]. by apply Hagain.
Qed.

(** X13.  Every dictionary returned by [scrape_all] has a non-empty title,
    the id that [generate_job_id] gives to its title, company and location,
    an id not seen before the call, and no qualifications; a salary, when
    there is one, is in INR.  A LinkedIn record is featured, has neither
    salary nor certifications, and its description and skills come from the
    title alone; Naukri and Indeed records are not featured. *)
Theorem scrape_all_records (U : unicode_tables)
    (md5_hexdigest : text → text) (urlencode : list (string * param) → text)
    (session_get : text → option page)
    (today : JobScraper.state → text) (location : text)
    (keywords : list text) (seen : gset (list N)) (j : JobScraper.job_dict) :
  j ∈ (JobScraper.scrape_all U md5_hexdigest urlencode session_get today
         location keywords seen).1 →
  JobScraper.d_title j ≠ []
  ∧ JobScraper.d_id j
    = JobScraper.generate_job_id U md5_hexdigest (JobScraper.d_title j)
        (JobScraper.d_company j) (JobScraper.d_location j)
  ∧ (JobScraper.d_id j ∉ seen)
  ∧ JobScraper.d_qualifications j = []
  ∧ (∀ sal, JobScraper.d_salary j = Some sal
            → JobScraper.s_currency sal = u "INR")
  ∧ ((JobScraper.d_source j = u "LinkedIn"
      ∧ JobScraper.d_featured j = true
      ∧ JobScraper.d_salary j = None
      ∧ JobScraper.d_certifications j = []
      ∧ JobScraper.d_description j
        = JobScraper.d_title j ++ u " position at " ++ JobScraper.d_company j
      ∧ JobScraper.d_skills j
        = JobScraper.extract_skills U (JobScraper.d_title j))
     ∨ (JobScraper.d_source j = u "Naukri"
        ∧ JobScraper.d_featured j = false
        ∧ JobScraper.d_skills j
          = JobScraper.extract_skills U (JobScraper.d_description j)
        ∧ JobScraper.d_certifications j
          = JobScraper.extract_certifications (JobScraper.d_description j))
     ∨ (JobScraper.d_source j = u "Indeed"
        ∧ JobScraper.d_featured j = false)).
Proof.
  intros Hj.
  pose proof (scrape_all_recorded U md5_hexdigest urlencode session_get today
                location keywords seen) as Hall.
  destruct (proj1 (Forall_forall _ _) Hall j Hj)
    as (Ht & Hid & Hq & Hs & Hsrc).
  destruct (scrape_all_concat U md5_hexdigest urlencode session_get today
              location keywords seen) as (_ & _ & Hfresh).
  repeat (split; [done|]). split; [by apply Hfresh|]. done.
Qed.

Lemma scrape_all_records_witness :
  ∃ j, head Site.run_all.1 = Some j ∧ JobScraper.d_title j ≠ [].
Proof.
  eexists. split; [vm_compute; reflexivity|].
  match goal with |- JobScraper.d_title ?j ≠ [] =>
    destruct (scrape_all_records ascii_only Site.digest Site.urlencode
                Site.session_get (λ _, u "2024-01-01") (u "India") [u "actuarial"]
                ∅ j) as (Ht & _) end.
  - vm_compute. apply list_elem_of_here.
  - exact Ht.
Defined.

(** X14.  When every request of the session fails, the three scrapers
    and [scrape_all] return empty lists, raise nothing and leave the set of
    seen ids as it was. *)
Theorem job_scraper_offline (U : unicode_tables)
    (md5_hexdigest : text → text) (urlencode : list (string * param) → text)
    (session_get : text → option page)
    (today : JobScraper.state → text) (location : text)
    (keywords : list text) (max_pages : Z) (seen : gset (list N)) :
  (∀ url, session_get url = None) →
  JobScraper.scrape_naukri U md5_hexdigest urlencode session_get today location
    keywords max_pages seen = ([], seen)
  ∧ JobScraper.scrape_indeed_india U md5_hexdigest urlencode session_get today
      location keywords max_pages seen = ([], seen)
  ∧ JobScraper.scrape_linkedin_india U md5_hexdigest urlencode session_get
      today location keywords max_pages seen = ([], seen)
  ∧ JobScraper.scrape_all U md5_hexdigest urlencode session_get today location
      keywords seen = ([], seen).
Proof. apply scrapers_offline. Qed.

Lemma job_scraper_offline_witness :
  JobScraper.scrape_all ascii_only Site.digest Site.urlencode (λ _, None)
    (λ _, u "2024-01-01") (u "India") [u "actuarial"] ∅ = ([], ∅).
Proof.
  by apply (job_scraper_offline ascii_only Site.digest Site.urlencode
              (λ _, None) (λ _, u "2024-01-01") (u "India") [u "actuarial"] 1 ∅).
Defined.

(** X15.  [scrape_linkedin_india] returns at most 40 postings, whatever the
    pages hold: it reads the first two keywords and the first 20 cards of
    each; its argument [max_pages] has no effect. *)
Theorem scrape_linkedin_india_at_most_40 (U : unicode_tables)
    (md5_hexdigest : text → text) (urlencode : list (string * param) → text)
    (session_get : text → option page)
    (today : JobScraper.state → text) (location : text)
    (keywords : list text) (max_pages max_pages' : Z) (seen : gset (list N)) :
  length (JobScraper.scrape_linkedin_india U md5_hexdigest urlencode
            session_get today location keywords max_pages seen).1 ≤ 40
  ∧ JobScraper.scrape_linkedin_india U md5_hexdigest urlencode session_get
      today location keywords max_pages seen
    = JobScraper.scrape_linkedin_india U md5_hexdigest urlencode session_get
        today location keywords max_pages' seen.
Proof. split; [apply scrape_linkedin_india_bound|done]. Qed.

(** X16.  [extract_skills] of [job_scraper.py] lists, in the order of its
    keyword table and each once, the keywords that occur as a substring of
    the lower-cased description, also inside a longer word: the six acronyms
    in capitals, r as R, the others with a capital first letter.  So R is
    listed for every description that contains the letter r. *)
Theorem job_scraper_skills_listed (U : unicode_tables) (description : text) :
  JobScraper.extract_skills U description
  = map shown (List.filter (λ k, contains k (lower U description))
                           JobScraper.skills_keywords)
  ∧ NoDup (JobScraper.extract_skills U description)
  ∧ (∀ k, k ∈ JobScraper.skills_keywords →
          (shown k ∈ JobScraper.extract_skills U description
           ↔ substring k (lower U description)))
  ∧ (u "R" ∈ JobScraper.extract_skills U description
     ↔ substring (u "r") (lower U description)).
Proof.
  assert (Hmem : ∀ k, k ∈ JobScraper.skills_keywords →
            shown k ∈ JobScraper.extract_skills U description
            ↔ substring k (lower U description)).
  { intros k Hk. rewrite jobscraper_extract_skills_eq, <- contains_spec.
    rewrite list_elem_of_In, in_map_iff. split.
    - intros (k' & Heq & [Hk' HP]%filter_In).
      apply list_elem_of_In in Hk'.
      by rewrite <- (NoDup_map_inj shown _ k' k shown_keywords_NoDup Hk' Hk Heq).
    - intros HP. exists k. split; [done|]. apply filter_In.
      split; [by apply list_elem_of_In|done]. }
  split; [apply jobscraper_extract_skills_eq|]. split; [|split; [done|]].
  - rewrite jobscraper_extract_skills_eq.
    eapply sublist_NoDup;
      first [apply filter_sublist_map|apply shown_keywords_NoDup].
  - apply (Hmem (u "r")). apply (bool_decide_unpack _). by vm_compute.
Qed.
Section monthly_range.
Context (U : unicode_tables).
Import JobScraper.



End monthly_range.

(** ** C1 and C8: the bounds of a salary *)






